(** * quimb: lazy partial-trace operators, Lanczos engine and MPO builder

  A shallow embedding of

  - [quimb/linalg/approx_linalg.py]: the contraction-label planners
    [get_cntrct_inds_ptr_dot] and [get_cntrct_inds_ptr_ppt_dot], the lazy
    contractions [lazy_ptr_dot] and [lazy_ptr_ppt_dot], the two
    [LinearOperator] adapters, [construct_lanczos_tridiag],
    [lanczos_tridiag_eig] and [approx_spectral_function];
  - [quimb/tensor/tensor_gen.py]: the builder class [MPOSpinHam] with
    [build], [spin_ham_mpo_tensor], the Hamiltonians [MPO_ham_ising],
    [MPO_ham_XY] and [MPO_ham_heis], the product states
    [MPS_product_state], [MPS_computational_state], [MPS_neel_state] and
    [MPS_zero_state], and [MPO_identity].

  Python calls that can raise are modelled in the [result] monad, global
  state (the numpy random generator, the number of operator applications)
  by explicit state passing, and numeric scalars by section variables so
  that the same definitions run on Gaussian integers and on binary64
  floats. *)

From Stdlib Require Import List Arith Lia Bool ZArith Permutation.
From Stdlib Require Import Ring_theory Ring.
From Stdlib Require Import Floats.
Import ListNotations.

Set Implicit Arguments.

(** ** Python exceptions and the result of a call *)

Inductive exn : Type :=
| NotImplementedError   (* raised by [MPOSpinHam.add_term] *)
| ShapeError            (* numpy's ValueError "cannot reshape array of size n into shape s" *)
| EinsumError           (* numpy's ValueError for operands that do not fit their labels *)
| ZeroDivisionError     (* integer [//] by zero *)
| StopIteration.        (* [next] on an exhausted iterator *)

Inductive result (A : Type) : Type :=
| Returned (a : A)
| Raised (e : exn).

Arguments Returned {A} a.
Arguments Raised {A} e.

Definition bind {A B : Type} (r : result A) (k : A -> result B) : result B :=
  match r with
  | Returned a => k a
  | Raised e => Raised e
  end.

Declare Scope result_scope.
Delimit Scope result_scope with result.
Notation "'do' x <- r ; k" := (bind r (fun x => k))
  (at level 10, x name, r at level 100, k at level 200) : result_scope.
Notation "'do' ' p <- r ; k" := (bind r (fun p => k))
  (at level 10, p strict pattern, r at level 100, k at level 200) : result_scope.

(** ** [quimb/tensor/tensor_gen.py]: the spin-Hamiltonian MPO builder *)

Module TensorGen.

Section MPOSpinHam.

(** [scalar] is the type of the factor, [operator] the type of one
    operator argument (a name given to [spin_operator] or an array),
    [spin] the type of the attribute [S]. *)
Variables (scalar operator spin : Type).

(** A stored term is the tuple [(factor, *operators)]. *)
Definition term : Type := (scalar * list operator)%type.

Record MPOSpinHam : Type := mkMPOSpinHam {
  S : spin;
  one_site_terms : list term;
  two_site_terms : list term
}.

(** [__init__]: both term lists start empty. *)
Definition init (s : spin) : MPOSpinHam :=
  {| S := s; one_site_terms := []; two_site_terms := [] |}.

(** [add_term(self, factor, *operators)]: the builder after the call and
    what the call returned or raised. [list.append] adds at the end. *)
Definition add_term (self : MPOSpinHam) (factor : scalar)
           (operators : list operator) : MPOSpinHam * result unit :=
  if length operators =? 1 then
    ({| S := S self;
        one_site_terms := one_site_terms self ++ [(factor, operators)];
        two_site_terms := two_site_terms self |}, Returned tt)
  else if length operators =? 2 then
    ({| S := S self;
        one_site_terms := one_site_terms self;
        two_site_terms := two_site_terms self ++ [(factor, operators)] |},
     Returned tt)
  else (self, Raised NotImplementedError).

End MPOSpinHam.

End TensorGen.

(** ** The contraction-label planners *)

Module Planner.

Open Scope result_scope.

(** [i in sys] for a tuple of ints. *)
Definition mem (i : nat) (sys : list nat) : bool := existsb (Nat.eqb i) sys.

(** [next(upper_inds)]: the iterator is the list of values still to come. *)
Definition next (it : list nat) : result (nat * list nat) :=
  match it with
  | x :: it' => Returned (x, it')
  | [] => Raised StopIteration
  end.

(** The label plan of [lazy_ptr_dot]. *)
Record ptr_dot_plan : Type := mkPtrDotPlan {
  inds_a_ket : list nat;
  inds_ab_bra : list nat;
  inds_ab_ket : list nat
}.

(** One pass of the body of the loop of [get_cntrct_inds_ptr_dot]; the
    state is the three lists built so far and the iterator. *)
Definition ptr_dot_body (sysa : list nat)
           (st : ptr_dot_plan * list nat) (i : nat)
  : result (ptr_dot_plan * list nat) :=
  let '(p, upper_inds) := st in
  if mem i sysa then
    do '(up, upper_inds') <- next upper_inds;
    Returned ({| inds_a_ket := inds_a_ket p ++ [i];
                 inds_ab_bra := inds_ab_bra p ++ [i];
                 inds_ab_ket := inds_ab_ket p ++ [up] |}, upper_inds')
  else
    Returned ({| inds_a_ket := inds_a_ket p;
                 inds_ab_bra := inds_ab_bra p ++ [i];
                 inds_ab_ket := inds_ab_ket p ++ [i] |}, upper_inds).

(** A [for] loop whose body may raise. *)
Definition for_each {St : Type} (body : St -> nat -> result St)
           (range : list nat) (st : St) : result St :=
  fold_left (fun r i => do s <- r; body s i) range (Returned st).

Definition get_cntrct_inds_ptr_dot (ndim_ab : nat) (sysa : list nat)
  : result ptr_dot_plan :=
  do '(p, _) <- for_each (ptr_dot_body sysa) (seq 0 ndim_ab)
                  ({| inds_a_ket := []; inds_ab_bra := []; inds_ab_ket := [] |},
                   seq ndim_ab ndim_ab);
  Returned p.

(** The label plan of [lazy_ptr_ppt_dot]; the field [inds_ab_ket'] is its
    [inds_ab_ket], primed to tell it from the field of the plan above. *)
Record ptr_ppt_dot_plan : Type := mkPtrPptDotPlan {
  inds_ab_ket' : list nat;
  inds_abc_bra : list nat;
  inds_abc_ket : list nat;
  inds_out : list nat
}.

Definition ptr_ppt_dot_body (sysa sysb : list nat)
           (st : ptr_ppt_dot_plan * list nat) (i : nat)
  : result (ptr_ppt_dot_plan * list nat) :=
  let '(p, upper_inds) := st in
  if mem i sysa then
    do '(up_ind, upper_inds') <- next upper_inds;
    Returned ({| inds_ab_ket' := inds_ab_ket' p ++ [i];
                 inds_abc_bra := inds_abc_bra p ++ [up_ind];
                 inds_abc_ket := inds_abc_ket p ++ [i];
                 inds_out := inds_out p ++ [up_ind] |}, upper_inds')
  else if mem i sysb then
    do '(up_ind, upper_inds') <- next upper_inds;
    Returned ({| inds_ab_ket' := inds_ab_ket' p ++ [up_ind];
                 inds_abc_bra := inds_abc_bra p ++ [up_ind];
                 inds_abc_ket := inds_abc_ket p ++ [i];
                 inds_out := inds_out p ++ [i] |}, upper_inds')
  else
    Returned ({| inds_ab_ket' := inds_ab_ket' p;
                 inds_abc_bra := inds_abc_bra p ++ [i];
                 inds_abc_ket := inds_abc_ket p ++ [i];
                 inds_out := inds_out p |}, upper_inds).

Definition get_cntrct_inds_ptr_ppt_dot (ndim_abc : nat) (sysa sysb : list nat)
  : result ptr_ppt_dot_plan :=
  do '(p, _) <- for_each (ptr_ppt_dot_body sysa sysb) (seq 0 ndim_abc)
                  ({| inds_ab_ket' := []; inds_abc_bra := [];
                      inds_abc_ket := []; inds_out := [] |},
                   seq ndim_abc ndim_abc);
  Returned p.

(** *** Closed forms of the plans

    [rank keep p] counts the kept positions before [p]; the kept position
    [p] receives the fresh label [ndim + rank keep p]. *)

Definition rank (keep : nat -> bool) (p : nat) : nat :=
  length (filter keep (seq 0 p)).

Definition fresh (ndim : nat) (keep : nat -> bool) (p : nat) : nat :=
  ndim + rank keep p.

Definition ptr_dot_labels (ndim : nat) (sysa : list nat) (k : nat) : ptr_dot_plan :=
  let inA := fun i => mem i sysa in
  {| inds_a_ket := filter inA (seq 0 k);
     inds_ab_bra := seq 0 k;
     inds_ab_ket := map (fun p => if inA p then fresh ndim inA p else p) (seq 0 k) |}.

Definition ptr_ppt_dot_labels (ndim : nat) (sysa sysb : list nat) (k : nat)
  : ptr_ppt_dot_plan :=
  let inA := fun i => mem i sysa in
  let inB := fun i => mem i sysb in
  let kept := fun i => inA i || inB i in
  {| inds_ab_ket' := map (fun p => if inA p then p else fresh ndim kept p)
                         (filter kept (seq 0 k));
     inds_abc_bra := map (fun p => if kept p then fresh ndim kept p else p) (seq 0 k);
     inds_abc_ket := seq 0 k;
     inds_out := map (fun p => if inA p then fresh ndim kept p else p)
                     (filter kept (seq 0 k)) |}.

End Planner.

(** ** Generic list facts used throughout *)

Section ListFacts.

Context {A : Type}.

Lemma filter_seq_S (P : nat -> bool) (n : nat) :
  filter P (seq 0 (S n)) = filter P (seq 0 n) ++ (if P n then [n] else []).
Proof.
  rewrite seq_S, filter_app. simpl. destruct (P n); reflexivity.
Qed.

Lemma map_if_split {B : Type} (k : A -> bool) (g h : A -> B) (l : list A)
      (eqb : forall x y : B, {x = y} + {x <> y}) (y : B) :
  count_occ eqb (map (fun p => if k p then g p else h p) l) y =
  count_occ eqb (map g (filter k l)) y
  + count_occ eqb (map h (filter (fun p => negb (k p)) l)) y.
Proof.
  induction l as [|x l IH]; simpl; [reflexivity|].
  destruct (k x); simpl;
    repeat match goal with |- context [eqb ?a ?b] => destruct (eqb a b) end;
    lia.
Qed.

Lemma count_occ_filter_split (k : A -> bool) (l : list A)
      (eqb : forall x y : A, {x = y} + {x <> y}) (y : A) :
  count_occ eqb l y =
  count_occ eqb (filter k l) y
  + count_occ eqb (filter (fun p => negb (k p)) l) y.
Proof.
  rewrite <- (map_id (filter k l)), <- (map_id (filter (fun p => negb (k p)) l)).
  rewrite <- map_if_split with (g := fun x => x) (h := fun x => x).
  rewrite <- (map_id l) at 1.
  f_equal. apply map_ext. intros a. destruct (k a); reflexivity.
Qed.

End ListFacts.

Lemma count_occ_seq (a n l : nat) :
  count_occ Nat.eq_dec (seq a n) l = if (a <=? l) && (l <? a + n) then 1 else 0.
Proof.
  revert a. induction n as [|n IH]; intros a; simpl.
  - destruct (a <=? l) eqn:E1, (l <? a + 0) eqn:E2; simpl; try reflexivity.
    apply Nat.leb_le in E1. apply Nat.ltb_lt in E2. lia.
  - rewrite IH. destruct (Nat.eq_dec a l) as [->|Hne].
    + rewrite Nat.leb_refl.
      replace (S l <=? l) with false by (symmetry; apply Nat.leb_gt; lia).
      replace (l <? l + S n) with true by (symmetry; apply Nat.ltb_lt; lia).
      reflexivity.
    + destruct (a <=? l) eqn:E1, (S a <=? l) eqn:E2,
               (l <? a + S n) eqn:E3, (l <? S a + n) eqn:E4; simpl;
        try reflexivity;
        repeat match goal with
               | H : (_ <=? _) = true |- _ => apply Nat.leb_le in H
               | H : (_ <=? _) = false |- _ => apply Nat.leb_gt in H
               | H : (_ <? _) = true |- _ => apply Nat.ltb_lt in H
               | H : (_ <? _) = false |- _ => apply Nat.ltb_ge in H
               end; lia.
Qed.

(** *** The planners never raise and return the closed forms *)

Module PlannerFacts.
Import Planner.
Open Scope result_scope.

Lemma for_each_snoc {St : Type} (body : St -> nat -> result St)
      (l : list nat) (i : nat) (st : St) :
  for_each body (l ++ [i]) st = (do s <- for_each body l st; body s i).
Proof. unfold for_each. rewrite fold_left_app. reflexivity. Qed.

Lemma rank_S (keep : nat -> bool) (p : nat) :
  rank keep (S p) = rank keep p + (if keep p then 1 else 0).
Proof.
  unfold rank. rewrite filter_seq_S, length_app.
  destruct (keep p); reflexivity.
Qed.

Lemma rank_le (keep : nat -> bool) (p : nat) : rank keep p <= p.
Proof.
  induction p as [|p IH]; [reflexivity|].
  rewrite rank_S. destruct (keep p); lia.
Qed.

Lemma next_seq (a n : nat) :
  0 < n -> next (seq a n) = Returned (a, seq (S a) (n - 1)).
Proof.
  destruct n as [|n]; [lia|]. intros _. simpl. rewrite Nat.sub_0_r. reflexivity.
Qed.

Lemma ptr_dot_loop (n : nat) (sysa : list nat) (k : nat) :
  k <= n ->
  for_each (ptr_dot_body sysa) (seq 0 k)
           ({| inds_a_ket := []; inds_ab_bra := []; inds_ab_ket := [] |}, seq n n)
  = Returned (ptr_dot_labels n sysa k,
              seq (n + rank (fun i => mem i sysa) k)
                  (n - rank (fun i => mem i sysa) k)).
Proof.
  induction k as [|k IH]; intros Hk.
  - unfold rank. simpl. rewrite Nat.add_0_r, Nat.sub_0_r. reflexivity.
  - rewrite seq_S, for_each_snoc, IH by lia. simpl.
    pose proof (rank_le (fun i => mem i sysa) k) as Hr.
    rewrite rank_S. unfold ptr_dot_labels.
    rewrite !filter_seq_S, !seq_S, !map_app. simpl.
    destruct (mem k sysa) eqn:Hm.
    + rewrite next_seq by lia. simpl. unfold fresh.
      do 3 f_equal; lia.
    + simpl. rewrite app_nil_r. do 3 f_equal; lia.
Qed.

Lemma get_cntrct_inds_ptr_dot_returns (n : nat) (sysa : list nat) :
  get_cntrct_inds_ptr_dot n sysa = Returned (ptr_dot_labels n sysa n).
Proof.
  unfold get_cntrct_inds_ptr_dot. rewrite ptr_dot_loop by lia. reflexivity.
Qed.

Lemma ptr_ppt_dot_loop (n : nat) (sysa sysb : list nat) (k : nat) :
  k <= n ->
  for_each (ptr_ppt_dot_body sysa sysb) (seq 0 k)
           ({| inds_ab_ket' := []; inds_abc_bra := [];
               inds_abc_ket := []; inds_out := [] |}, seq n n)
  = Returned (ptr_ppt_dot_labels n sysa sysb k,
              seq (n + rank (fun i => mem i sysa || mem i sysb) k)
                  (n - rank (fun i => mem i sysa || mem i sysb) k)).
Proof.
  induction k as [|k IH]; intros Hk.
  - unfold rank. simpl. rewrite Nat.add_0_r, Nat.sub_0_r. reflexivity.
  - rewrite seq_S, for_each_snoc, IH by lia. simpl.
    pose proof (rank_le (fun i => mem i sysa || mem i sysb) k) as Hr.
    rewrite rank_S. unfold ptr_ppt_dot_labels.
    rewrite !filter_seq_S, !seq_S, !map_app. simpl.
    destruct (mem k sysa) eqn:Ha; [|destruct (mem k sysb) eqn:Hb]; simpl.
    + rewrite next_seq by lia. simpl. rewrite ?Ha. simpl. unfold fresh.
      do 3 f_equal; lia.
    + rewrite next_seq by lia. simpl. rewrite ?Ha, ?Hb. simpl. unfold fresh.
      do 3 f_equal; lia.
    + rewrite ?Ha, ?Hb. simpl. rewrite !app_nil_r. do 3 f_equal; lia.
Qed.

Lemma get_cntrct_inds_ptr_ppt_dot_returns (n : nat) (sysa sysb : list nat) :
  get_cntrct_inds_ptr_ppt_dot n sysa sysb
  = Returned (ptr_ppt_dot_labels n sysa sysb n).
Proof.
  unfold get_cntrct_inds_ptr_ppt_dot. rewrite ptr_ppt_dot_loop by lia. reflexivity.
Qed.

End PlannerFacts.

(** *** Label counts of the plans *)

Module PlanInvariants.
Import Planner PlannerFacts.

(** A subset is valid for [ndim] subsystems when its indices are in range
    and pairwise different; two subsets are disjoint when they share none. *)
Fixpoint nodupb (l : list nat) : bool :=
  match l with
  | [] => true
  | x :: l' => negb (mem x l') && nodupb l'
  end.

Definition valid_subset (ndim : nat) (sys : list nat) : bool :=
  forallb (fun i => i <? ndim) sys && nodupb sys.

Definition disjoint (sysa sysb : list nat) : bool :=
  forallb (fun i => negb (mem i sysb)) sysa.

Abbreviation occ := (count_occ Nat.eq_dec).

Lemma mem_In (i : nat) (sys : list nat) : mem i sys = true <-> In i sys.
Proof.
  unfold mem. rewrite existsb_exists. split.
  - intros (x & Hx & E). apply Nat.eqb_eq in E. now subst.
  - intros H. exists i. split; [assumption|apply Nat.eqb_refl].
Qed.

Lemma nodupb_NoDup (l : list nat) : nodupb l = true -> NoDup l.
Proof.
  induction l as [|x l IH]; simpl; intros H; constructor.
  - apply andb_prop in H as [H _]. intros Hin. apply mem_In in Hin.
    rewrite Hin in H. discriminate.
  - apply IH. now apply andb_prop in H as [_ H].
Qed.

Lemma filter_filter_and {A : Type} (f g : A -> bool) (l : list A) :
  filter f (filter g l) = filter (fun x => g x && f x) l.
Proof.
  induction l as [|x l IH]; simpl; [reflexivity|].
  destruct (g x); simpl; [destruct (f x)|]; rewrite IH; reflexivity.
Qed.

Lemma map_rank_filter (keep : nat -> bool) (n : nat) :
  map (rank keep) (filter keep (seq 0 n)) = seq 0 (rank keep n).
Proof.
  induction n as [|n IH]; [reflexivity|].
  rewrite filter_seq_S, map_app, IH, rank_S.
  destruct (keep n); simpl.
  - rewrite Nat.add_1_r, seq_S. reflexivity.
  - rewrite app_nil_r, Nat.add_0_r. reflexivity.
Qed.

Lemma map_add_seq (n a len : nat) :
  map (fun r => n + r) (seq a len) = seq (n + a) len.
Proof.
  revert a. induction len as [|len IH]; intros a; [reflexivity|].
  simpl. rewrite IH. do 2 f_equal. lia.
Qed.

(** The fresh labels, read in position order, are [ndim, ndim+1, ...]. *)
Lemma map_fresh_filter (ndim : nat) (keep : nat -> bool) (n : nat) :
  map (fresh ndim keep) (filter keep (seq 0 n)) = seq ndim (rank keep n).
Proof.
  unfold fresh.
  rewrite <- (map_map (rank keep) (fun r => ndim + r)), map_rank_filter.
  rewrite map_add_seq, Nat.add_0_r. reflexivity.
Qed.

Lemma In_occ_pos (l : list nat) (x : nat) : In x l -> 0 < occ l x.
Proof. apply count_occ_In. Qed.

Lemma occ_map_id (l : list nat) (x : nat) : occ (map (fun p => p) l) x = occ l x.
Proof. rewrite map_id. reflexivity. Qed.

(** Base labels occur twice, the fresh labels once, in the plan of
    [lazy_ptr_dot]. *)
Lemma ptr_dot_counts (n : nat) (sysa : list nat) (l : nat) :
  let p := ptr_dot_labels n sysa n in
  occ (inds_a_ket p ++ inds_ab_bra p ++ inds_ab_ket p) l
  = (if l <? n then 2 else 0)
    + (if (n <=? l) && (l <? n + rank (fun i => mem i sysa) n) then 1 else 0).
Proof.
  simpl. rewrite !count_occ_app.
  rewrite (map_if_split (fun p => mem p sysa)), occ_map_id, map_fresh_filter.
  pose proof (count_occ_filter_split (fun p => mem p sysa) (seq 0 n) Nat.eq_dec l) as Hs.
  rewrite !count_occ_seq in *. simpl in *.
  destruct (l <? n);
    destruct ((n <=? l) && (l <? n + rank (fun i => mem i sysa) n)); lia.
Qed.

(** In the plan of [lazy_ptr_ppt_dot] a label is either bound twice among
    the inputs and absent from the output, or bound once among the inputs
    and once in the output. *)
Lemma ptr_ppt_dot_counts (n : nat) (sysa sysb : list nat) (l : nat) :
  let q := ptr_ppt_dot_labels n sysa sysb n in
  let inputs := inds_ab_ket' q ++ inds_abc_bra q ++ inds_abc_ket q in
  In l inputs ->
  (occ inputs l = 2 /\ occ (inds_out q) l = 0) \/
  (occ inputs l = 1 /\ occ (inds_out q) l = 1).
Proof.
  simpl. intros Hin. apply In_occ_pos in Hin. revert Hin.
  set (inA := fun i => mem i sysa).
  set (kept := fun i => mem i sysa || mem i sysb).
  set (L := seq 0 n). set (KL := filter kept L).
  rewrite !count_occ_app.
  rewrite (map_if_split inA (fun p => p) (fresh n kept) KL), occ_map_id.
  rewrite (map_if_split kept (fresh n kept) (fun p => p) L), occ_map_id.
  rewrite (map_if_split inA (fresh n kept) (fun p => p) KL), occ_map_id.
  fold KL.
  pose proof (map_if_split inA (fresh n kept) (fresh n kept) KL Nat.eq_dec l) as HF.
  rewrite (map_ext _ (fresh n kept)) in HF
    by (intros a; destruct (inA a); reflexivity).
  assert (HS : occ (map (fresh n kept) KL) l
               = if (n <=? l) && (l <? n + rank kept n) then 1 else 0).
  { unfold KL, L. rewrite map_fresh_filter. apply count_occ_seq. }
  pose proof (count_occ_filter_split inA KL Nat.eq_dec l) as HK.
  pose proof (count_occ_filter_split kept L Nat.eq_dec l) as HL.
  fold KL in HL. unfold L in HL at 1. rewrite count_occ_seq in HL.
  simpl in HL.
  destruct (l <? n) eqn:E1.
  - apply Nat.ltb_lt in E1.
    replace (n <=? l) with false in HS by (symmetry; apply Nat.leb_gt; lia).
    simpl in HS.
    assert (Hl : occ L l = 1).
    { unfold L. rewrite count_occ_seq. simpl.
      replace (l <? n) with true by (symmetry; apply Nat.ltb_lt; lia). reflexivity. }
    replace (l <? n) with true in HL by (symmetry; apply Nat.ltb_lt; lia).
    lia.
  - assert (Hl : occ L l = 0).
    { unfold L. rewrite count_occ_seq. simpl. rewrite E1. reflexivity. }
    destruct ((n <=? l) && (l <? n + rank kept n)); lia.
Qed.

Lemma valid_subset_spec (n : nat) (sys : list nat) :
  valid_subset n sys = true -> NoDup sys /\ (forall i, In i sys -> i < n).
Proof.
  unfold valid_subset. intros H. apply andb_prop in H as [Hr Hd]. split.
  - now apply nodupb_NoDup.
  - intros i Hi. rewrite forallb_forall in Hr. apply Nat.ltb_lt. now apply Hr.
Qed.

Lemma disjoint_spec (sysa sysb : list nat) :
  disjoint sysa sysb = true -> forall i, In i sysa -> ~ In i sysb.
Proof.
  unfold disjoint. rewrite forallb_forall. intros H i Ha Hb.
  specialize (H i Ha). apply mem_In in Hb. rewrite Hb in H. discriminate.
Qed.

(** The kept positions of two valid disjoint subsets are as many as the
    subsets have entries. *)
Lemma kept_positions_length (n : nat) (sysa sysb : list nat) :
  valid_subset n sysa = true -> valid_subset n sysb = true ->
  disjoint sysa sysb = true ->
  length (filter (fun i => mem i sysa || mem i sysb) (seq 0 n))
  = length sysa + length sysb.
Proof.
  intros Ha Hb Hd.
  apply valid_subset_spec in Ha as [NDa Ra], Hb as [NDb Rb].
  pose proof (disjoint_spec _ _ Hd) as Hdis.
  rewrite <- length_app. apply Permutation_length, NoDup_Permutation.
  - apply NoDup_filter, seq_NoDup.
  - apply NoDup_app; assumption.
  - intros x. rewrite filter_In, in_seq, orb_true_iff, !mem_In, in_app_iff.
    split; [tauto|]. intros [H|H]; split; auto; split; try lia.
    + specialize (Ra x H). lia.
    + specialize (Rb x H). lia.
Qed.

Lemma nth_map_seq (f : nat -> nat) (n i : nat) :
  i < n -> nth i (map f (seq 0 n)) 0 = f i.
Proof.
  intros Hi. rewrite (nth_indep _ 0 (f 0)) by (rewrite length_map, length_seq; exact Hi).
  rewrite map_nth, seq_nth by exact Hi. reflexivity.
Qed.

Lemma fresh_range (n : nat) (keep : nat -> bool) (i : nat) :
  i < n -> n <= fresh n keep i < 2 * n.
Proof. intros Hi. unfold fresh. pose proof (rank_le keep i). lia. Qed.

(** C7: in the plan of [get_cntrct_inds_ptr_dot] every label occurs twice
    (summed) or once (free) over the three input sequences; in the plan of
    [get_cntrct_inds_ptr_ppt_dot] every label occurs twice over the inputs,
    or once in an input and once in [inds_out]; [inds_out] has
    [|sysa| + |sysb|] entries, the fresh label at each [sysa] position and
    the index itself at each [sysb] position; the fresh labels lie in
    [ndim .. 2*ndim - 1], above every base index. *)
Theorem plan_label_invariants (ndim : nat) (sysa sysb : list nat) :
  valid_subset ndim sysa = true ->
  valid_subset ndim sysb = true ->
  disjoint sysa sysb = true ->
  (exists p,
      get_cntrct_inds_ptr_dot ndim sysa = Returned p /\
      (forall l, In l (inds_a_ket p ++ inds_ab_bra p ++ inds_ab_ket p) ->
                 occ (inds_a_ket p ++ inds_ab_bra p ++ inds_ab_ket p) l = 2 \/
                 occ (inds_a_ket p ++ inds_ab_bra p ++ inds_ab_ket p) l = 1) /\
      (forall i, In i sysa ->
                 ndim <= nth i (inds_ab_ket p) 0 < 2 * ndim)) /\
  (exists q,
      get_cntrct_inds_ptr_ppt_dot ndim sysa sysb = Returned q /\
      (forall l, In l (inds_ab_ket' q ++ inds_abc_bra q ++ inds_abc_ket q) ->
                 (occ (inds_ab_ket' q ++ inds_abc_bra q ++ inds_abc_ket q) l = 2 /\
                  occ (inds_out q) l = 0) \/
                 (occ (inds_ab_ket' q ++ inds_abc_bra q ++ inds_abc_ket q) l = 1 /\
                  occ (inds_out q) l = 1)) /\
      length (inds_out q) = length sysa + length sysb /\
      inds_out q
      = map (fun i => if mem i sysa then nth i (inds_abc_bra q) 0 else i)
            (filter (fun i => mem i sysa || mem i sysb) (seq 0 ndim)) /\
      (forall i, In i sysa \/ In i sysb ->
                 ndim <= nth i (inds_abc_bra q) 0 < 2 * ndim)).
Proof.
  intros Ha Hb Hd.
  destruct (valid_subset_spec _ _ Ha) as [_ Ra].
  destruct (valid_subset_spec _ _ Hb) as [_ Rb].
  split.
  - exists (ptr_dot_labels ndim sysa ndim). split; [|split].
    + apply get_cntrct_inds_ptr_dot_returns.
    + intros l Hin. apply In_occ_pos in Hin. revert Hin.
      rewrite (ptr_dot_counts ndim sysa l).
      destruct (l <? ndim) eqn:E.
      * apply Nat.ltb_lt in E.
        replace (ndim <=? l) with false by (symmetry; apply Nat.leb_gt; lia).
        simpl. lia.
      * destruct ((ndim <=? l) && (l <? ndim + rank (fun i => mem i sysa) ndim));
          simpl; lia.
    + intros i Hi. simpl. rewrite nth_map_seq by auto.
      apply mem_In in Hi as Hm. rewrite Hm. apply fresh_range; auto.
  - exists (ptr_ppt_dot_labels ndim sysa sysb ndim). split; [|split; [|split; [|split]]].
    + apply get_cntrct_inds_ptr_ppt_dot_returns.
    + intros l. apply ptr_ppt_dot_counts.
    + simpl. rewrite length_map. now apply kept_positions_length.
    + simpl. apply map_ext_in. intros i Hi.
      apply filter_In in Hi as [Hi Hk]. apply in_seq in Hi.
      rewrite nth_map_seq by lia. rewrite Hk. reflexivity.
    + intros i Hi. simpl.
      assert (Hlt : i < ndim) by (destruct Hi; auto).
      rewrite nth_map_seq by exact Hlt.
      replace (mem i sysa || mem i sysb) with true.
      * now apply fresh_range.
      * symmetry. apply orb_true_iff. rewrite !mem_In. exact Hi.
Qed.

(** The plans of the three-subsystem case [ndim = 3], [sysa = (0,)],
    [sysb = (2,)]. *)
Lemma plan_label_invariants_witness :
  (exists p,
      get_cntrct_inds_ptr_dot 3 [0] = Returned p /\
      (forall l, In l (inds_a_ket p ++ inds_ab_bra p ++ inds_ab_ket p) ->
                 occ (inds_a_ket p ++ inds_ab_bra p ++ inds_ab_ket p) l = 2 \/
                 occ (inds_a_ket p ++ inds_ab_bra p ++ inds_ab_ket p) l = 1) /\
      (forall i, In i [0] -> 3 <= nth i (inds_ab_ket p) 0 < 2 * 3)) /\
  (exists q,
      get_cntrct_inds_ptr_ppt_dot 3 [0] [2] = Returned q /\
      (forall l, In l (inds_ab_ket' q ++ inds_abc_bra q ++ inds_abc_ket q) ->
                 (occ (inds_ab_ket' q ++ inds_abc_bra q ++ inds_abc_ket q) l = 2 /\
                  occ (inds_out q) l = 0) \/
                 (occ (inds_ab_ket' q ++ inds_abc_bra q ++ inds_abc_ket q) l = 1 /\
                  occ (inds_out q) l = 1)) /\
      length (inds_out q) = length [0] + length [2] /\
      inds_out q
      = map (fun i => if mem i [0] then nth i (inds_abc_bra q) 0 else i)
            (filter (fun i => mem i [0] || mem i [2]) (seq 0 3)) /\
      (forall i, In i [0] \/ In i [2] ->
                 3 <= nth i (inds_abc_bra q) 0 < 2 * 3)).
Proof.
  apply (plan_label_invariants 3 [0] [2]); reflexivity.
Defined.

(** *** The plans only depend on which positions are members *)

Lemma rank_ext (keep keep' : nat -> bool) (p : nat) :
  (forall q, q < p -> keep q = keep' q) -> rank keep p = rank keep' p.
Proof.
  intros H. unfold rank. f_equal. apply filter_ext_in.
  intros q Hq. apply in_seq in Hq. apply H. lia.
Qed.

Lemma ptr_dot_labels_ext (n : nat) (s s' : list nat) :
  (forall p, p < n -> mem p s = mem p s') ->
  ptr_dot_labels n s n = ptr_dot_labels n s' n.
Proof.
  intros H. unfold ptr_dot_labels. f_equal.
  - apply filter_ext_in. intros p Hp. apply in_seq in Hp. apply H. lia.
  - apply map_ext_in. intros p Hp. apply in_seq in Hp.
    rewrite (H p) by lia. unfold fresh.
    rewrite (rank_ext (fun i => mem i s) (fun i => mem i s')); [reflexivity|].
    intros q Hq. apply H. lia.
Qed.

Lemma ptr_ppt_dot_labels_ext (n : nat) (a a' b b' : list nat) :
  (forall p, p < n -> mem p a = mem p a') ->
  (forall p, p < n -> mem p a || mem p b = mem p a' || mem p b') ->
  ptr_ppt_dot_labels n a b n = ptr_ppt_dot_labels n a' b' n.
Proof.
  intros Ha Hk. unfold ptr_ppt_dot_labels.
  assert (Hf : filter (fun i => mem i a || mem i b) (seq 0 n)
               = filter (fun i => mem i a' || mem i b') (seq 0 n)).
  { apply filter_ext_in. intros p Hp. apply in_seq in Hp. apply Hk. lia. }
  assert (Hr : forall p, p < n ->
               fresh n (fun i => mem i a || mem i b) p
               = fresh n (fun i => mem i a' || mem i b') p).
  { intros p Hp. unfold fresh. f_equal. apply rank_ext.
    intros q Hq. apply Hk. lia. }
  rewrite Hf. f_equal.
  - apply map_ext_in. intros p Hp. apply filter_In in Hp as [Hp _].
    apply in_seq in Hp. rewrite (Ha p), (Hr p) by lia. reflexivity.
  - apply map_ext_in. intros p Hp. apply in_seq in Hp.
    rewrite (Hk p), (Hr p) by lia. reflexivity.
  - apply map_ext_in. intros p Hp. apply filter_In in Hp as [Hp _].
    apply in_seq in Hp. rewrite (Ha p), (Hr p) by lia. reflexivity.
Qed.

Lemma mem_filter (P : nat -> bool) (p : nat) (s : list nat) :
  mem p (filter P s) = P p && mem p s.
Proof.
  induction s as [|x s IH]; simpl; [now rewrite andb_false_r|].
  destruct (P x) eqn:Px; simpl; rewrite IH.
  - destruct (Nat.eqb_spec p x) as [->|]; simpl.
    + rewrite Px. reflexivity.
    + reflexivity.
  - destruct (Nat.eqb_spec p x) as [->|]; simpl.
    + rewrite Px. reflexivity.
    + reflexivity.
Qed.

End PlanInvariants.

Module PlannerExamples.
Import Planner.

Example ptr_dot_plan_3 :
  get_cntrct_inds_ptr_dot 3 [0; 2]
  = Returned {| inds_a_ket := [0; 2]; inds_ab_bra := [0; 1; 2];
                inds_ab_ket := [3; 1; 4] |}.
Proof. reflexivity. Qed.

Example ptr_ppt_dot_plan_3 :
  get_cntrct_inds_ptr_ppt_dot 3 [0] [2]
  = Returned {| inds_ab_ket' := [0; 4]; inds_abc_bra := [3; 1; 4];
                inds_abc_ket := [0; 1; 2]; inds_out := [3; 2] |}.
Proof. reflexivity. Qed.

End PlannerExamples.

(** ** [MPOSpinHam.add_term] *)

Module TensorGenFacts.
Import TensorGen.

Section AddTerm.

Variables (scalar operator spin : Type).

(** C10: with three or more operators [add_term] raises
    [NotImplementedError] and leaves both term lists as they were; with one
    operator the term [(factor, operators)] is appended to
    [one_site_terms], with two to [two_site_terms], and nothing is raised. *)
Theorem add_term_spec (self : MPOSpinHam scalar operator spin)
        (factor : scalar) (operators : list operator) :
  (3 <= length operators ->
   add_term self factor operators = (self, Raised NotImplementedError)) /\
  (length operators = 1 ->
   add_term self factor operators
   = ({| S := S self;
         one_site_terms := one_site_terms self ++ [(factor, operators)];
         two_site_terms := two_site_terms self |}, Returned tt)) /\
  (length operators = 2 ->
   add_term self factor operators
   = ({| S := S self;
         one_site_terms := one_site_terms self;
         two_site_terms := two_site_terms self ++ [(factor, operators)] |},
      Returned tt)).
Proof.
  unfold add_term. repeat split; intros H.
  - destruct (length operators =? 1) eqn:E1;
      [apply Nat.eqb_eq in E1; lia|].
    destruct (length operators =? 2) eqn:E2;
      [apply Nat.eqb_eq in E2; lia|].
    reflexivity.
  - rewrite H. reflexivity.
  - rewrite H. reflexivity.
Qed.

End AddTerm.

(** The docstring's builder after [add_term(-3, 'Z')], then a three-body
    term, a one-body term and a two-body term on it; operators are named by
    numbers here (0 for 'Z', 1 for '+', 2 for '-'). *)
Lemma add_term_spec_witness :
  let b := {| S := tt; one_site_terms := [((-3)%Z, [0])]; two_site_terms := [] |} in
  add_term b 5%Z [0; 1; 2] = (b, Raised NotImplementedError) /\
  add_term b 5%Z [0]
  = ({| S := tt; one_site_terms := [((-3)%Z, [0]); (5%Z, [0])];
        two_site_terms := [] |}, Returned tt) /\
  add_term b 5%Z [1; 2]
  = ({| S := tt; one_site_terms := [((-3)%Z, [0])];
        two_site_terms := [(5%Z, [1; 2])] |}, Returned tt).
Proof.
  intros b.
  split; [|split].
  - apply (proj1 (add_term_spec b 5%Z [0; 1; 2])). simpl. lia.
  - apply (proj1 (proj2 (add_term_spec b 5%Z [0]))). reflexivity.
  - apply (proj2 (proj2 (add_term_spec b 5%Z [1; 2]))). reflexivity.
Defined.

End TensorGenFacts.

(** ** The Lanczos engine *)

Module Lanczos.

(** [a[k] = x] on an array; the loops below only write inside the bounds
    (outside them numpy raises [IndexError], which is not modelled). *)
Fixpoint set_nth {X : Type} (k : nat) (x : X) (l : list X) : list X :=
  match l, k with
  | [], _ => []
  | _ :: t, 0 => x :: t
  | h :: t, S k' => h :: set_nth k' x t
  end.

(** Elementwise binary operation on two arrays of one length. *)
Definition zip_with {X Y Z : Type} (f : X -> Y -> Z) (a : list X) (b : list Y)
  : list Z :=
  map (fun xy => f (fst xy) (snd xy)) (combine a b).

Lemma set_nth_length {X : Type} (k : nat) (x : X) (l : list X) :
  length (set_nth k x l) = length l.
Proof.
  revert k. induction l as [|h t IH]; intros [|k]; simpl; auto.
Qed.

Lemma nth_set_nth_eq {X : Type} (k : nat) (x d : X) (l : list X) :
  k < length l -> nth k (set_nth k x l) d = x.
Proof.
  revert k. induction l as [|h t IH]; intros [|k] H; simpl in *; try lia; auto.
  apply IH. lia.
Qed.

Lemma nth_set_nth_neq {X : Type} (j k : nat) (x d : X) (l : list X) :
  j <> k -> nth j (set_nth k x l) d = nth j l d.
Proof.
  revert j k. induction l as [|h t IH]; intros [|j] [|k] H; simpl; auto; try lia.
Qed.

(** Writing the first unwritten slot of an array that is filled from the
    left. *)
Lemma set_nth_fill {X : Type} (pre : list X) (x y : X) (post : list X) :
  set_nth (length pre) x (pre ++ y :: post) = (pre ++ [x]) ++ post.
Proof.
  induction pre as [|h t IH]; simpl; [reflexivity|]. now rewrite IH.
Qed.

Section Engine.

(** [F] stands for numpy's float64 and [C] for complex128; the scalar
    operations are those of the machine, no law is assumed of them.
    [Fsqrt] is [math.sqrt], which the code applies to the real part of
    [<w, w>], a sum of squares, so its error for a negative argument does
    not arise. *)
Variables (F C : Type).
Variables (F0 : F) (Fadd Fmul Fdiv : F -> F -> F) (Fsqrt Fabs : F -> F).
Variable (F_of_nat : nat -> F).
Variables (C0 Cj : C) (Cadd Csub Cmul Cdiv : C -> C -> C).
Variables (Cconj : C -> C) (Creal : C -> F) (C_of_F : F -> C).

(** What [np.empty] leaves in a fresh array. *)
Variables (uninit_F : F) (uninit_C : C).

(** numpy's global random generator and [np.random.randn(d)]. *)
Variable Rng : Type.
Variable randn : nat -> Rng -> list F * Rng.

(** [scipy.linalg.eig_banded(Tk_banded, lower=True)]: eigenvalues in
    ascending order and the matrix [ev] of eigenvectors, given by rows, so
    that [ev[0, i]] is the first component of the [i]-th eigenvector. *)
Variable eig_banded : list (list F) -> list F * list (list F).

(** The operator [A]: [A.shape[0]] and [A.dot]. *)
Record operator : Type := mkOperator {
  shape0 : nat;
  dot : list C -> list C
}.

(** The state the engine runs in: the random generator and the number of
    applications of an operator made so far. *)
Record world : Type := mkWorld {
  rng : Rng;
  matvecs : nat
}.

Definition St (X : Type) : Type := world -> X * world.

Definition ret {X : Type} (x : X) : St X := fun w => (x, w).

Definition bindS {X Y : Type} (c : St X) (k : X -> St Y) : St Y :=
  fun w => let (x, w') := c w in k x w'.

Definition draw (d : nat) : St (list F) :=
  fun w => let (xs, g) := randn d (rng w) in
           (xs, {| rng := g; matvecs := matvecs w |}).

Definition apply (A : operator) (v : list C) : St (list C) :=
  fun w => (dot A v, {| rng := rng w; matvecs := S (matvecs w) |}).

(** [np.vdot(a, b)]: conjugate-linear in its first argument. *)
Definition vdot (a b : list C) : C :=
  fold_left Cadd (zip_with (fun x y => Cmul (Cconj x) y) a b) C0.

(** A float64 scalar meeting a complex array is promoted to complex. *)
Definition scale (r : F) (v : list C) : list C := map (Cmul (C_of_F r)) v.
Definition divide (v : list C) (r : F) : list C := map (fun c => Cdiv c (C_of_F r)) v.
Definition vsub (a b : list C) : list C := zip_with Csub a b.

(** The arrays of [construct_lanczos_tridiag]; [vk] is kept by columns. *)
Record arrays : Type := mkArrays {
  alpha : list F;
  beta : list F;
  vk : list (list C)
}.

(** The start vector as stored in [vk[:, 1]] before it is normalised. *)
Definition start_vector (d : nat) (v0 : option (list C)) : St (list C) :=
  match v0 with
  | None =>
      bindS (draw d) (fun re =>
      bindS (draw d) (fun im =>
      ret (zip_with Cadd (map C_of_F re) (map (fun y => Cmul Cj (C_of_F y)) im))))
  | Some v => ret v
  end.

Definition normalise (v : list C) : list C :=
  divide v (Fsqrt (Creal (vdot v v))).

(** The body of the loop [for k in range(1, M + 1)]. *)
Definition lanczos_body (A : operator) (a : arrays) (k : nat) : St arrays :=
  bindS (apply A (nth k (vk a) [])) (fun Avk =>
  let wk := vsub Avk (scale (nth k (beta a) F0) (nth (k - 1) (vk a) [])) in
  let alpha1 := set_nth k (Creal (vdot wk (nth k (vk a) []))) (alpha a) in
  let wk := vsub wk (scale (nth k alpha1 F0) (nth k (vk a) [])) in
  let beta1 := set_nth (k + 1) (Fsqrt (Creal (vdot wk wk))) (beta a) in
  let vk1 := set_nth (k + 1) (divide wk (nth (k + 1) beta1 F0)) (vk a) in
  ret {| alpha := alpha1; beta := beta1; vk := vk1 |}).

Definition for_loop {X : Type} (body : X -> nat -> St X) (range : list nat)
           (x : X) : St X :=
  fold_left (fun c k => bindS c (fun x => body x k)) range (ret x).

Definition construct_lanczos_tridiag (A : operator) (v0 : option (list C))
           (M : nat) : St (list F * list F) :=
  let d := shape0 A in
  let alpha0 := repeat F0 (M + 1) in
  let beta0 := repeat F0 (M + 2) in
  let vk0 := repeat (repeat uninit_C d) (M + 2) in
  let vk0 := set_nth 0 (repeat C0 d) vk0 in
  bindS (start_vector d v0) (fun v =>
  let vk0 := set_nth 1 v vk0 in
  let vk0 := set_nth 1 (normalise (nth 1 vk0 [])) vk0 in
  bindS (for_loop (lanczos_body A) (seq 1 M)
                  {| alpha := alpha0; beta := beta0; vk := vk0 |}) (fun a =>
  ret (tl (alpha a), removelast (skipn 2 (beta a))))).

(** [lanczos_tridiag_eig]: the band matrix has [alpha] in row 0 and [beta]
    in row 1, whose last entry is never written. *)
Definition lanczos_tridiag_eig (alpha beta : list F) : list F * list (list F) :=
  let n := length alpha in
  let row1 := beta ++ skipn (length beta) (repeat uninit_F n) in
  eig_banded [alpha; row1].

(** [approx_spectral_function]: [sum] consumes the generator [gen_vals]
    one value at a time, so the running total is threaded through both
    loops. [A.shape[0] / R] raises for [R = 0]. *)
Definition gen_vals_restart (A : operator) (fn : F -> F) (M : nat)
           (v0 : option (list C)) (acc : F) (_ : nat) : St F :=
  bindS (construct_lanczos_tridiag A v0 M) (fun ab =>
  let (el, ev) := lanczos_tridiag_eig (fst ab) (snd ab) in
  ret (fold_left
         (fun s i => Fadd s (Fmul (fn (nth i el F0))
                                  (Fmul (nth i (nth 0 ev []) F0)
                                        (nth i (nth 0 ev []) F0))))
         (seq 0 M) acc)).

Definition approx_spectral_function (A : operator) (fn : F -> F) (M R : nat)
           (v0 : option (list C)) : St (result F) :=
  bindS (for_loop (gen_vals_restart A fn M v0) (seq 0 R) F0) (fun total =>
  if R =? 0 then ret (Raised ZeroDivisionError)
  else ret (Returned (Fmul total (Fdiv (F_of_nat (shape0 A)) (F_of_nat R))))).

(** *** The recurrence as the specification states it

    Three consecutive Krylov vectors are kept: [v_prev] is [v_{k-1}],
    [v_cur] is [v_k], and the step produces [v_{k+1}], together with
    [beta_k]. *)

Record krylov : Type := mkKrylov {
  v_prev : list C;
  v_cur : list C;
  beta_cur : F
}.

(** One step: [alpha_k], [beta_{k+1}] and the window moved by one. *)
Definition krylov_step (A : operator) (s : krylov) : F * F * krylov :=
  let w := vsub (dot A (v_cur s)) (scale (beta_cur s) (v_prev s)) in
  let a := Creal (vdot w (v_cur s)) in
  let w := vsub w (scale a (v_cur s)) in
  let b := Fsqrt (Creal (vdot w w)) in
  (a, b, {| v_prev := v_cur s; v_cur := divide w b; beta_cur := b |}).

(** [alpha_1 .. alpha_M] and [beta_2 .. beta_{M+1}] of [M] steps. *)
Fixpoint krylov_run (A : operator) (M : nat) (s : krylov) : list F * list F :=
  match M with
  | 0 => ([], [])
  | S m =>
      let '(a, b, s') := krylov_step A s in
      let (al, be) := krylov_run A m s' in
      (a :: al, b :: be)
  end.

Fixpoint krylov_after (A : operator) (m : nat) (s : krylov) : krylov :=
  match m with
  | 0 => s
  | S m' => krylov_after A m' (snd (krylov_step A s))
  end.

(** [v_0 = 0], [beta_1 = 0] and [v_1] the normalised start vector. *)
Definition krylov_init (A : operator) (v1 : list C) : krylov :=
  {| v_prev := repeat C0 (shape0 A); v_cur := v1; beta_cur := F0 |}.

(** [alpha] of length [M] and [beta] of length [M - 1]: the last
    off-diagonal entry [beta_{M+1}] is not part of the matrix. *)
Definition tridiagonal (A : operator) (v1 : list C) (M : nat) : list F * list F :=
  let (al, be) := krylov_run A M (krylov_init A v1) in
  (al, removelast be).

(** The eigen-decompositions of [R] successive restarts. *)
Fixpoint restarts (A : operator) (M : nat) (v0 : option (list C)) (R : nat)
  : St (list (list F * list (list F))) :=
  match R with
  | 0 => ret []
  | S r =>
      bindS (construct_lanczos_tridiag A v0 M) (fun ab =>
      bindS (restarts A M v0 r) (fun rest =>
      ret (lanczos_tridiag_eig (fst ab) (snd ab) :: rest)))
  end.

(** [fn(eigenvalue_i) * |first component of eigenvector_i|^2],
    for the [M] eigenpairs of one restart. *)
Definition quadrature_terms (fn : F -> F) (M : nat)
           (e : list F * list (list F)) : list F :=
  map (fun i => Fmul (fn (nth i (fst e) F0))
                     (Fmul (Fabs (nth i (nth 0 (snd e) []) F0))
                           (Fabs (nth i (nth 0 (snd e) []) F0))))
      (seq 0 M).

Definition spectral_estimate (A : operator) (fn : F -> F) (M R : nat)
           (es : list (list F * list (list F))) : F :=
  Fmul (fold_left Fadd (flat_map (quadrature_terms fn M) es) F0)
       (Fdiv (F_of_nat (shape0 A)) (F_of_nat R)).

(** *** Running the loops *)

Lemma for_loop_snoc {X : Type} (body : X -> nat -> St X) (l : list nat)
      (k : nat) (x : X) :
  for_loop body (l ++ [k]) x = bindS (for_loop body l x) (fun x => body x k).
Proof. unfold for_loop. rewrite fold_left_app. reflexivity. Qed.

Lemma fold_bind_run {X : Type} (body : X -> nat -> St X) (l : list nat)
      (c : St X) (w : world) :
  fold_left (fun c k => bindS c (fun x => body x k)) l c w
  = let (x, w') := c w in
    fold_left (fun c k => bindS c (fun x => body x k)) l (ret x) w'.
Proof.
  revert c w. induction l as [|k l IH]; intros c w; simpl.
  - unfold ret. destruct (c w); reflexivity.
  - rewrite IH. unfold bindS at 1. destruct (c w) as [x w'].
    rewrite (IH (bindS (ret x) _)). reflexivity.
Qed.

Lemma for_loop_cons {X : Type} (body : X -> nat -> St X) (k : nat)
      (l : list nat) (x : X) (w : world) :
  for_loop body (k :: l) x w
  = let (x', w') := body x k w in for_loop body l x' w'.
Proof.
  unfold for_loop. simpl. rewrite fold_bind_run. reflexivity.
Qed.

Lemma krylov_after_S (A : operator) (m : nat) (s : krylov) :
  krylov_after A (S m) s = snd (krylov_step A (krylov_after A m s)).
Proof.
  revert s. induction m as [|m IH]; intros s; [reflexivity|].
  change (krylov_after A (S (S m)) s)
    with (krylov_after A (S m) (snd (krylov_step A s))).
  rewrite IH. reflexivity.
Qed.

Lemma krylov_run_S (A : operator) (m : nat) (s : krylov) :
  krylov_run A (S m) s
  = (fst (krylov_run A m s) ++ [fst (fst (krylov_step A (krylov_after A m s)))],
     snd (krylov_run A m s) ++ [snd (fst (krylov_step A (krylov_after A m s)))]).
Proof.
  revert s. induction m as [|m IH]; intros s.
  - simpl. destruct (krylov_step A s) as [[a b] s']. reflexivity.
  - change (krylov_run A (S (S m)) s)
      with (let '(a, b, s') := krylov_step A s in
            let (al, be) := krylov_run A (S m) s' in (a :: al, b :: be)).
    change (krylov_run A (S m) s)
      with (let '(a, b, s') := krylov_step A s in
            let (al, be) := krylov_run A m s' in (a :: al, b :: be)).
    change (krylov_after A (S m) s)
      with (krylov_after A m (snd (krylov_step A s))).
    destruct (krylov_step A s) as [[a b] s']. simpl snd.
    rewrite IH. destruct (krylov_run A m s') as [al be]. reflexivity.
Qed.

Lemma krylov_run_length (A : operator) (m : nat) (s : krylov) :
  length (fst (krylov_run A m s)) = m /\ length (snd (krylov_run A m s)) = m.
Proof.
  revert s. induction m as [|m IH]; intros s; [split; reflexivity|].
  change (krylov_run A (S m) s)
    with (let '(a, b, s') := krylov_step A s in
          let (al, be) := krylov_run A m s' in (a :: al, b :: be)).
  destruct (krylov_step A s) as [[a b] s'].
  specialize (IH s'). destruct (krylov_run A m s') as [al be].
  simpl in *. lia.
Qed.

(** What the arrays hold after the passes [k = 1 .. m] of the loop. *)
Definition loop_inv (A : operator) (M : nat) (s0 : krylov) (m : nat)
           (a : arrays) : Prop :=
  alpha a = F0 :: fst (krylov_run A m s0) ++ repeat F0 (M - m) /\
  beta a = F0 :: F0 :: snd (krylov_run A m s0) ++ repeat F0 (M - m) /\
  length (vk a) = M + 2 /\
  nth m (vk a) [] = v_prev (krylov_after A m s0) /\
  nth (m + 1) (vk a) [] = v_cur (krylov_after A m s0) /\
  nth (m + 1) (beta a) F0 = beta_cur (krylov_after A m s0).

(** A pass of the loop whose reads see the window [s] writes the outputs
    of the recurrence step on [s]. *)
Lemma lanczos_body_window (A : operator) (a : arrays) (k : nat) (w : world)
      (s : krylov) :
  nth k (vk a) [] = v_cur s ->
  nth (k - 1) (vk a) [] = v_prev s ->
  nth k (beta a) F0 = beta_cur s ->
  k < length (alpha a) ->
  k + 1 < length (beta a) ->
  lanczos_body A a k w
  = ({| alpha := set_nth k (fst (fst (krylov_step A s))) (alpha a);
        beta := set_nth (k + 1) (snd (fst (krylov_step A s))) (beta a);
        vk := set_nth (k + 1) (v_cur (snd (krylov_step A s))) (vk a) |},
     {| rng := rng w; matvecs := S (matvecs w) |}).
Proof.
  intros Hc Hp Hb La Lb.
  unfold lanczos_body, bindS, apply, ret. cbv zeta.
  rewrite Hc, Hp, Hb.
  rewrite !nth_set_nth_eq by assumption.
  reflexivity.
Qed.

Lemma lanczos_body_step (A : operator) (M : nat) (s0 : krylov) (m : nat)
      (a : arrays) (w : world) :
  m < M -> loop_inv A M s0 m a ->
  exists a',
    lanczos_body A a (m + 1) w
    = (a', {| rng := rng w; matvecs := S (matvecs w) |}) /\
    loop_inv A M s0 (S m) a'.
Proof.
  intros Hm (Ha & Hb & Hl & Hp & Hc & Hbc).
  destruct (krylov_run_length A m s0) as [La Lb].
  assert (Lal : length (alpha a) = M + 1).
  { rewrite Ha. simpl. rewrite length_app, repeat_length. lia. }
  assert (Lbe : length (beta a) = M + 2).
  { rewrite Hb. simpl. rewrite length_app, repeat_length. lia. }
  eexists. split.
  - apply (lanczos_body_window A a w (krylov_after A m s0)); try assumption; try lia.
    replace (m + 1 - 1) with m by lia. exact Hp.
  - unfold loop_inv. rewrite krylov_run_S, krylov_after_S.
    set (st := krylov_step A (krylov_after A m s0)).
    cbn [alpha beta vk fst snd].
    split; [|split; [|split; [|split; [|split]]]].
    + rewrite Ha. replace (M - m) with (S (M - S m)) by lia.
      replace (m + 1) with (S m) by lia. cbn [set_nth]. f_equal.
      rewrite <- La at 1. apply set_nth_fill.
    + rewrite Hb. replace (M - m) with (S (M - S m)) by lia.
      replace (m + 1 + 1) with (S (S m)) by lia. cbn [set_nth]. do 2 f_equal.
      rewrite <- Lb at 1. apply set_nth_fill.
    + rewrite set_nth_length. exact Hl.
    + rewrite nth_set_nth_neq by lia. replace (S m) with (m + 1) by lia.
      rewrite Hc. unfold st, krylov_step. reflexivity.
    + replace (S m + 1) with (m + 1 + 1) by lia.
      apply nth_set_nth_eq. lia.
    + replace (S m + 1) with (m + 1 + 1) by lia.
      rewrite nth_set_nth_eq by lia. unfold st, krylov_step. reflexivity.
Qed.

Lemma lanczos_loop (A : operator) (M : nat) (s0 : krylov) (a0 : arrays)
      (w : world) (m : nat) :
  m <= M -> loop_inv A M s0 0 a0 ->
  exists a,
    for_loop (lanczos_body A) (seq 1 m) a0 w
    = (a, {| rng := rng w; matvecs := matvecs w + m |}) /\
    loop_inv A M s0 m a.
Proof.
  intros Hm H0. induction m as [|m IH].
  - exists a0. split; [|exact H0].
    unfold for_loop, ret. simpl. rewrite Nat.add_0_r. destruct w; reflexivity.
  - destruct IH as (a & Hrun & Hinv); [lia|].
    destruct (lanczos_body_step {| rng := rng w; matvecs := matvecs w + m |}
                Hm Hinv) as (a' & Hbody & Hinv').
    exists a'. split; [|exact Hinv'].
    rewrite seq_S, for_loop_snoc. unfold bindS. rewrite Hrun.
    replace (1 + m) with (m + 1) by lia. rewrite Hbody. simpl.
    do 2 f_equal. lia.
Qed.

Lemma start_vector_matvecs (d : nat) (v0 : option (list C)) (w : world) :
  matvecs (snd (start_vector d v0 w)) = matvecs w.
Proof.
  destruct v0 as [v|]; [reflexivity|].
  unfold start_vector, bindS, draw, ret.
  destruct (randn d (rng w)) as [re g1]. simpl.
  destruct (randn d g1) as [im g2]. reflexivity.
Qed.

(** The whole routine is the recurrence run from the normalised start
    vector; it applies [A] exactly [M] times. *)
Lemma construct_lanczos_tridiag_run (A : operator) (v0 : option (list C))
      (M : nat) (w : world) :
  construct_lanczos_tridiag A v0 M w
  = (tridiagonal A (normalise (fst (start_vector (shape0 A) v0 w))) M,
     {| rng := rng (snd (start_vector (shape0 A) v0 w));
        matvecs := matvecs w + M |}).
Proof.
  unfold construct_lanczos_tridiag, bindS.
  pose proof (start_vector_matvecs (shape0 A) v0 w) as Hmv.
  destruct (start_vector (shape0 A) v0 w) as [v w1]. simpl in Hmv. simpl fst. simpl snd.
  set (vk0 := set_nth 1 _ (set_nth 1 v _)).
  set (a0 := {| alpha := repeat F0 (M + 1); beta := repeat F0 (M + 2); vk := vk0 |}).
  assert (H0 : loop_inv A M (krylov_init A (normalise v)) 0 a0).
  { unfold loop_inv, a0, vk0. cbn [alpha beta vk krylov_run krylov_after fst snd
                                   krylov_init v_prev v_cur beta_cur].
    rewrite Nat.sub_0_r.
    assert (L2 : 1 < length (set_nth 0 (repeat C0 (shape0 A))
                               (repeat (repeat uninit_C (shape0 A)) (M + 2))))
      by (rewrite set_nth_length, repeat_length; lia).
    split; [|split; [|split; [|split; [|split]]]].
    - replace (M + 1) with (S M) by lia. reflexivity.
    - replace (M + 2) with (S (S M)) by lia. reflexivity.
    - rewrite !set_nth_length, repeat_length. reflexivity.
    - rewrite !nth_set_nth_neq by lia. apply nth_set_nth_eq.
      rewrite repeat_length. lia.
    - change (0 + 1) with 1.
      rewrite nth_set_nth_eq by (rewrite set_nth_length; exact L2).
      rewrite nth_set_nth_eq by exact L2. reflexivity.
    - apply nth_repeat. }
  destruct (lanczos_loop w1 (le_n M) H0) as (a & Hrun & Hinv).
  rewrite Hrun. unfold ret.
  destruct Hinv as (Ha & Hb & _).
  rewrite Ha, Hb, Nat.sub_diag. simpl repeat. rewrite !app_nil_r.
  unfold tridiagonal.
  destruct (krylov_run A M (krylov_init A (normalise v))) as [al be].
  simpl. rewrite Hmv. reflexivity.
Qed.

Lemma tridiagonal_length (A : operator) (v1 : list C) (M : nat) :
  length (fst (tridiagonal A v1 M)) = M /\
  length (snd (tridiagonal A v1 M)) = M - 1.
Proof.
  unfold tridiagonal.
  destruct (krylov_run_length A M (krylov_init A v1)) as [La Lb].
  destruct (krylov_run A M (krylov_init A v1)) as [al be]. simpl in *.
  split; [exact La|].
  destruct be as [|b be] using rev_ind.
  - simpl in *. lia.
  - rewrite removelast_last. rewrite length_app in Lb. simpl in Lb. lia.
Qed.

(** C5: [construct_lanczos_tridiag] returns [alpha] of length [M] and
    [beta] of length [M - 1] computed by the recurrence of [krylov_step]
    ([w = A v_k - beta_k v_{k-1}], [alpha_k = Re <w, v_k>],
    [w -= alpha_k v_k], [beta_{k+1} = sqrt (Re <w, w>)],
    [v_{k+1} = w / beta_{k+1}]) started from [v_0 = 0], [beta_1 = 0] and the
    normalised start vector; without [v0] the start vector has its real and
    imaginary parts from two successive draws of [randn(d)]. *)
Theorem construct_lanczos_tridiag_recurrence (A : operator)
        (v0 : option (list C)) (M : nat) (w : world) :
  let v := fst (start_vector (shape0 A) v0 w) in
  let w1 := snd (start_vector (shape0 A) v0 w) in
  construct_lanczos_tridiag A v0 M w
  = (tridiagonal A (normalise v) M,
     {| rng := rng w1; matvecs := matvecs w + M |}) /\
  length (fst (fst (construct_lanczos_tridiag A v0 M w))) = M /\
  length (snd (fst (construct_lanczos_tridiag A v0 M w))) = M - 1 /\
  krylov_init A (normalise v)
  = {| v_prev := repeat C0 (shape0 A); v_cur := normalise v; beta_cur := F0 |} /\
  normalise v = divide v (Fsqrt (Creal (vdot v v))) /\
  start_vector (shape0 A) None w
  = (let (re, g1) := randn (shape0 A) (rng w) in
     let (im, g2) := randn (shape0 A) g1 in
     (zip_with Cadd (map C_of_F re) (map (fun y => Cmul Cj (C_of_F y)) im),
      {| rng := g2; matvecs := matvecs w |})).
Proof.
  intros v w1. rewrite construct_lanczos_tridiag_run. fold v w1.
  destruct (tridiagonal_length A (normalise v) M) as [La Lb].
  repeat split; try assumption.
  unfold start_vector, bindS, draw, ret.
  destruct (randn (shape0 A) (rng w)) as [re g1]. simpl.
  destruct (randn (shape0 A) g1) as [im g2]. reflexivity.
Qed.

(** C6, as the code has it: there is no breakdown check. Whatever the
    norms [beta_{k+1}] are, zero included, the routine makes all [M]
    passes, one application of [A] each, and returns [alpha] of length [M]
    and [beta] of length [M - 1], those of the recurrence, each step of
    which divides [w] by its [beta_{k+1}] without a test. *)
Theorem construct_lanczos_tridiag_no_breakdown_check (A : operator)
        (v0 : option (list C)) (M : nat) (w : world) :
  exists al be w',
    construct_lanczos_tridiag A v0 M w = ((al, be), w') /\
    (al, be)
    = tridiagonal A (normalise (fst (start_vector (shape0 A) v0 w))) M /\
    length al = M /\ length be = M - 1 /\
    matvecs w' = matvecs w + M /\
    forall s : krylov,
      v_cur (snd (krylov_step A s))
      = divide (vsub (vsub (dot A (v_cur s)) (scale (beta_cur s) (v_prev s)))
                     (scale (fst (fst (krylov_step A s))) (v_cur s)))
               (snd (fst (krylov_step A s))).
Proof.
  rewrite construct_lanczos_tridiag_run.
  destruct (tridiagonal_length A
              (normalise (fst (start_vector (shape0 A) v0 w))) M) as [La Lb].
  destruct (tridiagonal A (normalise (fst (start_vector (shape0 A) v0 w))) M)
    as [al be].
  exists al, be. eexists. repeat split; try eassumption; reflexivity.
Qed.

(** *** The spectral estimate *)

Lemma fold_left_add_map (g : nat -> F) (l : list nat) (acc : F) :
  fold_left (fun s i => Fadd s (g i)) l acc = fold_left Fadd (map g l) acc.
Proof.
  revert acc. induction l as [|i l IH]; intros acc; simpl; [reflexivity|].
  apply IH.
Qed.

(** The running total after the restarts equals the sum of their terms. *)
Lemma gen_vals_loop (A : operator) (fn : F -> F) (M : nat)
      (v0 : option (list C)) :
  (forall x, Fmul (Fabs x) (Fabs x) = Fmul x x) ->
  forall (R a : nat) (acc : F) (w : world),
    for_loop (gen_vals_restart A fn M v0) (seq a R) acc w
    = (fold_left Fadd
                 (flat_map (quadrature_terms fn M) (fst (restarts A M v0 R w)))
                 acc,
       snd (restarts A M v0 R w)).
Proof.
  intros Habs R. induction R as [|R IH]; intros a acc w; [reflexivity|].
  cbn [seq]. rewrite for_loop_cons.
  unfold gen_vals_restart at 1. cbn [restarts]. unfold bindS.
  destruct (construct_lanczos_tridiag A v0 M w) as [ab w1].
  destruct (lanczos_tridiag_eig (fst ab) (snd ab)) as [el ev] eqn:Heig.
  unfold ret at 1. rewrite IH.
  destruct (restarts A M v0 R w1) as [es w2]. unfold ret. cbn [fst snd flat_map].
  rewrite fold_left_app. f_equal. f_equal.
  rewrite fold_left_add_map. unfold quadrature_terms. cbn [fst snd].
  f_equal. apply map_ext. intros i. rewrite Habs. reflexivity.
Qed.

Lemma restarts_matvecs (A : operator) (M : nat) (v0 : option (list C))
      (R : nat) (w : world) :
  matvecs (snd (restarts A M v0 R w)) = matvecs w + M * R.
Proof.
  revert w. induction R as [|R IH]; intros w.
  - simpl. lia.
  - cbn [restarts]. unfold bindS.
    rewrite construct_lanczos_tridiag_run.
    match goal with
    | |- context [restarts A M v0 R ?w1] =>
        specialize (IH w1); destruct (restarts A M v0 R w1) as [es w2]
    end.
    unfold ret. simpl in *. rewrite IH. lia.
Qed.

Lemma restarts_length (A : operator) (M : nat) (v0 : option (list C))
      (R : nat) (w : world) :
  length (fst (restarts A M v0 R w)) = R.
Proof.
  revert w. induction R as [|R IH]; intros w; [reflexivity|].
  cbn [restarts]. unfold bindS.
  destruct (construct_lanczos_tridiag A v0 M w) as [ab w1].
  specialize (IH w1). destruct (restarts A M v0 R w1) as [es w2].
  unfold ret. simpl in *. now rewrite IH.
Qed.

(** C4: [approx_spectral_function] returns the sum, over the [R] restarts
    and the [M] eigenpairs of each one's tridiagonal matrix, of
    [fn(eigenvalue_i)] times the squared magnitude of the first component
    of eigenvector [i], times [d / R]; it applies [A] exactly [M * R] times
    and has no other exit. The eigenvectors of the real band matrix are
    real, for which the square the code takes is the squared magnitude. *)
Theorem approx_spectral_function_spec (A : operator) (fn : F -> F)
        (M R : nat) (v0 : option (list C)) (w : world) :
  0 < R ->
  (forall x, Fmul (Fabs x) (Fabs x) = Fmul x x) ->
  let es := fst (restarts A M v0 R w) in
  let w' := snd (restarts A M v0 R w) in
  approx_spectral_function A fn M R v0 w
  = (Returned (spectral_estimate A fn M R es), w') /\
  spectral_estimate A fn M R es
  = Fmul (fold_left Fadd (flat_map (quadrature_terms fn M) es) F0)
         (Fdiv (F_of_nat (shape0 A)) (F_of_nat R)) /\
  length es = R /\
  Forall (fun e => length (quadrature_terms fn M e) = M) es /\
  matvecs w' = matvecs w + M * R.
Proof.
  intros HR Habs es w'. split; [|split; [|split; [|split]]].
  - unfold approx_spectral_function, bindS.
    rewrite gen_vals_loop by exact Habs. fold es. fold w'.
    destruct (R =? 0) eqn:E; [apply Nat.eqb_eq in E; lia|].
    reflexivity.
  - reflexivity.
  - apply restarts_length.
  - apply Forall_forall. intros e _. unfold quadrature_terms.
    rewrite length_map, length_seq. reflexivity.
  - apply restarts_matvecs.
Qed.

(** *** Further behaviour of the engine *)


Lemma gen_vals_loop_fixed (A : operator) (fn : F -> F) (M : nat) (v : list C) :
  forall (R a : nat) (acc : F),
  exists total,
    forall w : world,
      for_loop (gen_vals_restart A fn M (Some v)) (seq a R) acc w
      = (total, {| rng := rng w; matvecs := matvecs w + M * R |}).
Proof.
  induction R as [|R IH]; intros a acc.
  - exists acc. intros [g m]. rewrite Nat.mul_0_r. cbn [rng matvecs].
    rewrite Nat.add_0_r. reflexivity.
  - pose (ab := tridiagonal A (normalise v) M).
    pose (acc1 := let (el, ev) := lanczos_tridiag_eig (fst ab) (snd ab) in
                  fold_left
                    (fun s i => Fadd s (Fmul (fn (nth i el F0))
                                             (Fmul (nth i (nth 0 ev []) F0)
                                                   (nth i (nth 0 ev []) F0))))
                    (seq 0 M) acc).
    destruct (IH (S a) acc1) as [total Htotal].
    exists total. intros w. cbn [seq]. rewrite for_loop_cons.
    unfold gen_vals_restart at 1. unfold bindS.
    rewrite construct_lanczos_tridiag_run. cbn [start_vector ret fst snd].
    fold ab. unfold acc1 in Htotal.
    destruct (lanczos_tridiag_eig (fst ab) (snd ab)) as [el ev].
    unfold ret at 1. rewrite Htotal. cbn [rng matvecs]. do 2 f_equal. lia.
Qed.

(** With a start vector supplied the random generator is never used: one
    call of [construct_lanczos_tridiag] leaves it as it was, and the
    estimate of [approx_spectral_function] is the same whatever state the
    generator is in, each of the [R] restarts repeating one computation. *)
Theorem fixed_start_vector_is_deterministic (A : operator) (fn : F -> F)
        (M R : nat) (v : list C) (w w' : world) :
  construct_lanczos_tridiag A (Some v) M w
  = (tridiagonal A (normalise v) M,
     {| rng := rng w; matvecs := matvecs w + M |}) /\
  fst (approx_spectral_function A fn M R (Some v) w)
  = fst (approx_spectral_function A fn M R (Some v) w') /\
  rng (snd (approx_spectral_function A fn M R (Some v) w)) = rng w /\
  fst (restarts A M (Some v) R w)
  = repeat (lanczos_tridiag_eig (fst (tridiagonal A (normalise v) M))
                                (snd (tridiagonal A (normalise v) M))) R.
Proof.
  split; [|split; [|split]].
  - rewrite construct_lanczos_tridiag_run. reflexivity.
  - unfold approx_spectral_function, bindS.
    destruct (gen_vals_loop_fixed A fn M v R 0 F0) as [total H].
    rewrite !H. destruct (R =? 0); reflexivity.
  - unfold approx_spectral_function, bindS.
    destruct (gen_vals_loop_fixed A fn M v R 0 F0) as [total H].
    rewrite H. destruct (R =? 0); reflexivity.
  - revert w. induction R as [|R IH]; intros w; [reflexivity|].
    cbn [restarts repeat]. unfold bindS.
    rewrite construct_lanczos_tridiag_run. cbn [start_vector ret fst snd].
    match goal with
    | |- context [restarts A M (Some v) R ?w1] =>
        specialize (IH w1); destruct (restarts A M (Some v) R w1) as [es w2]
    end.
    cbn [fst] in *. now rewrite IH.
Qed.

Lemma skipn_repeat {X : Type} (x : X) (k n : nat) :
  skipn k (repeat x n) = repeat x (n - k).
Proof.
  revert n. induction k as [|k IH]; intros n.
  - now rewrite Nat.sub_0_r.
  - destruct n as [|n]; [reflexivity|]. simpl. apply IH.
Qed.

(** For at least one pass, the band matrix that [lanczos_tridiag_eig]
    hands to [eig_banded] for the arrays of [construct_lanczos_tridiag]
    has [alpha] as its first row and, as its second, [beta] followed by
    one entry that is never written: what [np.empty] left there. *)
Theorem lanczos_band_matrix (A : operator) (v0 : option (list C)) (M : nat)
        (w : world) :
  0 < M ->
  let ab := fst (construct_lanczos_tridiag A v0 M w) in
  lanczos_tridiag_eig (fst ab) (snd ab)
  = eig_banded [fst ab; snd ab ++ [uninit_F]] /\
  length (snd ab ++ [uninit_F]) = length (fst ab).
Proof.
  intros HM ab. unfold ab. rewrite construct_lanczos_tridiag_run. cbn [fst].
  destruct (tridiagonal_length A
              (normalise (fst (start_vector (shape0 A) v0 w))) M) as [La Lb].
  destruct (tridiagonal A (normalise (fst (start_vector (shape0 A) v0 w))) M)
    as [al be].
  cbn [fst snd] in *. unfold lanczos_tridiag_eig.
  rewrite skipn_repeat, La, Lb.
  replace (M - (M - 1)) with 1 by lia.
  split; [reflexivity|]. rewrite length_app, Lb. simpl. lia.
Qed.

End Engine.

End Lanczos.

(** ** The engine on binary64 floats *)

Module Binary64.
Import Lanczos.
Open Scope float_scope.

Definition complex : Type := (float * float)%type.

Definition cadd (x y : complex) : complex := (fst x + fst y, snd x + snd y).
Definition csub (x y : complex) : complex := (fst x - fst y, snd x - snd y).
Definition cmul (x y : complex) : complex :=
  (fst x * fst y - snd x * snd y, fst x * snd y + snd x * fst y).
Definition cconj (x : complex) : complex := (fst x, - snd x).
Definition c_of_f (x : float) : complex := (x, 0).

(** numpy's complex128 division (Smith's method, with its branch for a
    zero divisor). *)
Definition cdiv (x y : complex) : complex :=
  let (in1r, in1i) := x in
  let (in2r, in2i) := y in
  let in2r_abs := abs in2r in
  let in2i_abs := abs in2i in
  if in2i_abs <=? in2r_abs then
    if (in2r_abs =? 0) && (in2i_abs =? 0) then
      (in1r / in2r_abs, in1i / in2r_abs)
    else
      let rat := in2i / in2r in
      let scl := 1 / (in2r + in2i * rat) in
      ((in1r + in1i * rat) * scl, (in1i - in1r * rat) * scl)
  else
    let rat := in2r / in2i in
    let scl := 1 / (in2i + in2r * rat) in
    ((in1r * rat + in1i) * scl, (in1i * rat - in1r) * scl).

(** A Python int as a float; exact below [2^53]. *)
Fixpoint float_of_nat (n : nat) : float :=
  match n with
  | O => 0
  | Datatypes.S n' => float_of_nat n' + 1
  end.

(** The random generator as the tape of the deviates it will deliver. *)
Definition tape : Type := list float.
Definition randn (d : nat) (t : tape) : list float * tape :=
  (firstn d t, skipn d t).

(** [eig_banded] on a band matrix of size one: its only eigenvalue is its
    only entry, with eigenvector [(1)]. *)
Definition eig_banded_1 (Tk_banded : list (list float))
  : list float * list (list float) :=
  (nth 0 Tk_banded [], [[1]]).

Definition construct_lanczos_tridiag :=
  @Lanczos.construct_lanczos_tridiag float complex 0 sqrt (0, 0) (0, 1)
     cadd csub cmul cdiv cconj fst c_of_f (nan, nan) tape randn.

Definition approx_spectral_function :=
  @Lanczos.approx_spectral_function float complex 0 add mul div sqrt
     float_of_nat (0, 0) (0, 1) cadd csub cmul cdiv cconj fst c_of_f
     nan (nan, nan) tape randn eig_banded_1.

(** The identity on two components, as an operator. *)
Definition identity2 : operator complex := {| shape0 := 2; dot := fun v => v |}.

Definition world0 : world tape := {| rng := []; matvecs := 0 |}.

(** On binary64 floats the square of a number is the square of its
    magnitude, bit for bit. *)
Lemma abs_square (x : float) : abs x * abs x = x * x.
Proof.
  apply Prim2SF_inj. rewrite !mul_spec, abs_spec.
  destruct (Prim2SF x) as [s|s| |s m e]; simpl; try reflexivity;
    unfold SF64mul, SFmul; rewrite xorb_nilpotent; reflexivity.
Qed.

(** C6 fails on the code: on the identity with start vector [(1, 0)] and
    [M = 2] the first pass yields [beta_2 = 0]; the routine still returns,
    with [alpha_2 = nan] after the division by that zero, and signals
    nothing. *)
Lemma construct_lanczos_tridiag_breakdown_unsignalled :
  construct_lanczos_tridiag identity2 (Some [(1, 0); (0, 0)]) 2 world0
  = (([1; nan], [0]), {| rng := []; matvecs := 2 |}).
Proof. vm_compute. reflexivity. Qed.

(** The estimate of the trace of the identity on two components from two
    restarts of one step each. *)
Lemma approx_spectral_function_spec_witness :
  approx_spectral_function identity2 (fun x => x) 1 2 (Some [(1, 0); (0, 0)]) world0
  = (Returned 2, {| rng := []; matvecs := 2 |}).
Proof.
  pose proof (@Lanczos.approx_spectral_function_spec
                float complex 0 add mul div sqrt abs float_of_nat (0, 0) (0, 1)
                cadd csub cmul cdiv cconj fst c_of_f nan (nan, nan) tape randn
                eig_banded_1 identity2 (fun x => x) 1 2
                (Some [(1, 0); (0, 0)]) world0
                (le_S 1 1 (le_n 1)) abs_square) as H.
  cbv zeta in H. destruct H as [H _].
  unfold approx_spectral_function. rewrite H. vm_compute. reflexivity.
Defined.

(** One pass on the identity: the band matrix is [[1]; [nan]], its second
    row the entry that [np.empty] left. *)
Lemma lanczos_band_matrix_witness :
  let ab := fst (construct_lanczos_tridiag identity2 (Some [(1, 0); (0, 0)]) 1
                                           world0) in
  Lanczos.lanczos_tridiag_eig nan eig_banded_1 (fst ab) (snd ab)
  = eig_banded_1 [fst ab; snd ab ++ [nan]] /\
  length (snd ab ++ [nan]) = length (fst ab).
Proof.
  apply (@Lanczos.lanczos_band_matrix float complex 0 sqrt (0, 0) (0, 1)
           cadd csub cmul cdiv cconj fst c_of_f nan (nan, nan) tape randn
           eig_banded_1 identity2 (Some [(1, 0); (0, 0)]) 1 world0).
  lia.
Defined.

End Binary64.

(** ** The lazy contractions and their operators *)

Module Contract.
Import Planner.
Open Scope result_scope.

(** A subsystem argument is an int or a sequence of ints; [int2tup] makes
    it a tuple. Indices are natural numbers: a negative int is, like an
    index beyond the last subsystem, a member of no [range(ndim)]. *)
Inductive subsystems : Type :=
| Index (i : nat)
| Indices (l : list nat).

Definition int2tup (x : subsystems) : list nat :=
  match x with
  | Index i => [i]
  | Indices l => l
  end.

(** [quimb.accel.prod], the product of a sequence of ints. *)
Definition prod (xs : list nat) : nat := fold_right Nat.mul 1 xs.

(** [enumerate(xs)]. *)
Definition enumerate {X : Type} (xs : list X) : list (nat * X) :=
  combine (seq 0 (length xs)) xs.

(** [[d for i, d in enumerate(dims) if keep(i)]]. *)
Definition dims_where (keep : nat -> bool) (dims : list nat) : list nat :=
  map snd (filter (fun id => keep (fst id)) (enumerate dims)).

(** The flat position, in C order, of the entry with multi-index [idx] in
    an array of shape [shape]. *)
Fixpoint ravel (shape idx : list nat) : nat :=
  match shape, idx with
  | _ :: ds, i :: idx' => i * prod ds + ravel ds idx'
  | _, _ => 0
  end.

(** All multi-indices of an array of shape [dims], in C order. *)
Fixpoint all_multi (dims : list nat) : list (list nat) :=
  match dims with
  | [] => [[]]
  | d :: ds => flat_map (fun i => map (cons i) (all_multi ds)) (seq 0 d)
  end.

(** An assignment of values to labels, and the value of a label in it. *)
Definition lookup (env : list (nat * nat)) (l : nat) : nat :=
  match find (fun p => fst p =? l) env with
  | Some p => snd p
  | None => 0
  end.

(** *** Masks over positions

    [select mask xs] keeps the entries of [xs] where [mask] holds;
    [merge mask a b] is the list that reads [a] where [mask] holds and [b]
    elsewhere. *)

Fixpoint select {X : Type} (mask : list bool) (xs : list X) : list X :=
  match mask, xs with
  | b :: m, x :: xs' => if b then x :: select m xs' else select m xs'
  | _, _ => []
  end.

Fixpoint merge {X : Type} (mask : list bool) (a b : list X) : list X :=
  match mask with
  | [] => []
  | true :: m =>
      match a with
      | x :: a' => x :: merge m a' b
      | [] => merge m [] b
      end
  | false :: m =>
      match b with
      | y :: b' => y :: merge m a b'
      | [] => merge m a []
      end
  end.

Lemma select_map {X Y : Type} (f : X -> Y) (mask : list bool) (xs : list X) :
  select mask (map f xs) = map f (select mask xs).
Proof.
  revert xs. induction mask as [|b m IH]; intros [|x xs]; simpl; auto.
  destruct b; simpl; now rewrite IH.
Qed.

Lemma map_filter_select {X Y : Type} (f : X -> Y) (m : X -> bool) (l : list X) :
  map f (filter m l) = select (map m l) (map f l).
Proof.
  induction l as [|x l IH]; simpl; [reflexivity|].
  destruct (m x); simpl; now rewrite IH.
Qed.

Lemma map_if_merge {X Y : Type} (m : X -> bool) (fa fb : X -> Y) (l : list X) :
  map (fun p => if m p then fa p else fb p) l
  = merge (map m l) (map fa (filter m l))
          (map fb (filter (fun p => negb (m p)) l)).
Proof.
  induction l as [|x l IH]; simpl; [reflexivity|].
  destruct (m x); simpl; now rewrite IH.
Qed.

Lemma map_nth_seq {X : Type} (s : list X) (d : X) :
  map (fun p => nth p s d) (seq 0 (length s)) = s.
Proof.
  induction s as [|x s IH]; simpl; [reflexivity|].
  f_equal. rewrite <- seq_shift, map_map. exact IH.
Qed.

Lemma map_nth_rank {X : Type} (m : nat -> bool) (n : nat) (a : list X) (d : X) :
  length a = rank m n ->
  map (fun p => nth (rank m p) a d) (filter m (seq 0 n)) = a.
Proof.
  intros H.
  rewrite <- (map_map (rank m) (fun j => nth j a d)).
  rewrite PlanInvariants.map_rank_filter, <- H. apply map_nth_seq.
Qed.

Lemma select_length_filter {X Y : Type} (m : Y -> bool) (l : list Y) (xs : list X) :
  length l = length xs ->
  length (select (map m l) xs) = length (filter m l).
Proof.
  revert xs. induction l as [|y l IH]; intros [|x xs] H; simpl in *;
    try discriminate; [reflexivity|].
  destruct (m y); simpl; rewrite IH by lia; reflexivity.
Qed.

Lemma select_length_rank {X : Type} (m : nat -> bool) (xs : list X) :
  length (select (map m (seq 0 (length xs))) xs) = rank m (length xs).
Proof. apply select_length_filter, length_seq. Qed.

(** A merge gives back the lists it was made from. *)
Lemma select_merge {X Y : Type} (mask : list bool) (ds : list Y) (a b : list X) :
  length mask = length ds ->
  length a = length (select mask ds) ->
  length b = length (select (map negb mask) ds) ->
  select mask (merge mask a b) = a /\
  select (map negb mask) (merge mask a b) = b /\
  length (merge mask a b) = length ds.
Proof.
  revert ds a b. induction mask as [|[|] m IH]; intros [|d ds] a b Hm Ha Hb;
    simpl in *; try discriminate.
  - destruct a, b; try discriminate. auto.
  - destruct a as [|x a]; [discriminate|]. simpl in *.
    destruct (IH ds a b) as (H1 & H2 & H3); try lia.
    rewrite H1, H2, H3. auto.
  - destruct b as [|y b]; [discriminate|]. simpl in *.
    destruct (IH ds a b) as (H1 & H2 & H3); try lia.
    rewrite H1, H2, H3. auto.
Qed.

Lemma select_negb_map (m : nat -> bool) (l : list nat) :
  map negb (map m l) = map (fun p => negb (m p)) l.
Proof. apply map_map. Qed.

(** The kept position [q] is the entry number [rank P q] among the kept. *)
Lemma nth_filter_rank (P : nat -> bool) (n q d : nat) :
  q < n -> P q = true -> nth (rank P q) (filter P (seq 0 n)) d = q.
Proof.
  intros Hq HP.
  replace n with (q + S (n - S q)) by lia.
  rewrite seq_app, filter_app. simpl. rewrite HP.
  unfold rank. rewrite app_nth2 by lia. rewrite Nat.sub_diag. reflexivity.
Qed.

Lemma in_all_multi_length (ds idx : list nat) :
  In idx (all_multi ds) -> length idx = length ds.
Proof.
  revert idx. induction ds as [|d ds IH]; intros idx H; simpl in *.
  - destruct H as [<-|[]]. reflexivity.
  - apply in_flat_map in H as (i & _ & H).
    apply in_map_iff in H as (idx' & <- & H). simpl. f_equal. now apply IH.
Qed.

Lemma all_multi_length (ds : list nat) : length (all_multi ds) = prod ds.
Proof.
  induction ds as [|d ds IH]; simpl; [reflexivity|].
  rewrite <- IH. generalize (all_multi ds) as l. intros l.
  generalize 0 as a. induction d as [|d IHd]; intros a; simpl; [reflexivity|].
  rewrite length_app, length_map, IHd. reflexivity.
Qed.

Lemma all_multi_app (ds1 ds2 : list nat) :
  all_multi (ds1 ++ ds2)
  = flat_map (fun a => map (fun b => a ++ b) (all_multi ds2)) (all_multi ds1).
Proof.
  induction ds1 as [|d ds1 IH]; simpl.
  - rewrite app_nil_r. symmetry. apply map_id.
  - rewrite IH. generalize (seq 0 d) as l. intros l.
    induction l as [|i l IHl]; simpl; [reflexivity|].
    rewrite flat_map_app, <- IHl. f_equal.
    generalize (all_multi ds1) as m. intros m.
    induction m as [|a m IHm]; simpl; [reflexivity|].
    rewrite map_app, map_map, IHm. reflexivity.
Qed.

(** *** Assignments *)

Lemma lookup_cons (k v : nat) (env : list (nat * nat)) (l : nat) :
  lookup ((k, v) :: env) l = if k =? l then v else lookup env l.
Proof. unfold lookup. simpl. destruct (k =? l); reflexivity. Qed.

Lemma lookup_app (e1 e2 : list (nat * nat)) (l : nat) :
  lookup (e1 ++ e2) l
  = if mem l (map fst e1) then lookup e1 l else lookup e2 l.
Proof.
  induction e1 as [|[k v] e1 IH]; simpl; [reflexivity|].
  rewrite !lookup_cons, IH. rewrite (Nat.eqb_sym l k).
  destruct (k =? l); reflexivity.
Qed.

Lemma combine_app_eq {X Y : Type} (l1 l2 : list X) (v1 v2 : list Y) :
  length l1 = length v1 ->
  combine (l1 ++ l2) (v1 ++ v2) = combine l1 v1 ++ combine l2 v2.
Proof.
  revert v1. induction l1 as [|x l1 IH]; intros [|y v1] H; simpl in *;
    try discriminate; [reflexivity|].
  f_equal. apply IH. lia.
Qed.

Lemma map_fst_combine {X Y : Type} (l : list X) (v : list Y) :
  length l = length v -> map fst (combine l v) = l.
Proof.
  revert v. induction l as [|x l IH]; intros [|y v] H; simpl in *;
    try discriminate; [reflexivity|].
  f_equal. apply IH. lia.
Qed.

(** In an assignment to different labels, the label number [j] has the
    value number [j]. *)
Lemma lookup_combine_nth (L V : list nat) (j d : nat) :
  NoDup L -> length L = length V -> j < length L ->
  lookup (combine L V) (nth j L d) = nth j V 0.
Proof.
  revert V j. induction L as [|x L IH]; intros [|v V] j ND HL Hj; simpl in *;
    try lia.
  inversion ND as [|? ? Hx ND']; subst.
  rewrite lookup_cons. destruct j as [|j].
  - now rewrite Nat.eqb_refl.
  - destruct (Nat.eqb_spec x (nth j L d)) as [E|_].
    + exfalso. apply Hx. rewrite E. apply nth_In. lia.
    + apply IH; auto; lia.
Qed.

(** The value of the label [g q] when the labels are [g] of the kept
    positions. *)
Lemma lookup_combine_positions (P : nat -> bool) (g : nat -> nat) (n : nat)
      (V : list nat) (q : nat) :
  NoDup (map g (filter P (seq 0 n))) ->
  length V = rank P n ->
  q < n -> P q = true ->
  lookup (combine (map g (filter P (seq 0 n))) V) (g q) = nth (rank P q) V 0.
Proof.
  intros ND HV Hq HP.
  assert (Hlt : rank P q < length (map g (filter P (seq 0 n)))).
  { rewrite length_map. fold (rank P n).
    replace n with (q + S (n - S q)) by lia.
    unfold rank. rewrite seq_app, filter_app, length_app. simpl. rewrite HP.
    simpl. lia. }
  rewrite <- (nth_filter_rank P 0 Hq HP) at 1.
  rewrite <- (map_nth g). apply lookup_combine_nth; auto.
  rewrite length_map. fold (rank P n). lia.
Qed.

Lemma filter_none {X : Type} (P : X -> bool) (l : list X) :
  (forall x, In x l -> P x = false) -> filter P l = [].
Proof.
  induction l as [|x l IH]; intros H; simpl; [reflexivity|].
  rewrite (H x) by (left; reflexivity). apply IH. intros y Hy. apply H. now right.
Qed.

Lemma filter_all {X : Type} (P : X -> bool) (l : list X) :
  (forall x, In x l -> P x = true) -> filter P l = l.
Proof.
  induction l as [|x l IH]; intros H; simpl; [reflexivity|].
  rewrite (H x) by (left; reflexivity). f_equal. apply IH.
  intros y Hy. apply H. now right.
Qed.

(** Filtering an initial segment of the naturals by membership in an
    interval inside it. *)
Lemma filter_seq_interval (P : nat -> bool) (a r m : nat) :
  (forall l, l < m -> P l = (a <=? l) && (l <? a + r)) ->
  (0 < r -> a + r <= m) ->
  filter P (seq 0 m) = seq a r.
Proof.
  intros HP Hm. destruct r as [|r].
  - apply filter_none. intros l Hl. apply in_seq in Hl. rewrite HP by lia.
    destruct (a <=? l) eqn:E1, (l <? a + 0) eqn:E2; try reflexivity.
    apply Nat.leb_le in E1. apply Nat.ltb_lt in E2. lia.
  - specialize (Hm ltac:(lia)).
    assert (Hs : seq 0 m = seq 0 a ++ seq a (S r) ++ seq (a + S r) (m - a - S r)).
    { rewrite <- !seq_app. f_equal. lia. }
    rewrite Hs, !filter_app.
    rewrite (filter_none P (seq 0 a)), (filter_all P (seq a (S r))),
      (filter_none P (seq (a + S r) (m - a - S r))).
    + rewrite app_nil_r. reflexivity.
    + intros l Hl. apply in_seq in Hl. rewrite HP by lia.
      replace (l <? a + S r) with false by (symmetry; apply Nat.ltb_ge; lia).
      apply andb_false_r.
    + intros l Hl. apply in_seq in Hl. rewrite HP by lia.
      replace (a <=? l) with true by (symmetry; apply Nat.leb_le; lia).
      replace (l <? a + S r) with true by (symmetry; apply Nat.ltb_lt; lia).
      reflexivity.
    + intros l Hl. apply in_seq in Hl. rewrite HP by lia.
      replace (a <=? l) with false by (symmetry; apply Nat.leb_gt; lia).
      reflexivity.
Qed.

Lemma lookup_functional (E : list (nat * nat)) (D : nat -> nat) :
  (forall ld, In ld E -> snd ld = D (fst ld)) ->
  forall l, In l (map fst E) -> lookup E l = D l.
Proof.
  induction E as [|[k v] E IH]; intros H l Hl; simpl in *; [contradiction|].
  rewrite lookup_cons. destruct (Nat.eqb_spec k l) as [->|Hne].
  - apply (H (l, v)). now left.
  - destruct Hl as [Hl|Hl]; [contradiction|].
    apply IH; auto.
Qed.

Lemma functional_check (E : list (nat * nat)) (D : nat -> nat) :
  (forall ld, In ld E -> snd ld = D (fst ld)) ->
  forallb (fun ld => lookup E (fst ld) =? snd ld) E = true.
Proof.
  intros H. apply forallb_forall. intros ld Hld. apply Nat.eqb_eq.
  rewrite (lookup_functional E D H) by (now apply in_map).
  symmetry. now apply H.
Qed.

Lemma combine_map_map {X Y Z : Type} (g : X -> Y) (f : X -> Z) (l : list X) :
  combine (map g l) (map f l) = map (fun p => (g p, f p)) l.
Proof. induction l as [|x l IH]; simpl; [reflexivity|]. now rewrite IH. Qed.

Lemma mem_occ (l : nat) (L : list nat) :
  mem l L = (0 <? count_occ Nat.eq_dec L l).
Proof.
  induction L as [|x L IH]; simpl; [reflexivity|].
  rewrite IH. destruct (Nat.eq_dec x l) as [->|Hne].
  - rewrite Nat.eqb_refl. reflexivity.
  - destruct (Nat.eqb_spec l x) as [->|_]; [contradiction|]. reflexivity.
Qed.

Lemma mem_seq (a r l : nat) : mem l (seq a r) = (a <=? l) && (l <? a + r).
Proof.
  rewrite mem_occ, count_occ_seq.
  destruct ((a <=? l) && (l <? a + r)); reflexivity.
Qed.

Lemma In_le_list_max (l : list nat) (x : nat) : In x l -> x <= list_max l.
Proof.
  intros H. pose proof (proj1 (list_max_le l (list_max l)) (le_n _)) as F.
  rewrite Forall_forall in F. now apply F.
Qed.

Lemma NoDup_nodupb (l : list nat) : NoDup l -> PlanInvariants.nodupb l = true.
Proof.
  induction 1 as [|x l Hx ND IH]; simpl; [reflexivity|].
  rewrite IH, andb_true_r. destruct (mem x l) eqn:E; [|reflexivity].
  apply PlanInvariants.mem_In in E. contradiction.
Qed.

Lemma rank_lt (P : nat -> bool) (n q : nat) :
  q < n -> P q = true -> rank P q < rank P n.
Proof.
  intros Hq HP. replace n with (q + S (n - S q)) by lia.
  unfold rank. rewrite seq_app, filter_app, length_app. simpl. rewrite HP.
  simpl. lia.
Qed.

(** [[d for i, d in enumerate(dims) if keep(i)]] selects by the mask of
    [keep] over the positions. *)
Lemma dims_where_select_from (keep : nat -> bool) (dims : list nat) (a : nat) :
  map snd (filter (fun id => keep (fst id)) (combine (seq a (length dims)) dims))
  = select (map keep (seq a (length dims))) dims.
Proof.
  revert a. induction dims as [|d ds IH]; intros a; simpl; [reflexivity|].
  destruct (keep a); simpl; now rewrite IH.
Qed.

Lemma dims_where_select (keep : nat -> bool) (dims : list nat) :
  dims_where keep dims = select (map keep (seq 0 (length dims))) dims.
Proof. apply dims_where_select_from. Qed.

Lemma select_mask_nth {X : Type} (m : nat -> bool) (xs : list X) (d : X) :
  select (map m (seq 0 (length xs))) xs
  = map (fun p => nth p xs d) (filter m (seq 0 (length xs))).
Proof.
  rewrite map_filter_select, map_nth_seq. reflexivity.
Qed.

(** *** Three kinds of positions

    The positions are split by [inA] and [kept] into those of the first
    subset, the other kept ones and the rest; the lemmas below relate the
    masks and merges of the three splits. *)

Lemma filter_filter_ext {X : Type} (f g h : X -> bool) (l : list X) :
  (forall x, In x l -> g x && f x = h x) ->
  filter f (filter g l) = filter h l.
Proof.
  intros H. rewrite PlanInvariants.filter_filter_and.
  now apply filter_ext_in.
Qed.

(** The values at the positions [Q] among the kept positions [P], read
    from a list [v] that has one value per kept position. *)
Lemma gather_select {X : Type} (P Q : nat -> bool) (n : nat) (v : list X) (d : X) :
  length v = rank P n ->
  map (fun q => nth (rank P q) v d) (filter Q (filter P (seq 0 n)))
  = select (map Q (filter P (seq 0 n))) v.
Proof.
  intros H. rewrite map_filter_select. f_equal. now apply map_nth_rank.
Qed.

Lemma merge_three {X : Type} (inA inB kept : nat -> bool) (L : list nat) :
  (forall q, In q L -> kept q = inA q || inB q) ->
  (forall q, In q L -> inA q = true -> inB q = false) ->
  forall a b c : list X,
    length a = length (filter inA L) ->
    length b = length (filter inB L) ->
    length c = length (filter (fun q => negb (kept q)) L) ->
    merge (map inB L) b
          (merge (map inA (filter (fun q => negb (inB q)) L)) a c)
    = merge (map kept L) (merge (map inA (filter kept L)) a b) c.
Proof.
  induction L as [|q L IH]; intros Hk Hd a b c Ha Hb Hc; [reflexivity|].
  assert (Hk' : forall q, In q L -> kept q = inA q || inB q)
    by (intros; apply Hk; now right).
  assert (Hd' : forall q, In q L -> inA q = true -> inB q = false)
    by (intros; apply Hd; auto; now right).
  pose proof (Hk q (or_introl eq_refl)) as Hkq.
  pose proof (Hd q (or_introl eq_refl)) as Hdq.
  cbn [map filter] in *.
  destruct (inA q) eqn:EA.
  - rewrite (Hdq eq_refl) in *. cbn [orb negb] in Hkq. rewrite Hkq in *.
    cbn [negb map filter] in *. rewrite EA in *.
    destruct a as [|x a]; [discriminate|]. cbn [merge map].
    f_equal. apply IH; auto; simpl in *; lia.
  - destruct (inB q) eqn:EB.
    + cbn [orb negb] in Hkq. rewrite Hkq in *. cbn [negb map filter] in *.
      rewrite EA in *.
      destruct b as [|y b]; [discriminate|]. cbn [merge map].
      f_equal. apply IH; auto; simpl in *; lia.
    + cbn [orb negb] in Hkq. rewrite Hkq in *. cbn [negb map filter] in *.
      rewrite EA in *.
      destruct c as [|z c]; [discriminate|]. cbn [merge map].
      f_equal. apply IH; auto; simpl in *; lia.
Qed.

Section Tensors.

(** The scalars: complex numbers with their conjugation. *)
Variable C : Type.
Variables (c0 c1 : C) (cadd cmul : C -> C -> C) (conj : C -> C).

(** A C-contiguous [numpy.ndarray]. *)
Record ndarray : Type := mkArray {
  shape : list nat;
  data : list C
}.

(** [np.asarray(v).reshape(dims)] of a ket [v]. *)
Definition reshape (v : list C) (dims : list nat) : result ndarray :=
  if length v =? prod dims then Returned {| shape := dims; data := v |}
  else Raised ShapeError.

Definition conjugate (t : ndarray) : ndarray :=
  {| shape := shape t; data := map conj (data t) |}.

Definition entry (t : ndarray) (idx : list nat) : C :=
  nth (ravel (shape t) idx) (data t) c0.

Definition csum (l : list C) : C := fold_right cadd c0 l.

(** *** The contraction primitive

    [einsum(t1, labels1, t2, labels2, ..., [out])] with integer labels. The
    output labels default to the labels that occur once, in ascending
    order; every other label is summed over. *)

Definition operand : Type := (ndarray * list nat)%type.

Definition einsum_fn : Type := list operand -> option (list nat) -> result ndarray.

(** The product of the operands' entries under an assignment. *)
Definition term (ops : list operand) (env : list (nat * nat)) : C :=
  fold_right (fun op acc => cmul (entry (fst op) (map (lookup env) (snd op))) acc)
             c1 ops.

Definition label_dims (ops : list operand) : list (nat * nat) :=
  flat_map (fun op => combine (snd op) (shape (fst op))) ops.

(** Each operand has one label per axis and as many entries as its shape
    says, a label has one extent wherever it occurs, and the output labels
    are different labels of the operands. *)
Definition well_formed (ops : list operand) (out_labels : list nat) : bool :=
  forallb (fun op => (length (snd op) =? length (shape (fst op)))
                     && (length (data (fst op)) =? prod (shape (fst op)))) ops
  && forallb (fun ld => lookup (label_dims ops) (fst ld) =? snd ld) (label_dims ops)
  && forallb (fun l => mem l (flat_map snd ops)) out_labels
  && PlanInvariants.nodupb out_labels.

Definition einsum (ops : list operand) (out : option (list nat)) : result ndarray :=
  let all := flat_map snd ops in
  let universe := seq 0 (S (list_max all)) in
  let out_labels :=
    match out with
    | Some o => o
    | None => filter (fun l => count_occ Nat.eq_dec all l =? 1) universe
    end in
  let sum_labels :=
    filter (fun l => mem l all && negb (mem l out_labels)) universe in
  let dim := lookup (label_dims ops) in
  if well_formed ops out_labels then
    Returned
      {| shape := map dim out_labels;
         data :=
           map (fun o =>
                  csum (map (fun s => term ops (combine (out_labels ++ sum_labels)
                                                        (o ++ s)))
                            (all_multi (map dim sum_labels))))
               (all_multi (map dim out_labels)) |}
  else Raised EinsumError.

(** *** [lazy_ptr_dot] and [lazy_ptr_ppt_dot] *)

Section Lazy.

(** The primitive bound to the name [einsum] when the module is loaded. *)
Variable einsum_impl : einsum_fn.

(** [dims=None]: the bipartition [(da, d // da)]. *)
Definition dims_or_bipartite (psi_ab psi_a : list C) (dims : option (list nat))
  : result (list nat) :=
  match dims with
  | Some dims => Returned dims
  | None =>
      let da := length psi_a in
      let d := length psi_ab in
      if da =? 0 then Raised ZeroDivisionError else Returned [da; d / da]
  end.

(** [sysa=0] when the argument is left out. *)
Definition sysa_or_default (sysa : option subsystems) : subsystems :=
  match sysa with
  | Some s => s
  | None => Index 0
  end.

Definition lazy_ptr_dot (psi_ab psi_a : list C) (dims : option (list nat))
           (sysa : option subsystems) : result (list C) :=
  do dims <- dims_or_bipartite psi_ab psi_a dims;
  let sysa := int2tup (sysa_or_default sysa) in
  let ndim_ab := length dims in
  let dims_a := dims_where (fun i => mem i sysa) dims in
  do p <- get_cntrct_inds_ptr_dot ndim_ab sysa;
  do psi_ab_tensor <- reshape psi_ab dims;
  do psi_a_tensor <- reshape psi_a dims_a;
  do out <- einsum_impl [(psi_a_tensor, inds_a_ket p);
                         (conjugate psi_ab_tensor, inds_ab_bra p);
                         (psi_ab_tensor, inds_ab_ket p)] None;
  do r <- reshape (data out) [length psi_a];
  Returned (data r).

Definition lazy_ptr_ppt_dot (psi_abc psi_ab : list C) (dims : list nat)
           (sysa sysb : subsystems) : result (list C) :=
  let sysa := int2tup sysa in
  let sysb := int2tup sysb in
  do p <- get_cntrct_inds_ptr_ppt_dot (length dims) sysa sysb;
  do psi_abc_tensor <- reshape psi_abc dims;
  let dims_ab := dims_where (fun i => mem i sysa || mem i sysb) dims in
  do psi_ab_tensor <- reshape psi_ab dims_ab;
  do out <- einsum_impl [(psi_ab_tensor, inds_ab_ket' p);
                         (conjugate psi_abc_tensor, inds_abc_bra p);
                         (psi_abc_tensor, inds_abc_ket p)]
                        (Some (inds_out p));
  do r <- reshape (data out) [length psi_ab];
  Returned (data r).

(** *** The two [LinearOperator] subclasses *)

Record LazyPtrOperatr : Type := mkLazyPtrOperatr {
  ptr_psi_ab : list C;
  ptr_dims : list nat;
  ptr_sysa : list nat;
  ptr_shape : nat * nat
}.

Definition LazyPtrOperatr_init (psi_ab : list C) (dims : list nat)
           (sysa : subsystems) : LazyPtrOperatr :=
  let sysa := int2tup sysa in
  let dims_a := dims_where (fun i => mem i sysa) dims in
  let sz_a := prod dims_a in
  {| ptr_psi_ab := psi_ab; ptr_dims := dims; ptr_sysa := sysa;
     ptr_shape := (sz_a, sz_a) |}.

Definition LazyPtrOperatr_matvec (self : LazyPtrOperatr) (vec : list C)
  : result (list C) :=
  lazy_ptr_dot (ptr_psi_ab self) vec (Some (ptr_dims self))
               (Some (Indices (ptr_sysa self))).

Definition LazyPtrOperatr_adjoint (self : LazyPtrOperatr) : LazyPtrOperatr :=
  LazyPtrOperatr_init (map conj (ptr_psi_ab self)) (ptr_dims self)
                      (Indices (ptr_sysa self)).

Record LazyPtrPptOperator : Type := mkLazyPtrPptOperator {
  ppt_psi_abc : list C;
  ppt_dims : list nat;
  ppt_sysa : list nat;
  ppt_sysb : list nat;
  ppt_shape : nat * nat
}.

Definition LazyPtrPptOperator_init (psi_abc : list C) (dims : list nat)
           (sysa sysb : subsystems) : LazyPtrPptOperator :=
  let sysa := int2tup sysa in
  let sysb := int2tup sysb in
  let sys_ab := sysa ++ sysb in
  let sz_ab := prod (dims_where (fun i => mem i sys_ab) dims) in
  {| ppt_psi_abc := psi_abc; ppt_dims := dims;
     ppt_sysa := sysa; ppt_sysb := sysb; ppt_shape := (sz_ab, sz_ab) |}.

Definition LazyPtrPptOperator_matvec (self : LazyPtrPptOperator) (vec : list C)
  : result (list C) :=
  lazy_ptr_ppt_dot (ppt_psi_abc self) vec (ppt_dims self)
                   (Indices (ppt_sysa self)) (Indices (ppt_sysb self)).

Definition LazyPtrPptOperator_adjoint (self : LazyPtrPptOperator)
  : LazyPtrPptOperator :=
  LazyPtrPptOperator_init (map conj (ppt_psi_abc self)) (ppt_dims self)
                          (Indices (ppt_sysa self)) (Indices (ppt_sysb self)).

(** *** Shape errors come before the contraction *)

Lemma reshape_mismatch (v : list C) (dims : list nat) :
  length v <> prod dims -> reshape v dims = Raised ShapeError.
Proof.
  intros H. unfold reshape.
  destruct (length v =? prod dims) eqn:E; [apply Nat.eqb_eq in E; contradiction|].
  reflexivity.
Qed.

Lemma reshape_match (v : list C) (dims : list nat) :
  length v = prod dims -> reshape v dims = Returned {| shape := dims; data := v |}.
Proof. intros H. unfold reshape. rewrite H, Nat.eqb_refl. reflexivity. Qed.

(** C8: when the product of [dims] is not the size of the first ket, or
    the product of the kept [dims] is not the size of the second, both
    lazy contractions raise the shape error of [reshape], whatever the
    contraction primitive is: it is not reached. *)
Theorem lazy_dot_shape_mismatch :
  (forall (psi_ab psi_a : list C) (dims_arg : option (list nat))
          (sysa : option subsystems) (dims : list nat),
      dims_or_bipartite psi_ab psi_a dims_arg = Returned dims ->
      length psi_ab <> prod dims \/
      length psi_a
      <> prod (dims_where (fun i => mem i (int2tup (sysa_or_default sysa))) dims) ->
      lazy_ptr_dot psi_ab psi_a dims_arg sysa = Raised ShapeError) /\
  (forall (psi_abc psi_ab : list C) (dims : list nat) (sysa sysb : subsystems),
      length psi_abc <> prod dims \/
      length psi_ab
      <> prod (dims_where (fun i => mem i (int2tup sysa) || mem i (int2tup sysb))
                          dims) ->
      lazy_ptr_ppt_dot psi_abc psi_ab dims sysa sysb = Raised ShapeError).
Proof.
  split.
  - intros psi_ab psi_a dims_arg sysa dims Hd Hne.
    unfold lazy_ptr_dot. rewrite Hd. cbn [bind].
    rewrite PlannerFacts.get_cntrct_inds_ptr_dot_returns. cbn [bind].
    destruct (Nat.eq_dec (length psi_ab) (prod dims)) as [E|E].
    + rewrite (reshape_match _ _ E). cbn [bind].
      destruct Hne as [Hne|Hne]; [contradiction|].
      rewrite (reshape_mismatch _ _ Hne). reflexivity.
    + rewrite (reshape_mismatch _ _ E). reflexivity.
  - intros psi_abc psi_ab dims sysa sysb Hne.
    unfold lazy_ptr_ppt_dot.
    rewrite PlannerFacts.get_cntrct_inds_ptr_ppt_dot_returns. cbn [bind].
    destruct (Nat.eq_dec (length psi_abc) (prod dims)) as [E|E].
    + rewrite (reshape_match _ _ E). cbn [bind].
      destruct Hne as [Hne|Hne]; [contradiction|].
      rewrite (reshape_mismatch _ _ Hne). reflexivity.
    + rewrite (reshape_mismatch _ _ E). reflexivity.
Qed.

(** *** Subsets are never rejected *)

Lemma dims_where_ext (keep keep' : nat -> bool) (dims : list nat) :
  (forall p, p < length dims -> keep p = keep' p) ->
  dims_where keep dims = dims_where keep' dims.
Proof.
  intros H. unfold dims_where, enumerate. f_equal.
  apply filter_ext_in. intros [i d] Hin. apply in_combine_l in Hin.
  apply in_seq in Hin. simpl. apply H. lia.
Qed.

(** C9, as the code has it: no subset is rejected. Both planners return a
    plan for every argument; an index outside [0 .. ndim - 1] has no effect
    on the plan, and an index in both [sysa] and [sysb] counts for [sysa];
    the lazy contractions treat their subsets the same way. *)
Theorem subsets_never_rejected :
  (forall (n : nat) (sysa : list nat),
      get_cntrct_inds_ptr_dot n sysa = Returned (ptr_dot_labels n sysa n) /\
      get_cntrct_inds_ptr_dot n sysa
      = get_cntrct_inds_ptr_dot n (filter (fun i => i <? n) sysa)) /\
  (forall (n : nat) (sysa sysb : list nat),
      get_cntrct_inds_ptr_ppt_dot n sysa sysb
      = Returned (ptr_ppt_dot_labels n sysa sysb n) /\
      get_cntrct_inds_ptr_ppt_dot n sysa sysb
      = get_cntrct_inds_ptr_ppt_dot n
          (filter (fun i => i <? n) sysa)
          (filter (fun i => (i <? n) && negb (mem i sysa)) sysb)) /\
  (forall (psi_ab psi_a : list C) (dims : list nat) (sysa : list nat),
      lazy_ptr_dot psi_ab psi_a (Some dims) (Some (Indices sysa))
      = lazy_ptr_dot psi_ab psi_a (Some dims)
          (Some (Indices (filter (fun i => i <? length dims) sysa)))) /\
  (forall (psi_abc psi_ab : list C) (dims : list nat) (sysa sysb : list nat),
      lazy_ptr_ppt_dot psi_abc psi_ab dims (Indices sysa) (Indices sysb)
      = lazy_ptr_ppt_dot psi_abc psi_ab dims
          (Indices (filter (fun i => i <? length dims) sysa))
          (Indices (filter (fun i => (i <? length dims) && negb (mem i sysa)) sysb))).
Proof.
  assert (Ha : forall n sysa p, p < n ->
               mem p sysa = mem p (filter (fun i => i <? n) sysa)).
  { intros n sysa p Hp. rewrite PlanInvariants.mem_filter.
    replace (p <? n) with true by (symmetry; apply Nat.ltb_lt; exact Hp).
    reflexivity. }
  assert (Hk : forall n sysa sysb p, p < n ->
               mem p sysa || mem p sysb
               = mem p (filter (fun i => i <? n) sysa)
                 || mem p (filter (fun i => (i <? n) && negb (mem i sysa)) sysb)).
  { intros n sysa sysb p Hp. rewrite !PlanInvariants.mem_filter.
    replace (p <? n) with true by (symmetry; apply Nat.ltb_lt; exact Hp).
    simpl. destruct (mem p sysa); reflexivity. }
  split; [|split; [|split]].
  - intros n sysa. split; [apply PlannerFacts.get_cntrct_inds_ptr_dot_returns|].
    rewrite !PlannerFacts.get_cntrct_inds_ptr_dot_returns. f_equal.
    apply PlanInvariants.ptr_dot_labels_ext. intros p Hp. now apply Ha.
  - intros n sysa sysb.
    split; [apply PlannerFacts.get_cntrct_inds_ptr_ppt_dot_returns|].
    rewrite !PlannerFacts.get_cntrct_inds_ptr_ppt_dot_returns. f_equal.
    apply PlanInvariants.ptr_ppt_dot_labels_ext; intros p Hp;
      [now apply Ha|now apply Hk].
  - intros psi_ab psi_a dims sysa. unfold lazy_ptr_dot. cbn [bind dims_or_bipartite
      sysa_or_default int2tup].
    rewrite !PlannerFacts.get_cntrct_inds_ptr_dot_returns.
    rewrite (@PlanInvariants.ptr_dot_labels_ext (length dims) sysa
               (filter (fun i => i <? length dims) sysa))
      by (intros p Hp; now apply Ha).
    rewrite (@dims_where_ext (fun i => mem i sysa)
               (fun i => mem i (filter (fun i => i <? length dims) sysa)) dims)
      by (intros p Hp; now apply Ha).
    reflexivity.
  - intros psi_abc psi_ab dims sysa sysb. unfold lazy_ptr_ppt_dot. cbn [bind int2tup].
    rewrite !PlannerFacts.get_cntrct_inds_ptr_ppt_dot_returns.
    rewrite (@PlanInvariants.ptr_ppt_dot_labels_ext (length dims) sysa
               (filter (fun i => i <? length dims) sysa) sysb
               (filter (fun i => (i <? length dims) && negb (mem i sysa)) sysb))
      by (intros p Hp; first [now apply Ha|now apply Hk]).
    rewrite (@dims_where_ext (fun i => mem i sysa || mem i sysb)
               (fun i => mem i (filter (fun i => i <? length dims) sysa)
                         || mem i (filter (fun i => (i <? length dims)
                                                    && negb (mem i sysa)) sysb)) dims)
      by (intros p Hp; now apply Hk).
    reflexivity.
Qed.

(** *** What a returned result tells, and the errors of omitted [dims] *)

Lemma bind_Returned {X Y : Type} (r : result X) (k : X -> result Y) (y : Y) :
  bind r k = Returned y -> exists x, r = Returned x /\ k x = Returned y.
Proof.
  destruct r as [x|e]; simpl; intros H; [|discriminate]. exists x. auto.
Qed.

Lemma reshape_Returned (v : list C) (dims : list nat) (t : ndarray) :
  reshape v dims = Returned t ->
  length v = prod dims /\ t = {| shape := dims; data := v |}.
Proof.
  unfold reshape. destruct (length v =? prod dims) eqn:E; [|discriminate].
  apply Nat.eqb_eq in E. intros H. inversion H. auto.
Qed.

Lemma lazy_ptr_dot_Returned (psi_ab psi_a : list C) (dims : list nat)
      (sysa : subsystems) (y : list C) :
  lazy_ptr_dot psi_ab psi_a (Some dims) (Some sysa) = Returned y ->
  length psi_ab = prod dims /\
  length psi_a = prod (dims_where (fun i => mem i (int2tup sysa)) dims) /\
  length y = length psi_a.
Proof.
  intros H. unfold lazy_ptr_dot in H.
  cbn [dims_or_bipartite sysa_or_default bind] in H.
  apply bind_Returned in H as (p & _ & H).
  apply bind_Returned in H as (t1 & H1 & H).
  apply bind_Returned in H as (t2 & H2 & H).
  apply bind_Returned in H as (out & _ & H).
  apply bind_Returned in H as (r & H3 & H).
  apply reshape_Returned in H1 as [L1 _], H2 as [L2 _], H3 as [L3 ->].
  inversion H; subst y. cbn [data]. rewrite L3. simpl. repeat split; auto; lia.
Qed.

Lemma lazy_ptr_ppt_dot_Returned (psi_abc psi_ab : list C) (dims : list nat)
      (sysa sysb : subsystems) (y : list C) :
  lazy_ptr_ppt_dot psi_abc psi_ab dims sysa sysb = Returned y ->
  length psi_abc = prod dims /\
  length psi_ab
  = prod (dims_where (fun i => mem i (int2tup sysa) || mem i (int2tup sysb))
                     dims) /\
  length y = length psi_ab.
Proof.
  intros H. unfold lazy_ptr_ppt_dot in H.
  apply bind_Returned in H as (p & _ & H).
  apply bind_Returned in H as (t1 & H1 & H).
  apply bind_Returned in H as (t2 & H2 & H).
  apply bind_Returned in H as (out & _ & H).
  apply bind_Returned in H as (r & H3 & H).
  apply reshape_Returned in H1 as [L1 _], H2 as [L2 _], H3 as [L3 ->].
  inversion H; subst y. cbn [data]. rewrite L3. simpl. repeat split; auto; lia.
Qed.

Lemma mem_app (i : nat) (a b : list nat) : mem i (a ++ b) = mem i a || mem i b.
Proof. unfold mem. apply existsb_app. Qed.

(** The [shape] an operator announces is the one its [_matvec] works at:
    whatever the contraction primitive computes, a product that is returned
    was taken of a vector of [shape[1]] entries and has [shape[0]] entries,
    and the ket the operator holds has [prod(dims)] entries. *)
Theorem operator_matvec_shape (psi : list C) (dims : list nat)
        (sysa sysb : subsystems) (vec y : list C) :
  (LazyPtrOperatr_matvec (LazyPtrOperatr_init psi dims sysa) vec = Returned y ->
   length psi = prod dims /\
   length vec = snd (ptr_shape (LazyPtrOperatr_init psi dims sysa)) /\
   length y = fst (ptr_shape (LazyPtrOperatr_init psi dims sysa))) /\
  (LazyPtrPptOperator_matvec (LazyPtrPptOperator_init psi dims sysa sysb) vec
   = Returned y ->
   length psi = prod dims /\
   length vec = snd (ppt_shape (LazyPtrPptOperator_init psi dims sysa sysb)) /\
   length y = fst (ppt_shape (LazyPtrPptOperator_init psi dims sysa sysb))).
Proof.
  split; intros H.
  - apply lazy_ptr_dot_Returned in H as (L1 & L2 & L3).
    cbn [int2tup LazyPtrOperatr_init ptr_psi_ab ptr_sysa ptr_dims ptr_shape
         fst snd] in *.
    repeat split; congruence.
  - apply lazy_ptr_ppt_dot_Returned in H as (L1 & L2 & L3).
    cbn [int2tup LazyPtrPptOperator_init ppt_psi_abc ppt_sysa ppt_sysb ppt_dims
         ppt_shape fst snd] in *.
    rewrite (@dims_where_ext (fun i => mem i (int2tup sysa ++ int2tup sysb))
               (fun i => mem i (int2tup sysa) || mem i (int2tup sysb)) dims)
      by (intros p _; apply mem_app).
    repeat split; congruence.
Qed.

(** Taking the adjoint keeps [dims], the subsets and the [shape], and
    conjugates the ket; so where conjugation is an involution, as for the
    complex numbers, the adjoint of the adjoint is the operator itself. *)
Theorem adjoint_involutive (psi : list C) (dims : list nat)
        (sysa sysb : subsystems) :
  (forall x, conj (conj x) = x) ->
  LazyPtrOperatr_adjoint (LazyPtrOperatr_adjoint (LazyPtrOperatr_init psi dims sysa))
  = LazyPtrOperatr_init psi dims sysa /\
  ptr_shape (LazyPtrOperatr_adjoint (LazyPtrOperatr_init psi dims sysa))
  = ptr_shape (LazyPtrOperatr_init psi dims sysa) /\
  LazyPtrPptOperator_adjoint
    (LazyPtrPptOperator_adjoint (LazyPtrPptOperator_init psi dims sysa sysb))
  = LazyPtrPptOperator_init psi dims sysa sysb /\
  ppt_shape (LazyPtrPptOperator_adjoint (LazyPtrPptOperator_init psi dims sysa sysb))
  = ppt_shape (LazyPtrPptOperator_init psi dims sysa sysb).
Proof.
  intros Hc.
  assert (E : map conj (map conj psi) = psi).
  { rewrite map_map. rewrite <- (map_id psi) at 2. apply map_ext. apply Hc. }
  unfold LazyPtrOperatr_adjoint, LazyPtrPptOperator_adjoint,
    LazyPtrOperatr_init, LazyPtrPptOperator_init.
  cbn [int2tup ptr_psi_ab ptr_dims ptr_sysa ptr_shape
       ppt_psi_abc ppt_dims ppt_sysa ppt_sysb ppt_shape].
  rewrite E. repeat split.
Qed.

(** With [dims] left out, an empty [psi_a] makes the division
    [psi_ab.size // psi_a.size] raise, and a [psi_a] whose size does not
    divide that of [psi_ab] makes the reshape to the inferred bipartition
    raise; the contraction primitive is not reached in either case. *)
Theorem lazy_ptr_dot_inferred_dims_errors (psi_ab psi_a : list C)
        (sysa : option subsystems) :
  (length psi_a = 0 ->
   lazy_ptr_dot psi_ab psi_a None sysa = Raised ZeroDivisionError) /\
  (length psi_a <> 0 -> length psi_ab mod length psi_a <> 0 ->
   lazy_ptr_dot psi_ab psi_a None sysa = Raised ShapeError).
Proof.
  split.
  - intros H. unfold lazy_ptr_dot, dims_or_bipartite. rewrite H. reflexivity.
  - intros Hne Hmod. unfold lazy_ptr_dot, dims_or_bipartite.
    destruct (length psi_a =? 0) eqn:E; [apply Nat.eqb_eq in E; contradiction|].
    cbn [bind]. rewrite PlannerFacts.get_cntrct_inds_ptr_dot_returns. cbn [bind].
    rewrite reshape_mismatch; [reflexivity|].
    simpl. rewrite Nat.mul_1_r. intros Heq. apply Hmod.
    rewrite Heq, Nat.mul_comm. apply Nat.Div0.mod_mul.
Qed.

(** The plans, and with them both lazy contractions, depend on a subset
    only through its members: their order and repetitions do not
    matter. *)
Theorem subsets_as_sets (sysa sysa' sysb sysb' : list nat) :
  (forall i, In i sysa <-> In i sysa') ->
  (forall i, In i sysb <-> In i sysb') ->
  (forall n, get_cntrct_inds_ptr_dot n sysa = get_cntrct_inds_ptr_dot n sysa') /\
  (forall n, get_cntrct_inds_ptr_ppt_dot n sysa sysb
             = get_cntrct_inds_ptr_ppt_dot n sysa' sysb') /\
  (forall psi_ab psi_a dims,
      lazy_ptr_dot psi_ab psi_a dims (Some (Indices sysa))
      = lazy_ptr_dot psi_ab psi_a dims (Some (Indices sysa'))) /\
  (forall psi_abc psi_ab dims,
      lazy_ptr_ppt_dot psi_abc psi_ab dims (Indices sysa) (Indices sysb)
      = lazy_ptr_ppt_dot psi_abc psi_ab dims (Indices sysa') (Indices sysb')).
Proof.
  intros Ha Hb.
  assert (Ma : forall i, mem i sysa = mem i sysa').
  { intros i. apply eq_iff_eq_true. rewrite !PlanInvariants.mem_In. apply Ha. }
  assert (Mb : forall i, mem i sysb = mem i sysb').
  { intros i. apply eq_iff_eq_true. rewrite !PlanInvariants.mem_In. apply Hb. }
  assert (P1 : forall n, ptr_dot_labels n sysa n = ptr_dot_labels n sysa' n).
  { intros n. apply PlanInvariants.ptr_dot_labels_ext. intros p _. apply Ma. }
  assert (P2 : forall n, ptr_ppt_dot_labels n sysa sysb n
                         = ptr_ppt_dot_labels n sysa' sysb' n).
  { intros n. apply PlanInvariants.ptr_ppt_dot_labels_ext; intros p _.
    - apply Ma.
    - now rewrite Ma, Mb. }
  split; [|split; [|split]].
  - intros n. rewrite !PlannerFacts.get_cntrct_inds_ptr_dot_returns. now rewrite P1.
  - intros n. rewrite !PlannerFacts.get_cntrct_inds_ptr_ppt_dot_returns.
    now rewrite P2.
  - intros psi_ab psi_a dims. unfold lazy_ptr_dot.
    destruct (dims_or_bipartite psi_ab psi_a dims) as [d|e]; [|reflexivity].
    cbn [bind sysa_or_default int2tup].
    rewrite !PlannerFacts.get_cntrct_inds_ptr_dot_returns, P1.
    rewrite (@dims_where_ext (fun i => mem i sysa) (fun i => mem i sysa') d)
      by (intros p _; apply Ma).
    reflexivity.
  - intros psi_abc psi_ab dims. unfold lazy_ptr_ppt_dot. cbn [int2tup].
    rewrite !PlannerFacts.get_cntrct_inds_ptr_ppt_dot_returns, P2.
    rewrite (@dims_where_ext (fun i => mem i sysa || mem i sysb)
               (fun i => mem i sysa' || mem i sysb') dims)
      by (intros p _; now rewrite Ma, Mb).
    reflexivity.
Qed.

End Lazy.

(** *** The explicit operators of the specification

    An operator on the kept subsystems is given by its entries, read at a
    row and a column multi-index, as in its reshaping to
    [dims_kept + dims_kept]; a ket is read at a multi-index through its
    flat position. *)

Definition ket_at (dims : list nat) (psi : list C) (idx : list nat) : C :=
  nth (ravel dims idx) psi c0.

Definition matrix : Type := list nat -> list nat -> C.

(** [|psi><psi|]. *)
Definition outer (dims : list nat) (psi : list C) : matrix :=
  fun r c => cmul (ket_at dims psi r) (conj (ket_at dims psi c)).

(** The partial trace over the positions where [keep] does not hold. *)
Definition partial_trace (dims : list nat) (keep : list bool) (rho : matrix)
  : matrix :=
  fun r c =>
    csum (map (fun t => rho (merge keep r t) (merge keep c t))
              (all_multi (select (map negb keep) dims))).

(** The partial transpose on the kept positions where [sub] holds: there
    the row and the column index change places. *)
Definition partial_transpose (sub : list bool) (rho : matrix) : matrix :=
  fun r c =>
    rho (merge sub (select sub c) (select (map negb sub) r))
        (merge sub (select sub r) (select (map negb sub) c)).

(** The operator applied to a ket. *)
Definition matvec (dims : list nat) (rho : matrix) (v : list C) : list C :=
  map (fun r => csum (map (fun c => cmul (rho r c) (ket_at dims v c))
                          (all_multi dims)))
      (all_multi dims).

Definition positions_mask (keep : nat -> bool) (dims : list nat) : list bool :=
  map keep (seq 0 (length dims)).

(** [ptr(psi_ab psi_ab^H, dims, sysa) @ psi_a]. *)
Definition explicit_ptr_dot (psi_ab psi_a : list C) (dims sysa : list nat)
  : list C :=
  let keep := positions_mask (fun i => mem i sysa) dims in
  matvec (select keep dims) (partial_trace dims keep (outer dims psi_ab)) psi_a.

(** [partial_transpose(ptr(psi_abc psi_abc^H, dims, sysa + sysb)) @ psi_ab],
    the transpose taken on the subsystems of [sysa]. *)
Definition explicit_ptr_ppt_dot (psi_abc psi_ab : list C)
           (dims sysa sysb : list nat) : list C :=
  let keep := positions_mask (fun i => mem i sysa || mem i sysb) dims in
  let sub := select keep (positions_mask (fun i => mem i sysa) dims) in
  matvec (select keep dims)
         (partial_transpose sub (partial_trace dims keep (outer dims psi_abc)))
         psi_ab.

Section Laws.

(** The scalars form a commutative semiring and [conj] fixes zero; the
    complex numbers do. *)
Hypothesis C_semiring : semi_ring_theory c0 c1 cadd cmul eq.
Hypothesis conj_zero : conj c0 = c0.

Add Ring C_ring : C_semiring.

Lemma csum_app (l1 l2 : list C) : csum (l1 ++ l2) = cadd (csum l1) (csum l2).
Proof.
  induction l1 as [|x l1 IH]; simpl; [ring|]. rewrite IH. ring.
Qed.

Lemma csum_flat_map {X Y : Type} (f : Y -> C) (g : X -> list Y) (l : list X) :
  csum (map f (flat_map g l)) = csum (map (fun x => csum (map f (g x))) l).
Proof.
  induction l as [|x l IH]; simpl; [reflexivity|].
  rewrite map_app, csum_app, IH. reflexivity.
Qed.

Lemma csum_map_add {X : Type} (a b : X -> C) (l : list X) :
  csum (map (fun y => cadd (a y) (b y)) l)
  = cadd (csum (map a l)) (csum (map b l)).
Proof.
  induction l as [|x l IH]; simpl; [ring|]. rewrite IH. ring.
Qed.

Lemma csum_map_zero {X : Type} (l : list X) : csum (map (fun _ => c0) l) = c0.
Proof.
  induction l as [|x l IH]; simpl; [reflexivity|]. rewrite IH. ring.
Qed.

Lemma csum_map_ext {X : Type} (f g : X -> C) (l : list X) :
  (forall x, In x l -> f x = g x) -> csum (map f l) = csum (map g l).
Proof. intros H. f_equal. now apply map_ext_in. Qed.

(** Two finite sums may change places. *)
Lemma csum_swap {X Y : Type} (g : X -> Y -> C) (xs : list X) (ys : list Y) :
  csum (map (fun x => csum (map (fun y => g x y) ys)) xs)
  = csum (map (fun y => csum (map (fun x => g x y) xs)) ys).
Proof.
  induction xs as [|x xs IH]; simpl.
  - now rewrite csum_map_zero.
  - rewrite IH, <- csum_map_add. reflexivity.
Qed.

Lemma csum_mul_l {X : Type} (x : C) (f : X -> C) (l : list X) :
  cmul x (csum (map f l)) = csum (map (fun y => cmul x (f y)) l).
Proof.
  induction l as [|y l IH]; simpl; [ring|]. rewrite <- IH. ring.
Qed.

Lemma csum_mul_r {X : Type} (x : C) (f : X -> C) (l : list X) :
  cmul (csum (map f l)) x = csum (map (fun y => cmul (f y) x) l).
Proof.
  induction l as [|y l IH]; simpl; [ring|]. rewrite <- IH. ring.
Qed.

(** A sum over all multi-indices is a sum over their kept parts of sums
    over their other parts. *)
Lemma csum_split (mask : list bool) (dims : list nat) (f : list nat -> C) :
  length mask = length dims ->
  csum (map f (all_multi dims))
  = csum (map (fun a =>
                 csum (map (fun b => f (merge mask a b))
                           (all_multi (select (map negb mask) dims))))
              (all_multi (select mask dims))).
Proof.
  revert dims f. induction mask as [|b m IH]; intros [|d ds] f H;
    simpl in H; try discriminate.
  - simpl. ring.
  - assert (Hm : length m = length ds) by lia.
    cbn [all_multi]. rewrite csum_flat_map.
    destruct b; cbn [select map negb all_multi].
    + rewrite csum_flat_map. apply csum_map_ext. intros i _.
      rewrite !map_map. rewrite (IH ds (fun s => f (i :: s)) Hm). reflexivity.
    + rewrite (csum_map_ext _
                 (fun i => csum (map (fun a =>
                     csum (map (fun b => f (i :: merge m a b))
                               (all_multi (select (map negb m) ds))))
                   (all_multi (select m ds))))).
      * rewrite csum_swap. apply csum_map_ext. intros a _.
        rewrite csum_flat_map. apply csum_map_ext. intros i _.
        rewrite map_map. reflexivity.
      * intros i _. rewrite map_map.
        apply (IH ds (fun s => f (i :: s)) Hm).
Qed.

(** *** The contraction of [lazy_ptr_dot], term by term *)

(** The assignment of the output multi-index [o] to the fresh labels and of
    the summed multi-index [s] to the base labels. *)
Lemma ptr_env_base (n r : nat) (o s : list nat) (p : nat) :
  length o = r -> length s = n -> p < n ->
  lookup (combine (seq n r ++ seq 0 n) (o ++ s)) p = nth p s 0.
Proof.
  intros Ho Hs Hp.
  rewrite combine_app_eq by (rewrite length_seq; auto).
  rewrite lookup_app, map_fst_combine by (rewrite length_seq; auto).
  rewrite mem_seq.
  replace (n <=? p) with false by (symmetry; apply Nat.leb_gt; lia).
  simpl. pose proof (@seq_nth n 0 p 0 Hp) as E. simpl in E.
  rewrite <- E at 1.
  apply lookup_combine_nth.
  - apply seq_NoDup.
  - rewrite length_seq. auto.
  - rewrite length_seq. auto.
Qed.

Lemma ptr_env_fresh (n r : nat) (o s : list nat) (j : nat) :
  length o = r -> length s = n -> j < r ->
  lookup (combine (seq n r ++ seq 0 n) (o ++ s)) (n + j) = nth j o 0.
Proof.
  intros Ho Hs Hj.
  rewrite combine_app_eq by (rewrite length_seq; auto).
  rewrite lookup_app, map_fst_combine by (rewrite length_seq; auto).
  rewrite mem_seq.
  replace (n <=? n + j) with true by (symmetry; apply Nat.leb_le; lia).
  replace (n + j <? n + r) with true by (symmetry; apply Nat.ltb_lt; lia).
  simpl. rewrite <- (@seq_nth r n j 0 Hj) at 1.
  apply lookup_combine_nth.
  - apply seq_NoDup.
  - rewrite length_seq. auto.
  - rewrite length_seq. auto.
Qed.

Lemma ptr_out_labels (n : nat) (sysa : list nat) :
  let p := ptr_dot_labels n sysa n in
  let all := inds_a_ket p ++ inds_ab_bra p ++ inds_ab_ket p in
  filter (fun l => count_occ Nat.eq_dec all l =? 1) (seq 0 (S (list_max all)))
  = seq n (rank (fun i => mem i sysa) n).
Proof.
  intros p all. apply filter_seq_interval.
  - intros l _. unfold all, p. rewrite PlanInvariants.ptr_dot_counts.
    destruct (l <? n) eqn:E.
    + apply Nat.ltb_lt in E.
      replace (n <=? l) with false by (symmetry; apply Nat.leb_gt; lia).
      reflexivity.
    + destruct ((n <=? l) && (l <? n + rank (fun i => mem i sysa) n)); reflexivity.
  - intros Hr.
    assert (Hin : In (n + rank (fun i => mem i sysa) n - 1) all).
    { apply (count_occ_In Nat.eq_dec). unfold all, p.
      rewrite PlanInvariants.ptr_dot_counts.
      replace (n <=? n + rank (fun i => mem i sysa) n - 1) with true
        by (symmetry; apply Nat.leb_le; lia).
      replace (n + rank (fun i => mem i sysa) n - 1
               <? n + rank (fun i => mem i sysa) n) with true
        by (symmetry; apply Nat.ltb_lt; lia).
      simpl. lia. }
    apply In_le_list_max in Hin. lia.
Qed.

Lemma ptr_sum_labels (n : nat) (sysa : list nat) :
  let p := ptr_dot_labels n sysa n in
  let all := inds_a_ket p ++ inds_ab_bra p ++ inds_ab_ket p in
  filter (fun l => mem l all
                   && negb (mem l (seq n (rank (fun i => mem i sysa) n))))
         (seq 0 (S (list_max all)))
  = seq 0 n.
Proof.
  intros p all. apply filter_seq_interval.
  - intros l _. rewrite mem_occ, mem_seq. unfold all, p.
    rewrite PlanInvariants.ptr_dot_counts. simpl.
    destruct (l <? n) eqn:E.
    + apply Nat.ltb_lt in E.
      replace (n <=? l) with false by (symmetry; apply Nat.leb_gt; lia).
      reflexivity.
    + destruct ((n <=? l) && (l <? n + rank (fun i => mem i sysa) n)); reflexivity.
  - intros Hn.
    assert (Hin : In (n - 1) all).
    { unfold all, p. simpl. apply in_or_app. right. apply in_or_app. left.
      apply in_seq. lia. }
    apply In_le_list_max in Hin. lia.
Qed.

(** The index lists of the three operands under that assignment. *)
Lemma ptr_index_lists (n : nat) (sysa : list nat) (o s : list nat) :
  let inA := fun i => mem i sysa in
  let p := ptr_dot_labels n sysa n in
  let mask := map inA (seq 0 n) in
  let env := combine (seq n (rank inA n) ++ seq 0 n) (o ++ s) in
  length o = rank inA n -> length s = n ->
  map (lookup env) (inds_a_ket p) = select mask s /\
  map (lookup env) (inds_ab_bra p) = s /\
  map (lookup env) (inds_ab_ket p) = merge mask o (select (map negb mask) s).
Proof.
  intros inA p mask env Ho Hs. unfold p. cbn [ptr_dot_labels inds_a_ket
    inds_ab_bra inds_ab_ket]. fold inA.
  assert (Hbase : forall q, In q (seq 0 n) -> lookup env q = nth q s 0).
  { intros q Hq. apply in_seq in Hq. apply ptr_env_base; auto; lia. }
  split; [|split].
  - rewrite (map_ext_in _ (fun q => nth q s 0))
      by (intros q Hq; apply filter_In in Hq as [Hq _]; now apply Hbase).
    unfold mask. rewrite map_filter_select. f_equal.
    rewrite <- Hs. apply map_nth_seq.
  - rewrite (map_ext_in _ (fun q => nth q s 0)) by exact Hbase.
    rewrite <- Hs. apply map_nth_seq.
  - rewrite map_map.
    rewrite (map_ext_in _ (fun q => if inA q then nth (rank inA q) o 0
                                    else nth q s 0)).
    + rewrite map_if_merge. fold mask. f_equal.
      * apply map_nth_rank. exact Ho.
      * unfold mask. rewrite select_negb_map, map_filter_select. f_equal.
        rewrite <- Hs. apply map_nth_seq.
    + intros q Hq. change (mem q sysa) with (inA q). destruct (inA q) eqn:E.
      * apply in_seq in Hq. unfold fresh. apply ptr_env_fresh; auto.
        apply rank_lt; auto; lia.
      * now apply Hbase.
Qed.

(** The extent of a label of a plan: a base label has the extent of its
    position, a fresh label that of the kept position it was drawn for. *)
Definition plan_dim (dims : list nat) (keep : nat -> bool) (l : nat) : nat :=
  let n := length dims in
  if l <? n then nth l dims 0
  else nth (nth (l - n) (filter keep (seq 0 n)) 0) dims 0.

Lemma plan_dim_base (dims : list nat) (keep : nat -> bool) :
  map (plan_dim dims keep) (seq 0 (length dims)) = dims.
Proof.
  rewrite (map_ext_in _ (fun p => nth p dims 0)).
  - apply map_nth_seq.
  - intros p Hp. apply in_seq in Hp. unfold plan_dim.
    replace (p <? length dims) with true by (symmetry; apply Nat.ltb_lt; lia).
    reflexivity.
Qed.

Lemma plan_dim_fresh (dims : list nat) (keep : nat -> bool) (p : nat) :
  p < length dims -> keep p = true ->
  plan_dim dims keep (fresh (length dims) keep p) = nth p dims 0.
Proof.
  intros Hp Hk. unfold plan_dim, fresh.
  replace (length dims + rank keep p <? length dims) with false
    by (symmetry; apply Nat.ltb_ge; lia).
  replace (length dims + rank keep p - length dims) with (rank keep p) by lia.
  rewrite nth_filter_rank by assumption. reflexivity.
Qed.

Lemma plan_dim_fresh_all (dims : list nat) (keep : nat -> bool) :
  map (plan_dim dims keep) (seq (length dims) (rank keep (length dims)))
  = select (map keep (seq 0 (length dims))) dims.
Proof.
  rewrite <- PlanInvariants.map_fresh_filter, map_map.
  rewrite (select_mask_nth keep dims 0).
  apply map_ext_in. intros p Hp. apply filter_In in Hp as [Hp Hk].
  apply in_seq in Hp. apply plan_dim_fresh; [lia|exact Hk].
Qed.

Lemma in_combine_positions (g f : nat -> nat) (L : list nat) (ld : nat * nat) :
  In ld (combine (map g L) (map f L)) ->
  exists p, In p L /\ fst ld = g p /\ snd ld = f p.
Proof.
  rewrite combine_map_map. intros H. apply in_map_iff in H as (p & <- & Hp).
  exists p. auto.
Qed.

Lemma ptr_label_dims (dims sysa : list nat) (ld : nat * nat) :
  let n := length dims in
  let inA := fun i => mem i sysa in
  let p := ptr_dot_labels n sysa n in
  In ld (combine (inds_a_ket p) (select (map inA (seq 0 n)) dims)
         ++ combine (inds_ab_bra p) dims ++ combine (inds_ab_ket p) dims) ->
  snd ld = plan_dim dims inA (fst ld).
Proof.
  intros n inA p. subst n p. cbn [ptr_dot_labels inds_a_ket inds_ab_bra inds_ab_ket].
  fold inA. rewrite (select_mask_nth inA dims 0).
  set (n := length dims).
  assert (Ed : dims = map (fun q => nth q dims 0) (seq 0 n))
    by (symmetry; apply map_nth_seq).
  assert (Hb : forall q, In q (seq 0 n) -> nth q dims 0 = plan_dim dims inA q).
  { intros q Hq. apply in_seq in Hq. unfold plan_dim. fold n.
    replace (q <? n) with true by (symmetry; apply Nat.ltb_lt; lia).
    reflexivity. }
  intros H. apply in_app_or in H as [H|H]; [|apply in_app_or in H as [H|H]].
  - rewrite <- (map_id (filter inA (seq 0 n))) in H at 1.
    apply in_combine_positions in H as (q & Hq & -> & ->).
    apply filter_In in Hq as [Hq _]. now apply Hb.
  - rewrite Ed in H. rewrite <- (map_id (seq 0 n)) in H at 1.
    apply in_combine_positions in H as (q & Hq & -> & ->). now apply Hb.
  - rewrite Ed in H.
    apply in_combine_positions in H as (q & Hq & -> & ->).
    change (mem q sysa) with (inA q). destruct (inA q) eqn:E.
    + apply in_seq in Hq. symmetry. apply plan_dim_fresh; [fold n; lia|exact E].
    + now apply Hb.
Qed.

Lemma entry_conjugate (dims : list nat) (psi : list C) (idx : list nat) :
  entry (conjugate {| shape := dims; data := psi |}) idx
  = conj (ket_at dims psi idx).
Proof.
  unfold entry, conjugate, ket_at. cbn [shape data].
  rewrite <- conj_zero at 1. apply map_nth.
Qed.

(** The contraction of the plan of [lazy_ptr_dot], in closed form. *)
Lemma einsum_ptr_dot (dims sysa : list nat) (psi_ab psi_a : list C) :
  let n := length dims in
  let inA := fun i => mem i sysa in
  let mask := map inA (seq 0 n) in
  let p := ptr_dot_labels n sysa n in
  length psi_ab = prod dims ->
  length psi_a = prod (select mask dims) ->
  einsum [({| shape := select mask dims; data := psi_a |}, inds_a_ket p);
          (conjugate {| shape := dims; data := psi_ab |}, inds_ab_bra p);
          ({| shape := dims; data := psi_ab |}, inds_ab_ket p)] None
  = Returned
      {| shape := select mask dims;
         data :=
           map (fun o =>
                  csum (map (fun s =>
                               cmul (ket_at (select mask dims) psi_a (select mask s))
                                 (cmul (conj (ket_at dims psi_ab s))
                                    (cmul (ket_at dims psi_ab
                                             (merge mask o (select (map negb mask) s)))
                                          c1)))
                            (all_multi dims)))
               (all_multi (select mask dims)) |}.
Proof.
  intros n inA mask p Hab Ha. subst n mask p.
  set (p := ptr_dot_labels (length dims) sysa (length dims)).
  set (ops := [({| shape := select (map inA (seq 0 (length dims))) dims;
                   data := psi_a |}, inds_a_ket p);
               (conjugate {| shape := dims; data := psi_ab |}, inds_ab_bra p);
               ({| shape := dims; data := psi_ab |}, inds_ab_ket p)]).
  assert (Hall : flat_map snd ops
                 = inds_a_ket p ++ inds_ab_bra p ++ inds_ab_ket p).
  { unfold ops. cbn [flat_map snd]. now rewrite app_nil_r. }
  assert (HE : label_dims ops
               = combine (inds_a_ket p) (select (map inA (seq 0 (length dims))) dims)
                 ++ combine (inds_ab_bra p) dims ++ combine (inds_ab_ket p) dims).
  { unfold ops, label_dims. cbn [flat_map snd fst shape conjugate].
    now rewrite app_nil_r. }
  assert (Hfun : forall ld, In ld (label_dims ops) ->
                            snd ld = plan_dim dims inA (fst ld)).
  { intros ld Hld. rewrite HE in Hld. now apply ptr_label_dims. }
  assert (Lk : length (inds_a_ket p)
               = length (select (map inA (seq 0 (length dims))) dims)).
  { unfold p. cbn [ptr_dot_labels inds_a_ket].
    rewrite select_length_rank. reflexivity. }
  assert (Lb : length (inds_ab_bra p) = length dims).
  { unfold p. cbn [ptr_dot_labels inds_ab_bra]. apply length_seq. }
  assert (Lt : length (inds_ab_ket p) = length dims).
  { unfold p. cbn [ptr_dot_labels inds_ab_ket]. rewrite length_map. apply length_seq. }
  assert (Hocc : forall l,
             count_occ Nat.eq_dec (inds_a_ket p ++ inds_ab_bra p ++ inds_ab_ket p) l
             = (if l <? length dims then 2 else 0)
               + (if (length dims <=? l)
                     && (l <? length dims + rank inA (length dims))
                  then 1 else 0)).
  { intros l. apply PlanInvariants.ptr_dot_counts. }
  assert (Hfresh : forall l, In l (seq (length dims) (rank inA (length dims))) ->
             mem l (inds_a_ket p ++ inds_ab_bra p ++ inds_ab_ket p) = true).
  { intros l Hl. rewrite mem_occ, Hocc. apply in_seq in Hl.
    replace (length dims <=? l) with true by (symmetry; apply Nat.leb_le; lia).
    replace (l <? length dims + rank inA (length dims)) with true
      by (symmetry; apply Nat.ltb_lt; lia).
    destruct (l <? length dims); reflexivity. }
  assert (Hkeys : map fst (label_dims ops)
                  = inds_a_ket p ++ inds_ab_bra p ++ inds_ab_ket p).
  { rewrite HE, !map_app, !map_fst_combine by assumption. reflexivity. }
  assert (Hdim : forall l, In l (inds_a_ket p ++ inds_ab_bra p ++ inds_ab_ket p) ->
                           lookup (label_dims ops) l = plan_dim dims inA l).
  { intros l Hl. apply lookup_functional; [exact Hfun|]. now rewrite Hkeys. }
  assert (Hout : map (lookup (label_dims ops))
                     (seq (length dims) (rank inA (length dims)))
                 = select (map inA (seq 0 (length dims))) dims).
  { rewrite <- (plan_dim_fresh_all dims inA). apply map_ext_in. intros l Hl.
    apply Hdim. apply PlanInvariants.mem_In. now apply Hfresh. }
  assert (Hsum : map (lookup (label_dims ops)) (seq 0 (length dims)) = dims).
  { rewrite <- (plan_dim_base dims inA) at 2. apply map_ext_in. intros l Hl.
    apply Hdim. unfold p. cbn [ptr_dot_labels inds_a_ket inds_ab_bra inds_ab_ket].
    apply in_or_app. right. apply in_or_app. now left. }
  assert (Hwf : well_formed ops (seq (length dims) (rank inA (length dims))) = true).
  { unfold well_formed. rewrite Hall.
    rewrite (functional_check (label_dims ops) (plan_dim dims inA) Hfun).
    rewrite (NoDup_nodupb (seq_NoDup _ _)).
    rewrite !andb_true_r. apply andb_true_intro. split.
    - unfold ops. cbn [forallb fst snd shape data conjugate].
      rewrite Lk, Lb, Lt, length_map, Ha, Hab, !Nat.eqb_refl. reflexivity.
    - apply forallb_forall. exact Hfresh. }
  unfold einsum. rewrite Hall.
  pose proof (ptr_out_labels (length dims) sysa) as Eo.
  pose proof (ptr_sum_labels (length dims) sysa) as Es.
  cbv zeta in Eo, Es. fold p inA in Eo, Es.
  rewrite Eo, Es, Hwf, Hout, Hsum. f_equal. f_equal.
  apply map_ext_in. intros o Ho. apply csum_map_ext. intros s Hs.
  apply in_all_multi_length in Ho, Hs.
  assert (Lo : length o = rank inA (length dims)).
  { rewrite Ho. apply select_length_rank. }
  pose proof (@ptr_index_lists (length dims) sysa o s) as I. cbv zeta in I.
  destruct (I Lo Hs) as (I1 & I2 & I3). clear I.
  unfold ops, term. cbn [fold_right fst snd].
  fold p in I1, I2, I3. fold inA in I1, I2, I3.
  rewrite I1, I2, I3, entry_conjugate. reflexivity.
Qed.

Lemma prod_singleton (x : nat) : prod [x] = x.
Proof. simpl. lia. Qed.

(** C1: for kets whose sizes fit [dims] and the kept [dims],
    [lazy_ptr_dot] returns the reduced density matrix of [psi_ab] (the
    partial trace of [|psi_ab><psi_ab|] over the subsystems not in [sysa])
    applied to [psi_a]; when [dims] and [sysa] are left out they are the
    bipartition [(psi_a.size, psi_ab.size // psi_a.size)] and subsystem 0. *)
Theorem lazy_ptr_dot_explicit (psi_ab psi_a : list C) (dims : list nat)
        (sysa : subsystems) :
  length psi_ab = prod dims ->
  length psi_a = prod (dims_where (fun i => mem i (int2tup sysa)) dims) ->
  lazy_ptr_dot einsum psi_ab psi_a (Some dims) (Some sysa)
  = Returned (explicit_ptr_dot psi_ab psi_a dims (int2tup sysa)) /\
  (length psi_a <> 0 ->
   lazy_ptr_dot einsum psi_ab psi_a None None
   = lazy_ptr_dot einsum psi_ab psi_a
       (Some [length psi_a; length psi_ab / length psi_a]) (Some (Index 0))).
Proof.
  intros Hab Ha. split.
  - unfold lazy_ptr_dot. cbn [dims_or_bipartite sysa_or_default bind].
    rewrite PlannerFacts.get_cntrct_inds_ptr_dot_returns. cbn [bind].
    rewrite dims_where_select in *.
    rewrite (reshape_match _ _ Hab). cbn [bind].
    rewrite (reshape_match _ _ Ha). cbn [bind].
    rewrite einsum_ptr_dot by assumption. cbn [bind data].
    rewrite reshape_match
      by (now rewrite length_map, all_multi_length, prod_singleton).
    cbn [bind data]. f_equal.
    unfold explicit_ptr_dot, matvec, partial_trace, outer, positions_mask.
    set (mask := map (fun i => mem i (int2tup sysa)) (seq 0 (length dims))).
    assert (Hm : length mask = length dims)
      by (unfold mask; now rewrite length_map, length_seq).
    apply map_ext_in. intros o Ho.
    rewrite (csum_split mask dims _ Hm).
    apply csum_map_ext. intros a Hain.
    rewrite csum_mul_r. apply csum_map_ext. intros b Hb.
    apply in_all_multi_length in Hain, Hb.
    destruct (select_merge mask dims a b Hm Hain Hb) as (S1 & S2 & _).
    rewrite S1, S2. ring.
  - intros Hne. unfold lazy_ptr_dot. cbn [dims_or_bipartite sysa_or_default].
    destruct (length psi_a =? 0) eqn:E; [apply Nat.eqb_eq in E; contradiction|].
    reflexivity.
Qed.

(** *** The plan of [lazy_ptr_ppt_dot]: which labels are summed *)

Section PptPlan.

Variables (n : nat) (sysa sysb : list nat).

Local Abbreviation inA := (fun i => mem i sysa).
Local Abbreviation kept := (fun i => mem i sysa || mem i sysb).
Local Abbreviation inB := (fun i => (mem i sysa || mem i sysb) && negb (mem i sysa)).
Local Abbreviation notB := (fun i => negb ((mem i sysa || mem i sysb) && negb (mem i sysa))).
Local Abbreviation plan := (ptr_ppt_dot_labels n sysa sysb n).
Local Abbreviation inputs :=
  (inds_ab_ket' plan ++ inds_abc_bra plan ++ inds_abc_ket plan).

Lemma fresh_injective (q q' : nat) :
  q < n -> q' < n -> kept q = true -> kept q' = true ->
  fresh n kept q = fresh n kept q' -> q = q'.
Proof.
  intros Hq Hq' Hk Hk' E. unfold fresh in E.
  assert (Er : rank kept q = rank kept q') by lia.
  rewrite <- (nth_filter_rank kept 0 Hq Hk), <- (nth_filter_rank kept 0 Hq' Hk').
  now rewrite Er.
Qed.

Lemma fresh_bounds (q : nat) :
  q < n -> kept q = true -> n <= fresh n kept q < n + rank kept n.
Proof.
  intros Hq Hk. unfold fresh. pose proof (rank_lt kept Hq Hk). lia.
Qed.

Lemma ppt_out_In (l : nat) :
  In l (inds_out plan) <->
  exists q, q < n /\ kept q = true /\ l = (if inA q then fresh n kept q else q).
Proof.
  cbn [ptr_ppt_dot_labels inds_out]. rewrite in_map_iff. split.
  - intros (q & <- & Hq). apply filter_In in Hq as [Hq Hk]. apply in_seq in Hq.
    exists q. repeat split; [lia|exact Hk].
  - intros (q & Hq & Hk & ->). exists q. split; [reflexivity|].
    apply filter_In. split; [apply in_seq; lia|exact Hk].
Qed.

Lemma ppt_mem_out_base (l : nat) :
  l < n -> mem l (inds_out plan) = inB l.
Proof.
  intros Hl. apply eq_iff_eq_true. rewrite PlanInvariants.mem_In, ppt_out_In. split.
  - intros (q & Hq & Hk & E). pose proof (fresh_bounds Hq Hk) as Hb.
    destruct (mem q sysa) eqn:EA.
    + lia.
    + subst l. cbv beta in Hk. rewrite EA in *. simpl in Hk. rewrite Hk.
      reflexivity.
  - intros H. apply andb_prop in H as [Hk HA]. exists l.
    repeat split; auto. destruct (mem l sysa); [discriminate|reflexivity].
Qed.

Lemma ppt_mem_out_fresh (q : nat) :
  q < n -> kept q = true -> mem (fresh n kept q) (inds_out plan) = inA q.
Proof.
  intros Hq Hk. apply eq_iff_eq_true.
  rewrite PlanInvariants.mem_In, ppt_out_In. split.
  - intros (q' & Hq' & Hk' & E). pose proof (fresh_bounds Hq Hk) as Hb.
    destruct (mem q' sysa) eqn:EA.
    + apply fresh_injective in E; auto.
      * now subst q'.
      * cbv beta. rewrite EA. reflexivity.
    + lia.
  - intros HA. exists q. repeat split; auto. cbv beta in HA. now rewrite HA.
Qed.

Lemma ppt_inputs_bound (l : nat) : In l inputs -> l < n + rank kept n.
Proof.
  cbn [ptr_ppt_dot_labels inds_ab_ket' inds_abc_bra inds_abc_ket].
  intros H. apply in_app_or in H as [H|H]; [|apply in_app_or in H as [H|H]].
  - apply in_map_iff in H as (q & <- & Hq). apply filter_In in Hq as [Hq Hk].
    apply in_seq in Hq. assert (Hq' : q < n) by lia.
    pose proof (fresh_bounds Hq' Hk). destruct (mem q sysa); lia.
  - apply in_map_iff in H as (q & <- & Hq). apply in_seq in Hq.
    destruct (mem q sysa || mem q sysb) eqn:Hk; [|lia].
    assert (Hq' : q < n) by lia.
    pose proof (fresh_bounds Hq' Hk). lia.
  - apply in_seq in H. lia.
Qed.

Lemma ppt_inputs_base (l : nat) : l < n -> In l inputs.
Proof.
  intros Hl. cbn [ptr_ppt_dot_labels inds_ab_ket' inds_abc_bra inds_abc_ket].
  apply in_or_app. right. apply in_or_app. right. apply in_seq. lia.
Qed.

Lemma ppt_inputs_fresh (q : nat) :
  q < n -> kept q = true -> In (fresh n kept q) inputs.
Proof.
  intros Hq Hk. cbn [ptr_ppt_dot_labels inds_ab_ket' inds_abc_bra inds_abc_ket].
  apply in_or_app. right. apply in_or_app. left. apply in_map_iff.
  exists q. split; [|apply in_seq; lia]. cbv beta in Hk. now rewrite Hk.
Qed.

Lemma ppt_inputs_max : n + rank kept n <= S (list_max inputs).
Proof.
  destruct (rank kept n) as [|r] eqn:Er.
  - destruct (Nat.eq_dec n 0) as [E0|E0]; [lia|].
    assert (Hlt : n - 1 < n) by lia.
    pose proof (In_le_list_max _ _ (ppt_inputs_base Hlt)). lia.
  - assert (Hin : In (n + r) (seq n (rank kept n))) by (apply in_seq; lia).
    rewrite <- PlanInvariants.map_fresh_filter in Hin.
    apply in_map_iff in Hin as (q & E & Hq). apply filter_In in Hq as [Hq Hk].
    apply in_seq in Hq.
    assert (Hq' : q < n) by lia.
    pose proof (In_le_list_max _ _ (ppt_inputs_fresh Hq' Hk)). lia.
Qed.

Lemma filter_map_comm {X Y : Type} (P : Y -> bool) (f : X -> Y) (l : list X) :
  filter P (map f l) = map f (filter (fun x => P (f x)) l).
Proof.
  induction l as [|x l IH]; simpl; [reflexivity|].
  destruct (P (f x)); simpl; now rewrite IH.
Qed.

(** The summed labels, in ascending order: the base labels of the
    positions outside the second subset, then the fresh labels of the
    positions in it. *)
Lemma ppt_sum_labels :
  filter (fun l => mem l inputs && negb (mem l (inds_out plan)))
         (seq 0 (S (list_max inputs)))
  = filter notB (seq 0 n) ++ map (fresh n kept) (filter inB (seq 0 n)).
Proof.
  pose proof ppt_inputs_max as Hmax.
  assert (Hs : seq 0 (S (list_max inputs))
               = seq 0 n ++ seq n (rank kept n)
                 ++ seq (n + rank kept n) (S (list_max inputs) - n - rank kept n)).
  { rewrite <- !seq_app. f_equal. lia. }
  rewrite Hs, !filter_app. f_equal; [|rewrite <- app_nil_r; f_equal].
  - apply filter_ext_in. intros l Hl. apply in_seq in Hl.
    rewrite ppt_mem_out_base by lia.
    replace (mem l inputs) with true; [reflexivity|].
    symmetry. apply PlanInvariants.mem_In, ppt_inputs_base. lia.
  - rewrite <- PlanInvariants.map_fresh_filter, filter_map_comm. f_equal.
    rewrite PlanInvariants.filter_filter_and. apply filter_ext_in.
    intros q Hq. apply in_seq in Hq.
    destruct (mem q sysa || mem q sysb) eqn:Hk; [|reflexivity].
    rewrite ppt_mem_out_fresh by (auto; lia).
    replace (mem (fresh n kept q) inputs) with true; [reflexivity|].
    symmetry. apply PlanInvariants.mem_In, ppt_inputs_fresh; auto; lia.
  - apply filter_none. intros l Hl. apply in_seq in Hl.
    destruct (mem l inputs) eqn:E; [|reflexivity].
    apply PlanInvariants.mem_In, ppt_inputs_bound in E. lia.
Qed.

(** *** The assignment under the plan of [lazy_ptr_ppt_dot] *)

Lemma ppt_out_NoDup : NoDup (inds_out plan).
Proof.
  cbn [ptr_ppt_dot_labels inds_out].
  apply NoDup_map_NoDup_ForallPairs; [|apply NoDup_filter, seq_NoDup].
  intros q q' Hq Hq' E.
  apply filter_In in Hq as [Hq Hk], Hq' as [Hq' Hk'].
  apply in_seq in Hq, Hq'.
  assert (Hlt : q < n) by lia. assert (Hlt' : q' < n) by lia.
  pose proof (fresh_bounds Hlt Hk). pose proof (fresh_bounds Hlt' Hk').
  destruct (mem q sysa) eqn:EA, (mem q' sysa) eqn:EA'; try lia.
  apply fresh_injective; auto; cbv beta; rewrite ?EA, ?EA'; reflexivity.
Qed.

Lemma ppt_fresh_B_NoDup : NoDup (map (fresh n kept) (filter inB (seq 0 n))).
Proof.
  apply NoDup_map_NoDup_ForallPairs; [|apply NoDup_filter, seq_NoDup].
  intros q q' Hq Hq' E.
  apply filter_In in Hq as [Hq Hk], Hq' as [Hq' Hk'].
  apply in_seq in Hq, Hq'. apply andb_prop in Hk as [Hk _], Hk' as [Hk' _].
  apply fresh_injective; auto; lia.
Qed.

Section Assignment.

Variables (o s1 s2 : list nat).
Hypothesis Ho : length o = rank kept n.
Hypothesis Hs1 : length s1 = rank notB n.
Hypothesis Hs2 : length s2 = rank inB n.

Local Abbreviation sum_base := (filter notB (seq 0 n)).
Local Abbreviation sum_fresh := (map (fresh n kept) (filter inB (seq 0 n))).
Local Abbreviation env :=
  (combine (inds_out plan ++ sum_base ++ sum_fresh) (o ++ s1 ++ s2)).

Lemma ppt_out_length : length (inds_out plan) = length o.
Proof.
  cbn [ptr_ppt_dot_labels inds_out]. rewrite length_map. now rewrite Ho.
Qed.

Lemma ppt_env_split (l : nat) :
  lookup env l
  = if mem l (inds_out plan) then lookup (combine (inds_out plan) o) l
    else if mem l sum_base then lookup (combine sum_base s1) l
         else lookup (combine sum_fresh s2) l.
Proof.
  rewrite combine_app_eq by apply ppt_out_length.
  rewrite lookup_app, map_fst_combine by apply ppt_out_length.
  rewrite combine_app_eq by (now rewrite Hs1).
  rewrite lookup_app, map_fst_combine by (now rewrite Hs1).
  reflexivity.
Qed.

(** The label of the output at a kept position has the entry of [o] of
    that position. *)
Lemma ppt_env_out (q : nat) :
  q < n -> kept q = true ->
  lookup env (if inA q then fresh n kept q else q) = nth (rank kept q) o 0.
Proof.
  intros Hq Hk. rewrite ppt_env_split.
  replace (mem (if inA q then fresh n kept q else q) (inds_out plan)) with true.
  - apply (lookup_combine_positions kept
             (fun q => if inA q then fresh n kept q else q) o
             ppt_out_NoDup Ho Hq Hk).
  - symmetry. apply PlanInvariants.mem_In, ppt_out_In. exists q. auto.
Qed.

Lemma ppt_env_base (q : nat) :
  q < n -> notB q = true -> lookup env q = nth (rank notB q) s1 0.
Proof.
  intros Hq Hb. rewrite ppt_env_split, ppt_mem_out_base by exact Hq.
  cbv beta in Hb. apply negb_true_iff in Hb. rewrite Hb.
  replace (mem q sum_base) with true.
  - assert (ND : NoDup (map (fun q => q) sum_base))
      by (rewrite map_id; apply NoDup_filter, seq_NoDup).
    pose proof (lookup_combine_positions notB (fun q => q) s1 ND Hs1 Hq) as L.
    rewrite map_id in L. apply L. cbv beta. now rewrite Hb.
  - symmetry. apply PlanInvariants.mem_In, filter_In. split.
    + apply in_seq. lia.
    + cbv beta. now rewrite Hb.
Qed.

Lemma ppt_env_fresh (q : nat) :
  q < n -> inB q = true -> lookup env (fresh n kept q) = nth (rank inB q) s2 0.
Proof.
  intros Hq Hb. pose proof Hb as Hb'. apply andb_prop in Hb' as [Hk HA].
  rewrite ppt_env_split, ppt_mem_out_fresh by assumption.
  apply negb_true_iff in HA. rewrite HA.
  replace (mem (fresh n kept q) sum_base) with false.
  - apply (lookup_combine_positions inB (fresh n kept) s2
             ppt_fresh_B_NoDup Hs2 Hq Hb).
  - symmetry. destruct (mem (fresh n kept q) sum_base) eqn:E; [|reflexivity].
    apply PlanInvariants.mem_In, filter_In in E as [E _]. apply in_seq in E.
    pose proof (fresh_bounds Hq Hk). lia.
Qed.

Local Ltac by_cases_on_membership :=
  let q := fresh "q" in
  intros q; intros;
  destruct (mem q sysa), (mem q sysb); try reflexivity; try discriminate.

(** The index lists of the three operands under the assignment. *)
Lemma ppt_index_lists :
  let sub := map inA (filter kept (seq 0 n)) in
  let mAC := map inA (filter notB (seq 0 n)) in
  let keep := map kept (seq 0 n) in
  let maskB := map inB (seq 0 n) in
  map (lookup env) (inds_ab_ket' plan) = merge sub (select mAC s1) s2 /\
  map (lookup env) (inds_abc_bra plan)
  = merge keep (merge sub (select sub o) s2) (select (map negb mAC) s1) /\
  map (lookup env) (inds_abc_ket plan)
  = merge maskB (select (map negb sub) o) s1.
Proof.
  cbv zeta. cbn [ptr_ppt_dot_labels inds_ab_ket' inds_abc_bra inds_abc_ket].
  assert (FA : filter inA (filter kept (seq 0 n)) = filter inA (filter notB (seq 0 n))).
  { rewrite !PlanInvariants.filter_filter_and. apply filter_ext.
    by_cases_on_membership. }
  assert (FB : filter (fun q => negb (inA q)) (filter kept (seq 0 n))
               = filter inB (seq 0 n)).
  { rewrite PlanInvariants.filter_filter_and. reflexivity. }
  assert (FC : filter (fun q => negb (kept q)) (seq 0 n)
               = filter (fun q => negb (inA q)) (filter notB (seq 0 n))).
  { rewrite PlanInvariants.filter_filter_and. apply filter_ext.
    by_cases_on_membership. }
  assert (FB' : filter inB (seq 0 n) = filter inB (filter kept (seq 0 n))).
  { rewrite PlanInvariants.filter_filter_and. apply filter_ext.
    by_cases_on_membership. }
  assert (G2 : map (fun q => nth (rank inB q) s2 0) (filter inB (seq 0 n)) = s2)
    by (now apply map_nth_rank).
  split; [|split].
  - rewrite map_map.
    rewrite (map_ext_in _ (fun q => if inA q then nth (rank notB q) s1 0
                                    else nth (rank inB q) s2 0)).
    + rewrite map_if_merge, FA, FB, G2. f_equal.
      now apply gather_select.
    + intros q Hq. apply filter_In in Hq as [Hq Hk]. apply in_seq in Hq.
      cbv beta in *. destruct (mem q sysa) eqn:EA.
      * apply ppt_env_base; [lia|]. cbv beta. rewrite EA.
        destruct (mem q sysb); reflexivity.
      * apply ppt_env_fresh; [lia|]. cbv beta. rewrite EA in *. simpl in *.
        rewrite Hk. reflexivity.
  - rewrite map_map.
    rewrite (map_ext_in _ (fun q => if kept q
                                    then (if inA q then nth (rank kept q) o 0
                                          else nth (rank inB q) s2 0)
                                    else nth (rank notB q) s1 0)).
    + rewrite map_if_merge, map_if_merge, FB, G2, FC. f_equal.
      * f_equal. now apply gather_select.
      * rewrite select_negb_map. now apply gather_select.
    + intros q Hq. apply in_seq in Hq. assert (Hlt : q < n) by lia.
      cbv beta. destruct (mem q sysa || mem q sysb) eqn:Hk.
      * pose proof (ppt_env_out Hlt Hk) as L. cbv beta in L.
        destruct (mem q sysa) eqn:EA; [exact L|].
        apply ppt_env_fresh; [lia|]. cbv beta. rewrite EA, Hk. reflexivity.
      * apply ppt_env_base; [lia|]. cbv beta. rewrite Hk. reflexivity.
  - rewrite (map_ext_in _ (fun q => if inB q then nth (rank kept q) o 0
                                    else nth (rank notB q) s1 0)).
    + rewrite map_if_merge. f_equal.
      * rewrite FB'. rewrite gather_select by exact Ho. f_equal.
        rewrite select_negb_map. apply map_ext_in. intros q Hq.
        apply filter_In in Hq as [_ Hk]. cbv beta in *. rewrite Hk. reflexivity.
      * now apply map_nth_rank.
    + intros q Hq. apply in_seq in Hq. assert (Hlt : q < n) by lia.
      cbv beta. destruct ((mem q sysa || mem q sysb) && negb (mem q sysa)) eqn:Hb.
      * pose proof Hb as Hb'. apply andb_prop in Hb' as [Hk HA].
        apply negb_true_iff in HA.
        pose proof (ppt_env_out Hlt Hk) as L. cbv beta in L.
        rewrite HA in L. exact L.
      * apply ppt_env_base; [lia|]. cbv beta. rewrite Hb. reflexivity.
Qed.

End Assignment.

End PptPlan.

(** *** The contraction of [lazy_ptr_ppt_dot], term by term *)

Section PptContraction.

Variables (dims sysa sysb : list nat).

Local Abbreviation n := (length dims).
Local Abbreviation inA := (fun i => mem i sysa).
Local Abbreviation kept := (fun i => mem i sysa || mem i sysb).
Local Abbreviation inB := (fun i => (mem i sysa || mem i sysb) && negb (mem i sysa)).
Local Abbreviation notB := (fun i => negb ((mem i sysa || mem i sysb) && negb (mem i sysa))).
Local Abbreviation plan := (ptr_ppt_dot_labels n sysa sysb n).
Local Abbreviation inputs :=
  (inds_ab_ket' plan ++ inds_abc_bra plan ++ inds_abc_ket plan).
Local Abbreviation dim_at := (fun q => nth q dims 0).

Lemma ppt_label_dims (ld : nat * nat) :
  In ld (combine (inds_ab_ket' plan) (select (map kept (seq 0 n)) dims)
         ++ combine (inds_abc_bra plan) dims ++ combine (inds_abc_ket plan) dims) ->
  snd ld = plan_dim dims kept (fst ld).
Proof.
  cbn [ptr_ppt_dot_labels inds_ab_ket' inds_abc_bra inds_abc_ket].
  rewrite (select_mask_nth kept dims 0).
  assert (Hb : forall q, q < n -> nth q dims 0 = plan_dim dims kept q).
  { intros q Hq. unfold plan_dim.
    replace (q <? n) with true by (symmetry; apply Nat.ltb_lt; lia).
    reflexivity. }
  assert (Hf : forall q, q < n -> kept q = true ->
                         plan_dim dims kept (fresh n kept q) = nth q dims 0).
  { intros q Hq Hk. now apply (plan_dim_fresh dims kept). }
  intros H. apply in_app_or in H as [H|H]; [|apply in_app_or in H as [H|H]].
  - apply in_combine_positions in H as (q & Hq & -> & ->).
    apply filter_In in Hq as [Hq Hk]. apply in_seq in Hq.
    specialize (Hf q ltac:(lia) Hk). specialize (Hb q ltac:(lia)).
    destruct (mem q sysa); [exact Hb|now symmetry].
  - match type of H with
    | In _ (combine ?X dims) =>
        replace (combine X dims) with (combine X (map dim_at (seq 0 n))) in H
          by (f_equal; apply map_nth_seq)
    end.
    apply in_combine_positions in H as (q & Hq & -> & ->). apply in_seq in Hq.
    specialize (Hb q ltac:(lia)).
    destruct (mem q sysa || mem q sysb) eqn:Hk; [|exact Hb].
    symmetry. apply Hf; [lia|exact Hk].
  - replace (combine (seq 0 n) dims)
      with (combine (map (fun q => q) (seq 0 n)) (map dim_at (seq 0 n))) in H
      by (rewrite map_id; f_equal; apply map_nth_seq).
    apply in_combine_positions in H as (q & Hq & -> & ->). apply in_seq in Hq.
    apply Hb. lia.
Qed.

Variables (psi_abc psi_ab : list C).
Hypothesis Habc : length psi_abc = prod dims.
Hypothesis Hab : length psi_ab = prod (select (map kept (seq 0 n)) dims).

Local Abbreviation sub := (map inA (filter kept (seq 0 n))).
Local Abbreviation mAC := (map inA (filter notB (seq 0 n))).
Local Abbreviation keep := (map kept (seq 0 n)).
Local Abbreviation maskB := (map inB (seq 0 n)).
Local Abbreviation dims_ab := (select keep dims).
Local Abbreviation ops :=
  [({| shape := dims_ab; data := psi_ab |}, inds_ab_ket' plan);
   (conjugate {| shape := dims; data := psi_abc |}, inds_abc_bra plan);
   ({| shape := dims; data := psi_abc |}, inds_abc_ket plan)].

Lemma ppt_all_labels : flat_map snd ops = inputs.
Proof. cbn [flat_map snd]. now rewrite app_nil_r. Qed.

Lemma ppt_label_dims_eq :
  label_dims ops
  = combine (inds_ab_ket' plan) dims_ab
    ++ combine (inds_abc_bra plan) dims ++ combine (inds_abc_ket plan) dims.
Proof.
  unfold label_dims. cbn [flat_map snd fst shape conjugate]. now rewrite app_nil_r.
Qed.

Lemma ppt_lookup_dim (l : nat) :
  In l inputs -> lookup (label_dims ops) l = plan_dim dims kept l.
Proof.
  intros Hl. apply lookup_functional.
  - intros ld Hld. rewrite ppt_label_dims_eq in Hld. now apply ppt_label_dims.
  - rewrite ppt_label_dims_eq, !map_app, !map_fst_combine; [exact Hl| | |].
    + cbn [ptr_ppt_dot_labels inds_abc_ket]. apply length_seq.
    + cbn [ptr_ppt_dot_labels inds_abc_bra]. rewrite length_map. apply length_seq.
    + cbn [ptr_ppt_dot_labels inds_ab_ket']. rewrite length_map.
      symmetry. apply (select_length_rank kept dims).
Qed.

Lemma ppt_out_dims : map (lookup (label_dims ops)) (inds_out plan) = dims_ab.
Proof.
  transitivity (map dim_at (filter kept (seq 0 n)));
    [|symmetry; apply (select_mask_nth kept dims 0)].
  cbn [ptr_ppt_dot_labels inds_out]. rewrite map_map. apply map_ext_in.
  intros q Hq. apply filter_In in Hq as [Hq Hk]. apply in_seq in Hq.
  assert (Hlt : q < n) by lia.
  pose proof (@ppt_inputs_base n sysa sysb q Hlt) as I1.
  pose proof (@ppt_inputs_fresh n sysa sysb q Hlt Hk) as I2.
  pose proof (plan_dim_fresh dims kept Hlt Hk) as F.
  destruct (mem q sysa).
  - rewrite ppt_lookup_dim by exact I2. exact F.
  - rewrite ppt_lookup_dim by exact I1. unfold plan_dim.
    replace (q <? n) with true by (symmetry; apply Nat.ltb_lt; lia).
    reflexivity.
Qed.

Lemma ppt_sum_dims :
  map (lookup (label_dims ops))
      (filter notB (seq 0 n) ++ map (fresh n kept) (filter inB (seq 0 n)))
  = select (map notB (seq 0 n)) dims ++ select maskB dims.
Proof.
  rewrite map_app, (select_mask_nth notB dims 0), (select_mask_nth inB dims 0).
  f_equal.
  - apply map_ext_in. intros q Hq. apply filter_In in Hq as [Hq _].
    apply in_seq in Hq. assert (Hlt : q < n) by lia.
    rewrite ppt_lookup_dim by (now apply ppt_inputs_base). unfold plan_dim.
    replace (q <? n) with true by (symmetry; apply Nat.ltb_lt; lia).
    reflexivity.
  - rewrite map_map. apply map_ext_in. intros q Hq.
    apply filter_In in Hq as [Hq Hb]. apply in_seq in Hq.
    apply andb_prop in Hb as [Hk _]. assert (Hlt : q < n) by lia.
    rewrite ppt_lookup_dim by (now apply ppt_inputs_fresh).
    now apply (plan_dim_fresh dims kept).
Qed.

Lemma ppt_well_formed : well_formed ops (inds_out plan) = true.
Proof.
  unfold well_formed. rewrite ppt_all_labels.
  rewrite (functional_check (label_dims ops) (plan_dim dims kept))
    by (intros ld Hld; rewrite ppt_label_dims_eq in Hld; now apply ppt_label_dims).
  rewrite (NoDup_nodupb (@ppt_out_NoDup n sysa sysb)).
  rewrite !andb_true_r. apply andb_true_intro. split.
  - cbn [forallb fst snd shape data conjugate].
    cbn [ptr_ppt_dot_labels inds_ab_ket' inds_abc_bra inds_abc_ket].
    rewrite !length_map, length_seq, Habc, Hab, !Nat.eqb_refl.
    rewrite (select_length_rank kept dims). unfold rank.
    rewrite Nat.eqb_refl. reflexivity.
  - apply forallb_forall. intros l Hl. apply PlanInvariants.mem_In.
    apply ppt_out_In in Hl as (q & Hq & Hk & ->).
    pose proof (@ppt_inputs_base n sysa sysb q Hq) as I1.
    pose proof (@ppt_inputs_fresh n sysa sysb q Hq Hk) as I2.
    destruct (mem q sysa); assumption.
Qed.

(** The contraction of the plan of [lazy_ptr_ppt_dot], in closed form: the
    sum runs over the indices [s1] of the positions outside the second
    subset and the indices [s2] of the positions in it. *)
Lemma einsum_ptr_ppt_dot :
  einsum ops (Some (inds_out plan))
  = Returned
      {| shape := dims_ab;
         data :=
           map (fun o =>
                  csum (map (fun s1 =>
                    csum (map (fun s2 =>
                      cmul (ket_at dims_ab psi_ab (merge sub (select mAC s1) s2))
                        (cmul (conj (ket_at dims psi_abc
                                       (merge keep (merge sub (select sub o) s2)
                                              (select (map negb mAC) s1))))
                           (cmul (ket_at dims psi_abc
                                    (merge maskB (select (map negb sub) o) s1))
                                 c1)))
                      (all_multi (select maskB dims))))
                    (all_multi (select (map notB (seq 0 n)) dims))))
               (all_multi dims_ab) |}.
Proof.
  unfold einsum. rewrite ppt_all_labels.
  rewrite (@ppt_sum_labels n sysa sysb), ppt_well_formed, ppt_out_dims, ppt_sum_dims.
  f_equal. f_equal. apply map_ext_in. intros o Ho.
  rewrite all_multi_app, csum_flat_map. apply csum_map_ext. intros s1 H1.
  rewrite map_map. apply csum_map_ext. intros s2 H2.
  apply in_all_multi_length in Ho, H1, H2.
  rewrite (select_length_rank kept dims) in Ho.
  rewrite (select_length_rank notB dims) in H1.
  rewrite (select_length_rank inB dims) in H2.
  pose proof (@ppt_index_lists n sysa sysb o s1 s2 Ho H1 H2) as I.
  cbv zeta in I. destruct I as (I1 & I2 & I3).
  unfold term. cbn [fold_right fst snd].
  rewrite I1, I2, I3, entry_conjugate. reflexivity.
Qed.

Lemma ppt_dims_split :
  select mAC (select (map notB (seq 0 n)) dims) = select sub dims_ab /\
  select (map negb mAC) (select (map notB (seq 0 n)) dims)
  = select (map negb keep) dims /\
  select (map negb sub) dims_ab = select maskB dims.
Proof.
  rewrite !select_negb_map.
  rewrite (select_mask_nth notB dims 0), (select_mask_nth kept dims 0),
    (select_mask_nth inB dims 0), (select_mask_nth (fun p => negb (kept p)) dims 0).
  rewrite <- !map_filter_select.
  rewrite !PlanInvariants.filter_filter_and.
  repeat split; f_equal; apply filter_ext; intros q;
    destruct (mem q sysa), (mem q sysb); reflexivity.
Qed.

Lemma ppt_part_lengths (o a c : list nat) :
  length o = length dims_ab ->
  length a = length (select sub dims_ab) ->
  length c = length (select (map negb keep) dims) ->
  length a = length (filter inA (seq 0 n)) /\
  length (select (map negb sub) o) = length (filter inB (seq 0 n)) /\
  length c = length (filter (fun q => negb (kept q)) (seq 0 n)).
Proof.
  intros Ho Ha Hc.
  assert (Lk : length (filter kept (seq 0 n)) = length dims_ab).
  { symmetry. apply (select_length_rank kept dims). }
  split; [|split].
  - rewrite Ha, select_length_filter by exact Lk.
    rewrite PlanInvariants.filter_filter_and. f_equal. apply filter_ext.
    intros q. destruct (mem q sysa), (mem q sysb); reflexivity.
  - rewrite select_negb_map, select_length_filter by (now rewrite Ho).
    rewrite PlanInvariants.filter_filter_and. reflexivity.
  - rewrite Hc, select_negb_map. apply select_length_filter, length_seq.
Qed.

(** The closed form of the contraction is the explicit operator applied
    to the ket. *)
Lemma ppt_contraction_explicit :
  map (fun o =>
         csum (map (fun s1 =>
           csum (map (fun s2 =>
             cmul (ket_at dims_ab psi_ab (merge sub (select mAC s1) s2))
               (cmul (conj (ket_at dims psi_abc
                              (merge keep (merge sub (select sub o) s2)
                                     (select (map negb mAC) s1))))
                  (cmul (ket_at dims psi_abc
                           (merge maskB (select (map negb sub) o) s1))
                        c1)))
             (all_multi (select maskB dims))))
           (all_multi (select (map notB (seq 0 n)) dims))))
      (all_multi dims_ab)
  = explicit_ptr_ppt_dot psi_abc psi_ab dims sysa sysb.
Proof.
  unfold explicit_ptr_ppt_dot, matvec, partial_transpose, partial_trace, outer,
    positions_mask.
  rewrite <- (map_filter_select inA kept (seq 0 n)).
  destruct ppt_dims_split as (D1 & D2 & D3).
  assert (LmAC : length mAC = length (select (map notB (seq 0 n)) dims)).
  { rewrite length_map. symmetry. apply (select_length_rank notB dims). }
  assert (Lsub : length sub = length dims_ab).
  { rewrite length_map. symmetry. apply (select_length_rank kept dims). }
  apply map_ext_in. intros o Ho.
  rewrite (csum_split mAC _ _ LmAC).
  rewrite (csum_split sub dims_ab _ Lsub).
  rewrite D1, D2, D3.
  apply csum_map_ext. intros a Ha.
  rewrite csum_swap.
  apply csum_map_ext. intros b Hb.
  rewrite csum_mul_r.
  apply csum_map_ext. intros c Hc.
  apply in_all_multi_length in Ho, Ha, Hb, Hc.
  destruct (select_merge mAC (select (map notB (seq 0 n)) dims) a c LmAC)
    as (S1 & S2 & _); [now rewrite D1|now rewrite D2|].
  destruct (select_merge sub dims_ab a b Lsub Ha) as (S3 & S4 & _);
    [now rewrite D3|].
  rewrite S1, S2, S3, S4.
  destruct (ppt_part_lengths o a c Ho Ha Hc) as (La & Lb & Lc).
  pose proof (@merge_three nat inA inB kept (seq 0 n)) as M3.
  cbv beta in M3.
  rewrite (M3 ltac:(intros q _; destruct (mem q sysa), (mem q sysb); reflexivity)
              ltac:(intros q _ E; rewrite E; apply andb_false_r)
              a (select (map negb sub) o) c La Lb Lc).
  ring.
Qed.

End PptContraction.

(** C2: for kets whose sizes fit [dims] and the kept [dims],
    [lazy_ptr_ppt_dot] returns the operator obtained from
    [|psi_abc><psi_abc|] by the partial trace over the subsystems in
    neither subset and the partial transpose on the subsystems of [sysa],
    applied to [psi_ab]; the axes of the result are the kept subsystems in
    ascending order. *)
Theorem lazy_ptr_ppt_dot_explicit (psi_abc psi_ab : list C) (dims : list nat)
        (sysa sysb : subsystems) :
  length psi_abc = prod dims ->
  length psi_ab
  = prod (dims_where (fun i => mem i (int2tup sysa) || mem i (int2tup sysb)) dims) ->
  lazy_ptr_ppt_dot einsum psi_abc psi_ab dims sysa sysb
  = Returned (explicit_ptr_ppt_dot psi_abc psi_ab dims (int2tup sysa) (int2tup sysb)).
Proof.
  intros Habc Hab. unfold lazy_ptr_ppt_dot.
  rewrite PlannerFacts.get_cntrct_inds_ptr_ppt_dot_returns. cbn [bind].
  rewrite dims_where_select in *.
  rewrite (reshape_match _ _ Habc). cbn [bind].
  rewrite (reshape_match _ _ Hab). cbn [bind].
  rewrite einsum_ptr_ppt_dot by assumption. cbn [bind data].
  rewrite reshape_match
    by (now rewrite length_map, all_multi_length, prod_singleton).
  cbn [bind data]. f_equal.
  now apply ppt_contraction_explicit.
Qed.

(** *** The lazy contractions are linear in the ket they act on *)

(** [u + v] and [k * u] on arrays of one shape. *)
Definition vadd (u v : list C) : list C :=
  map (fun xy => cadd (fst xy) (snd xy)) (combine u v).

Definition vscale (k : C) (u : list C) : list C := map (cmul k) u.

Lemma ket_at_vadd (dims : list nat) (u v : list C) (idx : list nat) :
  length u = length v ->
  ket_at dims (vadd u v) idx = cadd (ket_at dims u idx) (ket_at dims v idx).
Proof.
  intros H. unfold ket_at, vadd.
  transitivity (nth (ravel dims idx)
                    (map (fun xy => cadd (fst xy) (snd xy)) (combine u v))
                    ((fun xy => cadd (fst xy) (snd xy)) (c0, c0))).
  - f_equal. simpl. ring.
  - etransitivity;
      [apply (map_nth (fun xy => cadd (fst xy) (snd xy)) (combine u v) (c0, c0))|].
    rewrite combine_nth by assumption. reflexivity.
Qed.

Lemma ket_at_vscale (dims : list nat) (k : C) (u : list C) (idx : list nat) :
  ket_at dims (vscale k u) idx = cmul k (ket_at dims u idx).
Proof.
  unfold ket_at, vscale.
  transitivity (nth (ravel dims idx) (map (cmul k) u) (cmul k c0)).
  - f_equal. ring.
  - apply map_nth.
Qed.

Lemma matvec_vadd (dims : list nat) (rho : matrix) (u v : list C) :
  length u = length v ->
  matvec dims rho (vadd u v) = vadd (matvec dims rho u) (matvec dims rho v).
Proof.
  intros H. unfold matvec. unfold vadd at 2.
  rewrite combine_map_map, map_map. apply map_ext. intros r. cbn [fst snd].
  rewrite <- csum_map_add. apply csum_map_ext. intros c _.
  rewrite ket_at_vadd by assumption. ring.
Qed.

Lemma matvec_vscale (dims : list nat) (rho : matrix) (k : C) (u : list C) :
  matvec dims rho (vscale k u) = vscale k (matvec dims rho u).
Proof.
  unfold matvec. unfold vscale at 2. rewrite map_map. apply map_ext. intros r.
  rewrite csum_mul_l. apply csum_map_ext. intros c _.
  rewrite ket_at_vscale. ring.
Qed.

Lemma length_vadd (u v : list C) :
  length u = length v -> length (vadd u v) = length u.
Proof.
  intros H. unfold vadd. rewrite length_map, length_combine. lia.
Qed.

Lemma length_vscale (k : C) (u : list C) : length (vscale k u) = length u.
Proof. apply length_map. Qed.

(** With the reference [einsum], kets whose sizes fit are contracted to
    the explicit operator applied to the second ket. *)
Lemma lazy_ptr_dot_returns (psi_ab psi_a : list C) (dims sysa : list nat) :
  length psi_ab = prod dims ->
  length psi_a = prod (dims_where (fun i => mem i sysa) dims) ->
  lazy_ptr_dot einsum psi_ab psi_a (Some dims) (Some (Indices sysa))
  = Returned (explicit_ptr_dot psi_ab psi_a dims sysa).
Proof.
  intros Hab Ha. unfold lazy_ptr_dot.
  cbn [dims_or_bipartite sysa_or_default bind int2tup].
  rewrite PlannerFacts.get_cntrct_inds_ptr_dot_returns. cbn [bind].
  rewrite dims_where_select in *.
  rewrite (reshape_match _ _ Hab). cbn [bind].
  rewrite (reshape_match _ _ Ha). cbn [bind].
  rewrite einsum_ptr_dot by assumption. cbn [bind data].
  rewrite reshape_match
    by (now rewrite length_map, all_multi_length, prod_singleton).
  cbn [bind data]. f_equal.
  unfold explicit_ptr_dot, matvec, partial_trace, outer, positions_mask.
  set (mask := map (fun i => mem i sysa) (seq 0 (length dims))).
  assert (Hm : length mask = length dims)
    by (unfold mask; now rewrite length_map, length_seq).
  apply map_ext_in. intros o Ho.
  rewrite (csum_split mask dims _ Hm).
  apply csum_map_ext. intros a Hain.
  rewrite csum_mul_r. apply csum_map_ext. intros b Hb.
  apply in_all_multi_length in Hain, Hb.
  destruct (select_merge mask dims a b Hm Hain Hb) as (S1 & S2 & _).
  rewrite S1, S2. ring.
Qed.

Lemma lazy_ptr_ppt_dot_returns (psi_abc psi_ab : list C)
      (dims sysa sysb : list nat) :
  length psi_abc = prod dims ->
  length psi_ab = prod (dims_where (fun i => mem i sysa || mem i sysb) dims) ->
  lazy_ptr_ppt_dot einsum psi_abc psi_ab dims (Indices sysa) (Indices sysb)
  = Returned (explicit_ptr_ppt_dot psi_abc psi_ab dims sysa sysb).
Proof.
  intros Habc Hab. unfold lazy_ptr_ppt_dot. cbn [int2tup].
  rewrite PlannerFacts.get_cntrct_inds_ptr_ppt_dot_returns. cbn [bind].
  rewrite dims_where_select in *.
  rewrite (reshape_match _ _ Habc). cbn [bind].
  rewrite (reshape_match _ _ Hab). cbn [bind].
  rewrite einsum_ptr_ppt_dot by assumption. cbn [bind data].
  rewrite reshape_match
    by (now rewrite length_map, all_multi_length, prod_singleton).
  cbn [bind data]. f_equal.
  now apply ppt_contraction_explicit.
Qed.

(** [lazy_ptr_dot] is linear in the ket it acts on: for [u] and [v] of the
    size of the kept subsystems it returns, and the result for [u + v] is
    the sum of the results, the result for [k * u] is [k] times the
    result. *)
Theorem lazy_ptr_dot_linear (psi_ab u v : list C) (k : C) (dims sysa : list nat) :
  length psi_ab = prod dims ->
  length u = prod (dims_where (fun i => mem i sysa) dims) ->
  length v = length u ->
  exists yu yv,
    lazy_ptr_dot einsum psi_ab u (Some dims) (Some (Indices sysa)) = Returned yu /\
    lazy_ptr_dot einsum psi_ab v (Some dims) (Some (Indices sysa)) = Returned yv /\
    lazy_ptr_dot einsum psi_ab (vadd u v) (Some dims) (Some (Indices sysa))
    = Returned (vadd yu yv) /\
    lazy_ptr_dot einsum psi_ab (vscale k u) (Some dims) (Some (Indices sysa))
    = Returned (vscale k yu).
Proof.
  intros Hab Hu Hv.
  exists (explicit_ptr_dot psi_ab u dims sysa),
         (explicit_ptr_dot psi_ab v dims sysa).
  rewrite !lazy_ptr_dot_returns
    by (rewrite ?length_vadd, ?length_vscale; congruence).
  unfold explicit_ptr_dot.
  rewrite matvec_vadd by congruence. rewrite matvec_vscale. repeat split.
Qed.

(** [lazy_ptr_ppt_dot] is linear in the ket it acts on, in the same
    sense. *)
Theorem lazy_ptr_ppt_dot_linear (psi_abc u v : list C) (k : C)
        (dims sysa sysb : list nat) :
  length psi_abc = prod dims ->
  length u = prod (dims_where (fun i => mem i sysa || mem i sysb) dims) ->
  length v = length u ->
  exists yu yv,
    lazy_ptr_ppt_dot einsum psi_abc u dims (Indices sysa) (Indices sysb)
    = Returned yu /\
    lazy_ptr_ppt_dot einsum psi_abc v dims (Indices sysa) (Indices sysb)
    = Returned yv /\
    lazy_ptr_ppt_dot einsum psi_abc (vadd u v) dims (Indices sysa) (Indices sysb)
    = Returned (vadd yu yv) /\
    lazy_ptr_ppt_dot einsum psi_abc (vscale k u) dims (Indices sysa) (Indices sysb)
    = Returned (vscale k yu).
Proof.
  intros Hab Hu Hv.
  exists (explicit_ptr_ppt_dot psi_abc u dims sysa sysb),
         (explicit_ptr_ppt_dot psi_abc v dims sysa sysb).
  rewrite !lazy_ptr_ppt_dot_returns
    by (rewrite ?length_vadd, ?length_vscale; congruence).
  unfold explicit_ptr_ppt_dot.
  rewrite matvec_vadd by congruence. rewrite matvec_vscale. repeat split.
Qed.

End Laws.

(** The inner product, conjugate-linear in its first argument. *)
Definition inner (u v : list C) : C :=
  csum (map (fun uv => cmul (conj (fst uv)) (snd uv)) (combine u v)).

(** *** Conjugation: the operators are Hermitian, and what [_adjoint] gives *)

Section Conjugation.

(** The scalars form a commutative semiring on which [conj] is an
    involution that respects sums and products; the complex numbers do. *)
Hypothesis C_semiring : semi_ring_theory c0 c1 cadd cmul eq.
Hypothesis conj_zero : conj c0 = c0.
Hypothesis conj_add : forall x y, conj (cadd x y) = cadd (conj x) (conj y).
Hypothesis conj_mul : forall x y, conj (cmul x y) = cmul (conj x) (conj y).
Hypothesis conj_invol : forall x, conj (conj x) = x.

Add Ring C_conj_ring : C_semiring.

Lemma conj_csum {X : Type} (f : X -> C) (l : list X) :
  conj (csum (map f l)) = csum (map (fun x => conj (f x)) l).
Proof.
  induction l as [|x l IH]; simpl; [exact conj_zero|].
  now rewrite conj_add, IH.
Qed.

Lemma flat_map_seq_blocks (P a d : nat) :
  flat_map (fun i => seq (i * P) P) (seq a d) = seq (a * P) (d * P).
Proof.
  revert a. induction d as [|d IH]; intros a; simpl; [reflexivity|].
  rewrite IH, seq_app. do 2 f_equal. lia.
Qed.

Lemma map_flat_map {X Y Z : Type} (f : Y -> Z) (g : X -> list Y) (l : list X) :
  map f (flat_map g l) = flat_map (fun x => map f (g x)) l.
Proof.
  induction l as [|x l IH]; simpl; [reflexivity|]. now rewrite map_app, IH.
Qed.

(** The multi-indices of a shape, in order, have the flat positions
    [0, 1, ...]. *)
Lemma ravel_all_multi (dims : list nat) :
  map (ravel dims) (all_multi dims) = seq 0 (prod dims).
Proof.
  induction dims as [|d ds IH]; [reflexivity|].
  cbn [all_multi]. rewrite map_flat_map.
  rewrite (flat_map_ext _ (fun i => seq (i * prod ds) (prod ds))).
  - apply (flat_map_seq_blocks (prod ds) 0 d).
  - intros i. rewrite map_map. cbn [ravel].
    replace (seq (i * prod ds) (prod ds))
      with (map (fun r => i * prod ds + r) (seq 0 (prod ds)))
      by (rewrite PlanInvariants.map_add_seq; f_equal; lia).
    rewrite <- IH, map_map. reflexivity.
Qed.

Lemma ket_at_tabulate (dims : list nat) (u : list C) :
  length u = prod dims -> map (ket_at dims u) (all_multi dims) = u.
Proof.
  intros H. unfold ket_at.
  rewrite <- (map_map (ravel dims) (fun p => nth p u c0)).
  rewrite ravel_all_multi, <- H. apply map_nth_seq.
Qed.

Lemma inner_tabulate (dims : list nat) (u : list C) (F : list nat -> C) :
  length u = prod dims ->
  inner u (map F (all_multi dims))
  = csum (map (fun o => cmul (conj (ket_at dims u o)) (F o)) (all_multi dims)).
Proof.
  intros H. unfold inner.
  replace (combine u (map F (all_multi dims)))
    with (combine (map (ket_at dims u) (all_multi dims)) (map F (all_multi dims)))
    by (now rewrite ket_at_tabulate).
  rewrite combine_map_map, map_map. reflexivity.
Qed.

Lemma inner_tabulate_l (dims : list nat) (v : list C) (F : list nat -> C) :
  length v = prod dims ->
  inner (map F (all_multi dims)) v
  = csum (map (fun o => cmul (conj (F o)) (ket_at dims v o)) (all_multi dims)).
Proof.
  intros H. unfold inner.
  replace (combine (map F (all_multi dims)) v)
    with (combine (map F (all_multi dims)) (map (ket_at dims v) (all_multi dims)))
    by (now rewrite ket_at_tabulate).
  rewrite combine_map_map, map_map. reflexivity.
Qed.

Lemma ket_at_conj (dims : list nat) (psi : list C) (idx : list nat) :
  ket_at dims (map conj psi) idx = conj (ket_at dims psi idx).
Proof.
  unfold ket_at. rewrite <- conj_zero at 1. apply map_nth.
Qed.

(** Matrices that are their own conjugate transpose. *)
Definition hermitian (rho : matrix) : Prop :=
  forall r c, conj (rho r c) = rho c r.

Lemma outer_hermitian (dims : list nat) (psi : list C) :
  hermitian (outer dims psi).
Proof.
  intros r c. unfold outer. rewrite conj_mul, conj_invol. ring.
Qed.

Lemma partial_trace_hermitian (dims : list nat) (keep : list bool) (rho : matrix) :
  hermitian rho -> hermitian (partial_trace dims keep rho).
Proof.
  intros H r c. unfold partial_trace. rewrite conj_csum.
  apply csum_map_ext. intros t _. apply H.
Qed.

Lemma partial_transpose_hermitian (sub : list bool) (rho : matrix) :
  hermitian rho -> hermitian (partial_transpose sub rho).
Proof. intros H r c. unfold partial_transpose. apply H. Qed.

Lemma matvec_hermitian (dims : list nat) (rho : matrix) (u v : list C) :
  hermitian rho -> length u = prod dims -> length v = prod dims ->
  inner u (matvec dims rho v) = inner (matvec dims rho u) v.
Proof.
  intros H Hu Hv. unfold matvec.
  rewrite inner_tabulate, inner_tabulate_l by assumption.
  transitivity
    (csum (map (fun o =>
                  csum (map (fun c => cmul (conj (ket_at dims u o))
                                           (cmul (rho o c) (ket_at dims v c)))
                            (all_multi dims)))
               (all_multi dims))).
  { apply csum_map_ext. intros o _. apply (csum_mul_l C_semiring). }
  rewrite (csum_swap C_semiring). apply csum_map_ext. intros o _.
  rewrite conj_csum, (csum_mul_r C_semiring). apply csum_map_ext. intros c _.
  rewrite conj_mul, H. ring.
Qed.

Lemma matvec_conj (dims : list nat) (rho rho' : matrix) (u : list C) :
  (forall r c, rho' r c = conj (rho r c)) ->
  matvec dims rho' u = map conj (matvec dims rho (map conj u)).
Proof.
  intros H. unfold matvec. rewrite map_map. apply map_ext. intros r.
  rewrite conj_csum. apply csum_map_ext. intros c _.
  rewrite conj_mul, ket_at_conj, conj_invol, H. reflexivity.
Qed.

Lemma outer_conj (dims : list nat) (psi : list C) (r c : list nat) :
  outer dims (map conj psi) r c = conj (outer dims psi r c).
Proof.
  unfold outer. now rewrite conj_mul, !ket_at_conj.
Qed.

Lemma partial_trace_conj (dims : list nat) (keep : list bool) (rho rho' : matrix) :
  (forall r c, rho' r c = conj (rho r c)) ->
  forall r c, partial_trace dims keep rho' r c
              = conj (partial_trace dims keep rho r c).
Proof.
  intros H r c. unfold partial_trace. rewrite conj_csum.
  apply csum_map_ext. intros t _. apply H.
Qed.

(** The operator of [LazyPtrOperatr] is Hermitian: for [u] and [v] of its
    size both products return, and [<u, Op v> = <Op u, v>]. *)
Theorem LazyPtrOperatr_hermitian (psi_ab u v : list C) (dims : list nat)
        (sysa : subsystems) :
  length psi_ab = prod dims ->
  length u = prod (dims_where (fun i => mem i (int2tup sysa)) dims) ->
  length v = prod (dims_where (fun i => mem i (int2tup sysa)) dims) ->
  exists x y,
    LazyPtrOperatr_matvec einsum (LazyPtrOperatr_init psi_ab dims sysa) u
    = Returned x /\
    LazyPtrOperatr_matvec einsum (LazyPtrOperatr_init psi_ab dims sysa) v
    = Returned y /\
    inner u y = inner x v.
Proof.
  intros Hab Hu Hv.
  unfold LazyPtrOperatr_matvec, LazyPtrOperatr_init.
  cbn [ptr_psi_ab ptr_dims ptr_sysa].
  rewrite !(lazy_ptr_dot_returns C_semiring conj_zero) by assumption.
  do 2 eexists. split; [reflexivity|]. split; [reflexivity|].
  unfold explicit_ptr_dot. rewrite dims_where_select in Hu, Hv.
  apply matvec_hermitian; try assumption.
  apply partial_trace_hermitian, outer_hermitian.
Qed.

(** The operator of [LazyPtrPptOperator] is Hermitian as well. *)
Theorem LazyPtrPptOperator_hermitian (psi_abc u v : list C) (dims : list nat)
        (sysa sysb : subsystems) :
  length psi_abc = prod dims ->
  length u
  = prod (dims_where (fun i => mem i (int2tup sysa) || mem i (int2tup sysb)) dims) ->
  length v
  = prod (dims_where (fun i => mem i (int2tup sysa) || mem i (int2tup sysb)) dims) ->
  exists x y,
    LazyPtrPptOperator_matvec einsum
      (LazyPtrPptOperator_init psi_abc dims sysa sysb) u = Returned x /\
    LazyPtrPptOperator_matvec einsum
      (LazyPtrPptOperator_init psi_abc dims sysa sysb) v = Returned y /\
    inner u y = inner x v.
Proof.
  intros Habc Hu Hv.
  unfold LazyPtrPptOperator_matvec, LazyPtrPptOperator_init.
  cbn [ppt_psi_abc ppt_dims ppt_sysa ppt_sysb].
  rewrite !(lazy_ptr_ppt_dot_returns C_semiring conj_zero) by assumption.
  do 2 eexists. split; [reflexivity|]. split; [reflexivity|].
  unfold explicit_ptr_ppt_dot. rewrite dims_where_select in Hu, Hv.
  apply matvec_hermitian; try assumption.
  apply partial_transpose_hermitian, partial_trace_hermitian, outer_hermitian.
Qed.

(** What [_adjoint] of [LazyPtrOperatr] gives is the complex conjugate of
    the operator: applied to [u] it returns the conjugate of what the
    operator returns for the conjugate of [u]. *)
Theorem LazyPtrOperatr_adjoint_conjugate (psi_ab u : list C) (dims : list nat)
        (sysa : subsystems) :
  length psi_ab = prod dims ->
  length u = prod (dims_where (fun i => mem i (int2tup sysa)) dims) ->
  exists y,
    LazyPtrOperatr_matvec einsum (LazyPtrOperatr_init psi_ab dims sysa)
                          (map conj u) = Returned y /\
    LazyPtrOperatr_matvec einsum
      (LazyPtrOperatr_adjoint (LazyPtrOperatr_init psi_ab dims sysa)) u
    = Returned (map conj y).
Proof.
  intros Hab Hu.
  unfold LazyPtrOperatr_matvec, LazyPtrOperatr_adjoint, LazyPtrOperatr_init.
  cbn [ptr_psi_ab ptr_dims ptr_sysa int2tup].
  rewrite !(lazy_ptr_dot_returns C_semiring conj_zero)
    by (rewrite ?length_map; assumption).
  eexists. split; [reflexivity|]. f_equal.
  unfold explicit_ptr_dot. apply matvec_conj.
  apply partial_trace_conj. apply outer_conj.
Qed.

(** [_adjoint] of [LazyPtrPptOperator] gives the complex conjugate of the
    operator in the same sense. *)
Theorem LazyPtrPptOperator_adjoint_conjugate (psi_abc u : list C)
        (dims : list nat) (sysa sysb : subsystems) :
  length psi_abc = prod dims ->
  length u
  = prod (dims_where (fun i => mem i (int2tup sysa) || mem i (int2tup sysb)) dims) ->
  exists y,
    LazyPtrPptOperator_matvec einsum
      (LazyPtrPptOperator_init psi_abc dims sysa sysb) (map conj u) = Returned y /\
    LazyPtrPptOperator_matvec einsum
      (LazyPtrPptOperator_adjoint (LazyPtrPptOperator_init psi_abc dims sysa sysb)) u
    = Returned (map conj y).
Proof.
  intros Habc Hu.
  unfold LazyPtrPptOperator_matvec, LazyPtrPptOperator_adjoint,
    LazyPtrPptOperator_init.
  cbn [ppt_psi_abc ppt_dims ppt_sysa ppt_sysb int2tup].
  rewrite !(lazy_ptr_ppt_dot_returns C_semiring conj_zero)
    by (rewrite ?length_map; assumption).
  eexists. split; [reflexivity|]. f_equal.
  unfold explicit_ptr_ppt_dot. apply matvec_conj.
  intros r c. unfold partial_transpose.
  apply partial_trace_conj. apply outer_conj.
Qed.

(** The quadratic form of [LazyPtrOperatr] is a sum of squared moduli:
    [<v, Op v>] is the sum, over the multi-indices [b] of the subsystems
    traced out, of [conj(z_b) z_b], where [z_b] pairs [psi_ab] with [v] on
    the kept subsystems. So the operator is positive semidefinite. *)
Theorem LazyPtrOperatr_quadratic_form (psi_ab v : list C) (dims : list nat)
        (sysa : subsystems) :
  length psi_ab = prod dims ->
  length v = prod (dims_where (fun i => mem i (int2tup sysa)) dims) ->
  let keep := positions_mask (fun i => mem i (int2tup sysa)) dims in
  let z := fun b =>
             csum (map (fun a => cmul (conj (ket_at dims psi_ab (merge keep a b)))
                                      (ket_at (select keep dims) v a))
                       (all_multi (select keep dims))) in
  exists y,
    LazyPtrOperatr_matvec einsum (LazyPtrOperatr_init psi_ab dims sysa) v
    = Returned y /\
    inner v y
    = csum (map (fun b => cmul (conj (z b)) (z b))
                (all_multi (select (map negb keep) dims))).
Proof.
  intros Hab Hv keep z.
  unfold LazyPtrOperatr_matvec, LazyPtrOperatr_init.
  cbn [ptr_psi_ab ptr_dims ptr_sysa].
  rewrite (lazy_ptr_dot_returns C_semiring conj_zero) by assumption.
  eexists. split; [reflexivity|].
  unfold explicit_ptr_dot, matvec. fold keep.
  rewrite dims_where_select in Hv. fold (positions_mask (fun i => mem i (int2tup sysa)) dims) in Hv.
  fold keep in Hv. rewrite inner_tabulate by assumption.
  set (LA := all_multi (select keep dims)).
  set (LB := all_multi (select (map negb keep) dims)).
  set (P := fun a b => ket_at dims psi_ab (merge keep a b)).
  set (w := ket_at (select keep dims) v).
  transitivity
    (csum (map (fun o =>
                  csum (map (fun b =>
                               csum (map (fun a =>
                                            cmul (cmul (conj (w o)) (P o b))
                                                 (cmul (conj (P a b)) (w a)))
                                         LA))
                            LB))
               LA)).
  { apply csum_map_ext. intros o _.
    rewrite (csum_mul_l C_semiring).
    rewrite (csum_swap C_semiring
               (fun b a => cmul (cmul (conj (w o)) (P o b))
                                (cmul (conj (P a b)) (w a))) LB LA).
    apply csum_map_ext. intros a _.
    unfold partial_trace, outer. fold LB.
    rewrite (csum_mul_r C_semiring), (csum_mul_l C_semiring).
    apply csum_map_ext. intros b _. unfold P, w. ring. }
  rewrite (csum_swap C_semiring).
  apply csum_map_ext. intros b _. unfold z. fold LA. fold (P) w.
  rewrite conj_csum, (csum_mul_r C_semiring).
  apply csum_map_ext. intros o _.
  rewrite (csum_mul_l C_semiring).
  apply csum_map_ext. intros a _.
  rewrite conj_mul, conj_invol. unfold P, w. ring.
Qed.

End Conjugation.

End Tensors.

End Contract.

(** ** Gaussian integers, exact complex scalars to compute with *)

Module Gauss.
Import Contract.
Open Scope Z_scope.

Definition gauss : Type := (Z * Z)%type.
Definition g0 : gauss := (0, 0).
Definition g1 : gauss := (1, 0).
Definition gi : gauss := (0, 1).
Definition gadd (x y : gauss) : gauss := (fst x + fst y, snd x + snd y).
Definition gmul (x y : gauss) : gauss :=
  (fst x * fst y - snd x * snd y, fst x * snd y + snd x * fst y).
Definition gconj (x : gauss) : gauss := (fst x, - snd x).

Definition einsum := Contract.einsum g0 g1 gadd gmul.
Definition lazy_ptr_dot := Contract.lazy_ptr_dot gconj einsum.
Definition lazy_ptr_ppt_dot := Contract.lazy_ptr_ppt_dot gconj einsum.

Definition inner := Contract.inner g0 gadd gmul gconj.

Definition LazyPtrOperatr_init := @Contract.LazyPtrOperatr_init gauss.
Definition LazyPtrOperatr_matvec := Contract.LazyPtrOperatr_matvec gconj einsum.
Definition LazyPtrOperatr_adjoint := @Contract.LazyPtrOperatr_adjoint gauss gconj.
Definition LazyPtrPptOperator_init := @Contract.LazyPtrPptOperator_init gauss.
Definition LazyPtrPptOperator_matvec := Contract.LazyPtrPptOperator_matvec gconj einsum.
Definition LazyPtrPptOperator_adjoint := @Contract.LazyPtrPptOperator_adjoint gauss gconj.

(** [<u, Op v>] and [<Op.adjoint() u, v>]. *)
Definition ptr_pairing (Op : LazyPtrOperatr gauss) (u v : list gauss) : result gauss :=
  bind (LazyPtrOperatr_matvec Op v) (fun y => Returned (inner u y)).
Definition ptr_adjoint_pairing (Op : LazyPtrOperatr gauss) (u v : list gauss)
  : result gauss :=
  bind (LazyPtrOperatr_matvec (LazyPtrOperatr_adjoint Op) u)
       (fun x => Returned (inner x v)).
Definition ppt_pairing (Op : LazyPtrPptOperator gauss) (u v : list gauss)
  : result gauss :=
  bind (LazyPtrPptOperator_matvec Op v) (fun y => Returned (inner u y)).
Definition ppt_adjoint_pairing (Op : LazyPtrPptOperator gauss) (u v : list gauss)
  : result gauss :=
  bind (LazyPtrPptOperator_matvec (LazyPtrPptOperator_adjoint Op) u)
       (fun x => Returned (inner x v)).

(** The kets [(1, i, 1, 1)] on [dims = (2, 2)] and
    [(1, i, 1, 1, 2, i, 1 + i, 1)] on [dims = (2, 2, 2)]. *)
Definition ket4 : list gauss := [(1, 0); (0, 1); (1, 0); (1, 0)].
Definition ket8 : list gauss :=
  [(1, 0); (0, 1); (1, 0); (1, 0); (2, 0); (0, 1); (1, 1); (1, 0)].

Example lazy_ptr_dot_ket4 :
  lazy_ptr_dot ket4 [(0, 0); (1, 0)] (Some [2; 2]%nat) (Some (Index 0))
  = Returned [(1, 1); (2, 0)].
Proof. vm_compute. reflexivity. Qed.

Example lazy_ptr_ppt_dot_ket8 :
  lazy_ptr_ppt_dot ket8 [(0, 0); (1, 0); (0, 0); (0, 0)] [2; 2; 2]%nat
                   (Index 0) (Index 1)
  = Returned [(1, 1); (2, 0); (1, 0); (2, -1)].
Proof. vm_compute. reflexivity. Qed.

(** C3 fails on the code: the handle returned by [_adjoint] wraps the
    conjugated ket with [dims] and the subsets unchanged, and that operator
    is the transpose of the Hermitian operator, not its adjoint. With
    [u = (1, 0)] and [v = (0, 1)] the two sides are [1 + i] and [1 - i], for
    both classes. *)
Lemma adjoint_is_not_the_adjoint :
  let Op := LazyPtrOperatr_init ket4 [2; 2]%nat (Index 0) in
  let Op' := LazyPtrPptOperator_init ket8 [2; 2; 2]%nat (Index 0) (Index 1) in
  LazyPtrOperatr_adjoint Op
  = LazyPtrOperatr_init (map gconj ket4) [2; 2]%nat (Index 0) /\
  ptr_pairing Op [(1, 0); (0, 0)] [(0, 0); (1, 0)] = Returned (1, 1) /\
  ptr_adjoint_pairing Op [(1, 0); (0, 0)] [(0, 0); (1, 0)] = Returned (1, -1) /\
  LazyPtrPptOperator_adjoint Op'
  = LazyPtrPptOperator_init (map gconj ket8) [2; 2; 2]%nat (Index 0) (Index 1) /\
  ppt_pairing Op' [(1, 0); (0, 0); (0, 0); (0, 0)] [(0, 0); (1, 0); (0, 0); (0, 0)]
  = Returned (1, 1) /\
  ppt_adjoint_pairing Op' [(1, 0); (0, 0); (0, 0); (0, 0)]
                      [(0, 0); (1, 0); (0, 0); (0, 0)]
  = Returned (1, -1).
Proof. vm_compute. repeat split; reflexivity. Qed.

(** A ket of five entries does not fit [dims = (2, 2)]; a ket of three
    does not fit the kept [dims = (2, 2)] of [(2, 2, 2)]. *)
Lemma lazy_dot_shape_mismatch_witness :
  lazy_ptr_dot (ket4 ++ [g1]) [g1; g0] (Some [2; 2]%nat) (Some (Index 0))
  = Raised ShapeError /\
  lazy_ptr_ppt_dot ket8 [g1; g0; g0] [2; 2; 2]%nat (Index 0) (Index 1)
  = Raised ShapeError.
Proof.
  split.
  - apply (proj1 (Contract.lazy_dot_shape_mismatch gconj einsum)
             (ket4 ++ [g1]) [g1; g0] (Some [2; 2]%nat) (Some (Index 0)) [2; 2]%nat).
    + reflexivity.
    + left. simpl. lia.
  - apply (proj2 (Contract.lazy_dot_shape_mismatch gconj einsum)
             ket8 [g1; g0; g0] [2; 2; 2]%nat (Index 0) (Index 1)).
    right. simpl. lia.
Defined.

(** C9 fails on the code: a subset with the index 5 of no subsystem, and
    subsets that share the index 0, get a plan and a result like any
    other. *)
Lemma invalid_subsets_accepted :
  Planner.get_cntrct_inds_ptr_dot 2 [0; 5]%nat
  = Returned {| Planner.inds_a_ket := [0]%nat; Planner.inds_ab_bra := [0; 1]%nat;
                Planner.inds_ab_ket := [2; 1]%nat |} /\
  Planner.get_cntrct_inds_ptr_ppt_dot 2 [0]%nat [0; 1]%nat
  = Returned {| Planner.inds_ab_ket' := [0; 3]%nat;
                Planner.inds_abc_bra := [2; 3]%nat;
                Planner.inds_abc_ket := [0; 1]%nat;
                Planner.inds_out := [2; 1]%nat |} /\
  lazy_ptr_dot ket4 [(0, 0); (1, 0)] (Some [2; 2]%nat) (Some (Indices [0; 5]%nat))
  = Returned [(1, 1); (2, 0)] /\
  lazy_ptr_ppt_dot ket8 [(0, 0); (1, 0)] [2; 2; 2]%nat (Index 0) (Index 0)
  = Returned [(5, 1); (8, 0)].
Proof. vm_compute. repeat split; reflexivity. Qed.

(** The Gaussian integers are a commutative semiring and conjugation
    fixes zero. *)
Lemma gauss_semiring : semi_ring_theory g0 g1 gadd gmul eq.
Proof.
  constructor; intros; unfold gadd, gmul, g0, g1;
    repeat match goal with x : gauss |- _ => destruct x end;
    cbn [fst snd]; f_equal; ring.
Qed.

Lemma gconj_zero : gconj g0 = g0.
Proof. reflexivity. Qed.

Definition ket6 : list gauss := [(1, 0); (0, 1); (1, -1); (2, 0); (0, 0); (1, 3)].

(** The spec's example [dims = (2, 3)], keeping subsystem 0. *)
Lemma lazy_ptr_dot_explicit_witness :
  lazy_ptr_dot ket6 [(1, 2); (0, 1)] (Some [2; 3]%nat) (Some (Index 0))
  = Returned (Contract.explicit_ptr_dot g0 gadd gmul gconj ket6 [(1, 2); (0, 1)]
                                        [2; 3]%nat [0%nat]) /\
  (length [(1, 2); (0, 1)] <> 0%nat ->
   lazy_ptr_dot ket6 [(1, 2); (0, 1)] None None
   = lazy_ptr_dot ket6 [(1, 2); (0, 1)]
       (Some [length [(1, 2); (0, 1)]; (length ket6 / length [(1, 2); (0, 1)])%nat])
       (Some (Index 0))).
Proof.
  apply (@Contract.lazy_ptr_dot_explicit gauss g0 g1 gadd gmul gconj
           gauss_semiring gconj_zero ket6 [(1, 2); (0, 1)] [2; 3]%nat (Index 0));
    reflexivity.
Defined.

Example lazy_ptr_dot_ket6 :
  lazy_ptr_dot ket6 [(1, 2); (0, 1)] (Some [2; 3]%nat) (Some (Index 0))
  = Returned [(8, 8); (-8, 18)].
Proof. vm_compute. reflexivity. Qed.

(** The spec's example [dims = (2, 2, 2)], with [sysa = 0] and [sysb = 2]. *)
Lemma lazy_ptr_ppt_dot_explicit_witness :
  lazy_ptr_ppt_dot ket8 [(0, 3); (1, 0); (2, 0); (0, 1)] [2; 2; 2]%nat
                   (Index 0) (Index 2)
  = Returned (Contract.explicit_ptr_ppt_dot g0 gadd gmul gconj ket8
                [(0, 3); (1, 0); (2, 0); (0, 1)] [2; 2; 2]%nat [0%nat] [2%nat]).
Proof.
  apply (@Contract.lazy_ptr_ppt_dot_explicit gauss g0 g1 gadd gmul gconj
           gauss_semiring gconj_zero ket8 [(0, 3); (1, 0); (2, 0); (0, 1)]
           [2; 2; 2]%nat (Index 0) (Index 2));
    reflexivity.
Defined.


(** *** The further properties of the operators, on the same kets *)

Lemma gconj_add (x y : gauss) : gconj (gadd x y) = gadd (gconj x) (gconj y).
Proof. destruct x, y. unfold gconj, gadd. cbn [fst snd]. f_equal. ring. Qed.

Lemma gconj_mul (x y : gauss) : gconj (gmul x y) = gmul (gconj x) (gconj y).
Proof. destruct x, y. unfold gconj, gmul. cbn [fst snd]. f_equal; ring. Qed.

Lemma gconj_invol (x : gauss) : gconj (gconj x) = x.
Proof. destruct x. unfold gconj. cbn [fst snd]. f_equal. ring. Qed.

Lemma operator_matvec_shape_witness :
  length ket6 = Contract.prod [2; 3]%nat /\
  length [(1, 2); (0, 1)]
  = snd (Contract.ptr_shape (LazyPtrOperatr_init ket6 [2; 3]%nat (Index 0))) /\
  length [(8, 8); (-8, 18)]
  = fst (Contract.ptr_shape (LazyPtrOperatr_init ket6 [2; 3]%nat (Index 0))).
Proof.
  apply (proj1 (@Contract.operator_matvec_shape gauss gconj einsum ket6
                  [2; 3]%nat (Index 0) (Index 1) [(1, 2); (0, 1)]
                  [(8, 8); (-8, 18)])).
  vm_compute. reflexivity.
Defined.

Lemma adjoint_involutive_witness :
  LazyPtrOperatr_adjoint (LazyPtrOperatr_adjoint
                            (LazyPtrOperatr_init ket6 [2; 3]%nat (Index 0)))
  = LazyPtrOperatr_init ket6 [2; 3]%nat (Index 0).
Proof.
  apply (@Contract.adjoint_involutive gauss gconj ket6 [2; 3]%nat (Index 0)
           (Index 1) gconj_invol).
Defined.

Lemma lazy_ptr_dot_inferred_dims_errors_witness :
  lazy_ptr_dot ket6 [] None None = Raised ZeroDivisionError /\
  lazy_ptr_dot ket6 ket4 None None = Raised ShapeError.
Proof.
  split.
  - apply (proj1 (@Contract.lazy_ptr_dot_inferred_dims_errors gauss gconj einsum
                    ket6 [] None)).
    reflexivity.
  - apply (proj2 (@Contract.lazy_ptr_dot_inferred_dims_errors gauss gconj einsum
                    ket6 ket4 None)); simpl; lia.
Defined.

Lemma subsets_as_sets_witness :
  lazy_ptr_dot ket6 [(1, 2); (0, 1)] (Some [2; 3]%nat) (Some (Indices [0; 5]%nat))
  = lazy_ptr_dot ket6 [(1, 2); (0, 1)] (Some [2; 3]%nat)
                 (Some (Indices [5; 0; 0]%nat)).
Proof.
  apply (@Contract.subsets_as_sets gauss gconj einsum [0; 5]%nat [5; 0; 0]%nat
           [2]%nat [2; 2]%nat); intros i; simpl; intuition.
Defined.

Lemma lazy_ptr_dot_linear_witness :
  exists yu yv,
    lazy_ptr_dot ket6 [(1, 2); (0, 1)] (Some [2; 3]%nat) (Some (Indices [0%nat]))
    = Returned yu /\
    lazy_ptr_dot ket6 [(0, 1); (3, 0)] (Some [2; 3]%nat) (Some (Indices [0%nat]))
    = Returned yv /\
    lazy_ptr_dot ket6 (Contract.vadd gadd [(1, 2); (0, 1)] [(0, 1); (3, 0)])
                 (Some [2; 3]%nat) (Some (Indices [0%nat]))
    = Returned (Contract.vadd gadd yu yv) /\
    lazy_ptr_dot ket6 (Contract.vscale gmul gi [(1, 2); (0, 1)])
                 (Some [2; 3]%nat) (Some (Indices [0%nat]))
    = Returned (Contract.vscale gmul gi yu).
Proof.
  apply (@Contract.lazy_ptr_dot_linear gauss g0 g1 gadd gmul gconj
           gauss_semiring gconj_zero ket6 [(1, 2); (0, 1)] [(0, 1); (3, 0)] gi
           [2; 3]%nat [0%nat]); reflexivity.
Defined.

Lemma lazy_ptr_ppt_dot_linear_witness :
  exists yu yv,
    lazy_ptr_ppt_dot ket8 [(0, 3); (1, 0); (2, 0); (0, 1)] [2; 2; 2]%nat
                     (Indices [0%nat]) (Indices [2%nat]) = Returned yu /\
    lazy_ptr_ppt_dot ket8 ket4 [2; 2; 2]%nat
                     (Indices [0%nat]) (Indices [2%nat]) = Returned yv /\
    lazy_ptr_ppt_dot ket8
      (Contract.vadd gadd [(0, 3); (1, 0); (2, 0); (0, 1)] ket4) [2; 2; 2]%nat
      (Indices [0%nat]) (Indices [2%nat])
    = Returned (Contract.vadd gadd yu yv) /\
    lazy_ptr_ppt_dot ket8
      (Contract.vscale gmul gi [(0, 3); (1, 0); (2, 0); (0, 1)]) [2; 2; 2]%nat
      (Indices [0%nat]) (Indices [2%nat])
    = Returned (Contract.vscale gmul gi yu).
Proof.
  apply (@Contract.lazy_ptr_ppt_dot_linear gauss g0 g1 gadd gmul gconj
           gauss_semiring gconj_zero ket8 [(0, 3); (1, 0); (2, 0); (0, 1)] ket4 gi
           [2; 2; 2]%nat [0%nat] [2%nat]); reflexivity.
Defined.

Lemma LazyPtrOperatr_hermitian_witness :
  exists x y,
    LazyPtrOperatr_matvec (LazyPtrOperatr_init ket6 [2; 3]%nat (Index 0))
                          [(1, 2); (0, 1)] = Returned x /\
    LazyPtrOperatr_matvec (LazyPtrOperatr_init ket6 [2; 3]%nat (Index 0))
                          [(0, 1); (3, 0)] = Returned y /\
    inner [(1, 2); (0, 1)] y = inner x [(0, 1); (3, 0)].
Proof.
  apply (@Contract.LazyPtrOperatr_hermitian gauss g0 g1 gadd gmul gconj
           gauss_semiring gconj_zero gconj_add gconj_mul gconj_invol
           ket6 [(1, 2); (0, 1)] [(0, 1); (3, 0)] [2; 3]%nat (Index 0));
    reflexivity.
Defined.

Lemma LazyPtrPptOperator_hermitian_witness :
  exists x y,
    LazyPtrPptOperator_matvec
      (LazyPtrPptOperator_init ket8 [2; 2; 2]%nat (Index 0) (Index 2))
      [(0, 3); (1, 0); (2, 0); (0, 1)] = Returned x /\
    LazyPtrPptOperator_matvec
      (LazyPtrPptOperator_init ket8 [2; 2; 2]%nat (Index 0) (Index 2))
      ket4 = Returned y /\
    inner [(0, 3); (1, 0); (2, 0); (0, 1)] y = inner x ket4.
Proof.
  apply (@Contract.LazyPtrPptOperator_hermitian gauss g0 g1 gadd gmul gconj
           gauss_semiring gconj_zero gconj_add gconj_mul gconj_invol
           ket8 [(0, 3); (1, 0); (2, 0); (0, 1)] ket4 [2; 2; 2]%nat
           (Index 0) (Index 2));
    reflexivity.
Defined.

Lemma LazyPtrOperatr_adjoint_conjugate_witness :
  exists y,
    LazyPtrOperatr_matvec (LazyPtrOperatr_init ket6 [2; 3]%nat (Index 0))
                          (map gconj [(1, 2); (0, 1)]) = Returned y /\
    LazyPtrOperatr_matvec
      (LazyPtrOperatr_adjoint (LazyPtrOperatr_init ket6 [2; 3]%nat (Index 0)))
      [(1, 2); (0, 1)] = Returned (map gconj y).
Proof.
  apply (@Contract.LazyPtrOperatr_adjoint_conjugate gauss g0 g1 gadd gmul gconj
           gauss_semiring gconj_zero gconj_add gconj_mul gconj_invol
           ket6 [(1, 2); (0, 1)] [2; 3]%nat (Index 0));
    reflexivity.
Defined.

Lemma LazyPtrPptOperator_adjoint_conjugate_witness :
  exists y,
    LazyPtrPptOperator_matvec
      (LazyPtrPptOperator_init ket8 [2; 2; 2]%nat (Index 0) (Index 2))
      (map gconj ket4) = Returned y /\
    LazyPtrPptOperator_matvec
      (LazyPtrPptOperator_adjoint
         (LazyPtrPptOperator_init ket8 [2; 2; 2]%nat (Index 0) (Index 2)))
      ket4 = Returned (map gconj y).
Proof.
  apply (@Contract.LazyPtrPptOperator_adjoint_conjugate gauss g0 g1 gadd gmul
           gconj gauss_semiring gconj_zero gconj_add gconj_mul gconj_invol
           ket8 ket4 [2; 2; 2]%nat (Index 0) (Index 2));
    reflexivity.
Defined.

Lemma LazyPtrOperatr_quadratic_form_witness :
  exists y,
    LazyPtrOperatr_matvec (LazyPtrOperatr_init ket6 [2; 3]%nat (Index 0))
                          [(1, 2); (0, 1)] = Returned y /\
    inner [(1, 2); (0, 1)] y = (42, 0).
Proof.
  destruct (@Contract.LazyPtrOperatr_quadratic_form gauss g0 g1 gadd gmul gconj
              gauss_semiring gconj_zero gconj_add gconj_mul gconj_invol
              ket6 [(1, 2); (0, 1)] [2; 3]%nat (Index 0) eq_refl eq_refl)
    as (y & Hy & Hq).
  exists y. split; [exact Hy|]. unfold inner. rewrite Hq. reflexivity.
Defined.

End Gauss.

From Stdlib Require Import Ascii.

(** ** [quimb/tensor/tensor_gen.py]: product states and the identity MPO

    [MPS_product_state], [MPS_computational_state], [MPS_neel_state],
    [MPS_zero_state] and [MPO_identity] prepare a sequence of site arrays
    and hand it to the constructor of [MatrixProductState] or
    [MatrixProductOperator], which is code of another module: a state or an
    operator is here the record of what its constructor is called with. *)

Module ProductStates.
Import Contract.

(** A Python [str]. *)
Definition str : Type := list ascii.

(** A numpy array of floats. *)
Definition array : Type := ndarray float.

Inductive outcome (X : Type) : Type :=
| Ok (x : X)
| KeyError (key : ascii)   (* a dict indexed at a key it does not hold *)
| ValueError.              (* numpy: cannot reshape array into shape *)

Arguments Ok {X} x.
Arguments KeyError {X} key.
Arguments ValueError {X}.

Definition obind {X Y : Type} (r : outcome X) (k : X -> outcome Y) : outcome Y :=
  match r with
  | Ok x => k x
  | KeyError key => KeyError key
  | ValueError => ValueError
  end.

(** A generator run to its end: the values in order, or the first error. *)
Fixpoint collect {X Y : Type} (f : X -> outcome Y) (l : list X)
  : outcome (list Y) :=
  match l with
  | [] => Ok []
  | x :: l' => obind (f x) (fun y => obind (collect f l') (fun ys => Ok (y :: ys)))
  end.

Record MatrixProductState : Type := mkMatrixProductState {
  mps_arrays : list array;
  mps_shape : option str
}.

Record MatrixProductOperator : Type := mkMatrixProductOperator {
  mpo_arrays : list array
}.

(** [a.reshape] to the shape [spec], where [None] stands for [-1], the
    one dimension numpy infers. *)
Definition known_dims (spec : list (option nat)) : list nat :=
  flat_map (fun d => match d with Some x => [x] | None => [] end) spec.

Definition unknowns (spec : list (option nat)) : nat :=
  length (filter (fun d => match d with Some _ => false | None => true end) spec).

Definition fill (x : nat) (spec : list (option nat)) : list nat :=
  map (fun d => match d with Some y => y | None => x end) spec.

Definition reshape_infer (a : array) (spec : list (option nat)) : outcome array :=
  let size := length (data a) in
  let known := prod (known_dims spec) in
  match unknowns spec with
  | 0 => if size =? known then Ok {| shape := fill 0 spec; data := data a |}
         else ValueError
  | 1 => if known =? 0 then ValueError
         else if size mod known =? 0
              then Ok {| shape := fill (size / known) spec; data := data a |}
              else ValueError
  | _ => ValueError
  end.

(** [np.zeros(shape)]. *)
Definition zeros (shape : list nat) : array :=
  {| shape := shape; data := repeat 0%float (prod shape) |}.

(** [np.identity(n)]. *)
Definition identity (n : nat) : array :=
  {| shape := [n; n];
     data := flat_map (fun i => map (fun j => if i =? j then 1%float else 0%float)
                                    (seq 0 n))
                      (seq 0 n) |}.

(** The shapes [gen_array_shapes] yields for [n] arrays. *)
Definition gen_array_shapes (n : nat) : list (list (option nat)) :=
  [[Some 1; None]] ++ repeat [Some 1; Some 1; None] (n - 2) ++ [[Some 1; None]].

Definition lrp : str := ["l"; "r"; "p"]%char.

(** [zip] stops at the shorter of its two arguments. *)
Definition MPS_product_state (arrays : list array) : outcome MatrixProductState :=
  obind (collect (fun p => reshape_infer (fst p) (snd p))
                 (combine arrays (gen_array_shapes (length arrays))))
        (fun sites => Ok {| mps_arrays := sites; mps_shape := Some lrp |}).

Definition array_map (s : ascii) : outcome array :=
  if Ascii.eqb s "0" then Ok {| shape := [2]; data := [1; 0]%float |}
  else if Ascii.eqb s "1" then Ok {| shape := [2]; data := [0; 1]%float |}
  else KeyError s.

(** [tuple(gen_arrays())] is made before [MPS_product_state] is called. *)
Definition MPS_computational_state (binary_str : str) : outcome MatrixProductState :=
  obind (collect array_map binary_str) MPS_product_state.

(** [s * k] for a string [s]. *)
Fixpoint str_mul (s : str) (k : nat) : str :=
  match k with
  | 0 => []
  | S k' => s ++ str_mul s k'
  end.

(** The string that [MPS_neel_state] computes; [binary_str[:-1]] of the
    empty string is the empty string. *)
Definition neel_binary_str (n : nat) (down_first : bool) : str :=
  let binary_str :=
    str_mul ["0"; "1"]%char (n / 2)
    ++ str_mul ["0"%char] (if n mod 2 =? 1 then 1 else 0) in
  if down_first then "1"%char :: removelast binary_str else binary_str.

Definition MPS_neel_state (n : nat) (down_first : bool) : outcome MatrixProductState :=
  MPS_computational_state (neel_binary_str n down_first).

Definition MPS_zero_state (n bond_dim phys_dim : nat) : MatrixProductState :=
  {| mps_arrays := [zeros [bond_dim; phys_dim]]
                   ++ repeat (zeros [bond_dim; bond_dim; phys_dim]) (n - 2)
                   ++ [zeros [bond_dim; phys_dim]];
     mps_shape := None |}.

Definition MPO_identity (n phys_dim : nat) : outcome MatrixProductOperator :=
  let end_site := reshape_infer (identity phys_dim)
                                [Some 1; Some phys_dim; Some phys_dim] in
  let inner_site := reshape_infer (identity phys_dim)
                                  [Some 1; Some 1; Some phys_dim; Some phys_dim] in
  obind (collect (fun x => x) ([end_site] ++ repeat inner_site (n - 2) ++ [end_site]))
        (fun sites => Ok {| mpo_arrays := sites |}).

End ProductStates.

Module ProductStatesFacts.
Import Contract ProductStates.

Lemma collect_app {X Y : Type} (f : X -> outcome Y) (l1 l2 : list X) :
  collect f (l1 ++ l2)
  = obind (collect f l1) (fun a => obind (collect f l2) (fun b => Ok (a ++ b))).
Proof.
  induction l1 as [|x l1 IH]; simpl.
  - destruct (collect f l2); reflexivity.
  - destruct (f x) as [y| |]; simpl; try reflexivity.
    rewrite IH. destruct (collect f l1) as [a| |]; simpl; try reflexivity.
    destruct (collect f l2); reflexivity.
Qed.

Lemma collect_Ok {X Y : Type} (f : X -> outcome Y) (g : X -> Y) (l : list X) :
  (forall x, In x l -> f x = Ok (g x)) -> collect f l = Ok (map g l).
Proof.
  induction l as [|x l IH]; intros H; simpl; [reflexivity|].
  rewrite (H x) by now left. simpl. rewrite IH by (intros y Hy; apply H; now right).
  reflexivity.
Qed.

(** An end site and an inner site of a product state. *)
Definition end_site (a : array) : array :=
  {| shape := [1; length (data a)]; data := data a |}.

Definition inner_site (a : array) : array :=
  {| shape := [1; 1; length (data a)]; data := data a |}.

Lemma reshape_end (a : array) : reshape_infer a [Some 1; None] = Ok (end_site a).
Proof.
  unfold reshape_infer, end_site, unknowns, known_dims, fill, prod.
  cbn [filter flat_map app length fold_right map Nat.mul Nat.add Nat.eqb].
  rewrite Nat.mod_1_r, Nat.div_1_r. reflexivity.
Qed.

Lemma reshape_inner (a : array) :
  reshape_infer a [Some 1; Some 1; None] = Ok (inner_site a).
Proof.
  unfold reshape_infer, inner_site, unknowns, known_dims, fill, prod.
  cbn [filter flat_map app length fold_right map Nat.mul Nat.add Nat.eqb].
  rewrite Nat.mod_1_r, Nat.div_1_r. reflexivity.
Qed.

Lemma collect_inner (mid : list array) (rest : list (list (option nat))) :
  collect (fun p => reshape_infer (fst p) (snd p))
          (combine mid (repeat [Some 1; Some 1; None] (length mid) ++ rest))
  = Ok (map inner_site mid).
Proof.
  induction mid as [|a mid IH].
  - destruct rest; reflexivity.
  - cbn [length repeat app combine collect fst snd].
    rewrite reshape_inner. cbn [obind]. rewrite IH. reflexivity.
Qed.

Lemma MPS_product_state_nil :
  MPS_product_state [] = Ok {| mps_arrays := []; mps_shape := Some lrp |}.
Proof. reflexivity. Qed.

Lemma MPS_product_state_one (a : array) :
  MPS_product_state [a]
  = Ok {| mps_arrays := [end_site a]; mps_shape := Some lrp |}.
Proof.
  unfold MPS_product_state, gen_array_shapes.
  cbn [length Nat.sub repeat app combine collect fst snd].
  rewrite reshape_end. reflexivity.
Qed.

Lemma MPS_product_state_many (a z : array) (mid : list array) :
  MPS_product_state (a :: mid ++ [z])
  = Ok {| mps_arrays := end_site a :: map inner_site mid ++ [end_site z];
          mps_shape := Some lrp |}.
Proof.
  unfold MPS_product_state, gen_array_shapes.
  replace (length (a :: mid ++ [z]) - 2) with (length mid)
    by (simpl; rewrite length_app; simpl; lia).
  cbn [app combine collect fst snd]. rewrite reshape_end. cbn [obind].
  replace (combine (mid ++ [z])
                   (repeat [Some 1; Some 1; None] (length mid) ++ [[Some 1; None]]))
    with (combine mid (repeat [Some 1; Some 1; None] (length mid) ++ [])
          ++ [(z, [Some 1; None])]).
  - rewrite collect_app, collect_inner. cbn [obind collect fst snd].
    rewrite reshape_end. reflexivity.
  - rewrite app_nil_r. clear a.
    induction mid as [|b mid IH]; simpl; [reflexivity|]. now rewrite IH.
Qed.

Lemma list_ends {X : Type} (l : list X) :
  l = [] \/ (exists a, l = [a]) \/ (exists a mid z, l = a :: mid ++ [z]).
Proof.
  destruct l as [|a l]; [now left|]. right.
  destruct (exists_last (l := a :: l)) as (l' & z & E); [discriminate|].
  destruct l' as [|a' l']; simpl in E.
  - inversion E; subst. left. now exists z.
  - inversion E; subst. right. now exists a', l', z.
Qed.

(** A product state always gets built, with one site per array and the
    entries of each array unchanged. *)
Lemma MPS_product_state_Ok (arrays : list array) :
  exists sites,
    MPS_product_state arrays = Ok {| mps_arrays := sites; mps_shape := Some lrp |}
    /\ map (@data float) sites = map (@data float) arrays.
Proof.
  destruct (list_ends arrays) as [->|[(a & ->)|(a & mid & z & ->)]].
  - eexists. split; [apply MPS_product_state_nil|reflexivity].
  - eexists. split; [apply MPS_product_state_one|reflexivity].
  - eexists. split; [apply MPS_product_state_many|].
    simpl. rewrite !map_app, map_map. reflexivity.
Qed.

(** [MPS_product_state] never raises: no array, one array and two or more
    arrays give, in turn, no site, one site of shape [(1, size)], and
    sites of shape [(1, size)] at both ends and [(1, 1, size)] between,
    each with the entries of its array. *)
Theorem MPS_product_state_sites :
  MPS_product_state [] = Ok {| mps_arrays := []; mps_shape := Some lrp |} /\
  (forall a, MPS_product_state [a]
             = Ok {| mps_arrays := [end_site a]; mps_shape := Some lrp |}) /\
  (forall a mid z,
      MPS_product_state (a :: mid ++ [z])
      = Ok {| mps_arrays := end_site a :: map inner_site mid ++ [end_site z];
              mps_shape := Some lrp |}).
Proof.
  split; [apply MPS_product_state_nil|].
  split; [apply MPS_product_state_one|].
  intros a mid z. apply MPS_product_state_many.
Qed.

Definition binary (c : ascii) : Prop := c = "0"%char \/ c = "1"%char.

(** The array of a binary digit. *)
Definition basis_vector (c : ascii) : list float :=
  if Ascii.eqb c "0" then [1; 0]%float else [0; 1]%float.

Lemma array_map_binary (c : ascii) :
  binary c -> array_map c = Ok {| shape := [2]; data := basis_vector c |}.
Proof. intros [->| ->]; reflexivity. Qed.

Lemma array_map_other (c : ascii) :
  c <> "0"%char -> c <> "1"%char -> array_map c = KeyError c.
Proof.
  intros H0 H1. unfold array_map.
  destruct (Ascii.eqb c "0") eqn:E0; [apply Ascii.eqb_eq in E0; contradiction|].
  destruct (Ascii.eqb c "1") eqn:E1; [apply Ascii.eqb_eq in E1; contradiction|].
  reflexivity.
Qed.

Lemma collect_array_map (s : str) :
  Forall binary s ->
  collect array_map s
  = Ok (map (fun c => {| shape := [2]; data := basis_vector c |}) s).
Proof.
  intros H. apply collect_Ok. intros c Hc. apply array_map_binary.
  rewrite Forall_forall in H. now apply H.
Qed.

Lemma MPS_computational_state_Ok (s : str) :
  Forall binary s ->
  exists sites,
    MPS_computational_state s
    = Ok {| mps_arrays := sites; mps_shape := Some lrp |} /\
    map (@data float) sites = map basis_vector s.
Proof.
  intros H. unfold MPS_computational_state.
  rewrite collect_array_map by assumption. cbn [obind].
  destruct (MPS_product_state_Ok
              (map (fun c => {| shape := [2]; data := basis_vector c |}) s))
    as (sites & E & D).
  exists sites. split; [exact E|]. rewrite D, map_map. reflexivity.
Qed.

(** [MPS_computational_state] builds, for a string of binary digits, one
    site per digit holding [(1, 0)] for ['0'] and [(0, 1)] for ['1']; a
    string with another character raises [KeyError] with the first such
    character, and nothing is built. *)
Theorem MPS_computational_state_sites (s : str) :
  (Forall binary s ->
   exists sites,
     MPS_computational_state s
     = Ok {| mps_arrays := sites; mps_shape := Some lrp |} /\
     map (@data float) sites = map basis_vector s) /\
  (forall pre c post,
      s = pre ++ c :: post -> Forall binary pre ->
      c <> "0"%char -> c <> "1"%char ->
      MPS_computational_state s = KeyError c).
Proof.
  split; [apply MPS_computational_state_Ok|].
  intros pre c post -> Hpre H0 H1. unfold MPS_computational_state.
  rewrite collect_app, collect_array_map by assumption. cbn [obind collect].
  rewrite array_map_other by assumption. reflexivity.
Qed.

(** The digit at position [i] of a Neel string. *)
Definition neel_digit (down_first : bool) (i : nat) : ascii :=
  if xorb (Nat.even i) down_first then "0"%char else "1"%char.

Lemma str_mul_01 (q : nat) :
  str_mul ["0"; "1"]%char q = map (neel_digit false) (seq 0 (2 * q)).
Proof.
  induction q as [|q IH]; [reflexivity|].
  replace (2 * S q) with (S (S (2 * q))) by lia.
  cbn [str_mul app seq map]. rewrite IH. do 2 f_equal.
  rewrite <- !seq_shift, !map_map. apply map_ext. intros i. reflexivity.
Qed.

Lemma neel_up_first (n : nat) :
  neel_binary_str n false = map (neel_digit false) (seq 0 n).
Proof.
  unfold neel_binary_str. rewrite str_mul_01.
  pose proof (Nat.div_mod_eq n 2) as E.
  pose proof (Nat.mod_upper_bound n 2 ltac:(lia)) as B.
  destruct (n mod 2) as [|[|r]] eqn:R; try lia; cbn [Nat.eqb str_mul app].
  - rewrite app_nil_r. f_equal. f_equal. lia.
  - replace (seq 0 n) with (seq 0 (2 * (n / 2)) ++ [2 * (n / 2)])
      by (rewrite E at 3; rewrite Nat.add_1_r, seq_S; reflexivity).
    rewrite map_app. f_equal. cbn [map]. unfold neel_digit.
    rewrite Nat.even_mul. reflexivity.
Qed.

Lemma removelast_map_seq {X : Type} (f : nat -> X) (n : nat) :
  removelast (map f (seq 0 n)) = map f (seq 0 (n - 1)).
Proof.
  destruct n as [|n]; [reflexivity|].
  rewrite seq_S, map_app. cbn [map Nat.add]. rewrite removelast_last.
  now rewrite Nat.sub_succ, Nat.sub_0_r.
Qed.

Lemma neel_down_first (n : nat) :
  0 < n -> neel_binary_str n true = map (neel_digit true) (seq 0 n).
Proof.
  intros Hn. pose proof (neel_up_first n) as E. unfold neel_binary_str in *.
  rewrite E, removelast_map_seq.
  destruct n as [|n]; [lia|]. rewrite Nat.sub_succ, Nat.sub_0_r.
  cbn [seq map]. f_equal.
  rewrite <- seq_shift, map_map. apply map_ext. intros i.
  unfold neel_digit. rewrite Nat.even_succ, <- Nat.negb_even.
  destruct (Nat.even i); reflexivity.
Qed.

Lemma neel_digit_binary (down_first : bool) (i : nat) :
  binary (neel_digit down_first i).
Proof.
  unfold neel_digit, binary. destruct (xorb (Nat.even i) down_first); auto.
Qed.

(** [MPS_neel_state] for at least one spin, or with the up spin first:
    the string has [n] digits that alternate, starting with ['0'], or with
    ['1'] if [down_first], and the state is built with one site per digit.
    For no spin and [down_first] the string is ["1"], and a state of one
    site is built. *)
Theorem MPS_neel_state_sites :
  (forall n down_first,
      0 < n \/ down_first = false ->
      neel_binary_str n down_first = map (neel_digit down_first) (seq 0 n) /\
      exists sites,
        MPS_neel_state n down_first
        = Ok {| mps_arrays := sites; mps_shape := Some lrp |} /\
        map (@data float) sites
        = map (fun i => basis_vector (neel_digit down_first i)) (seq 0 n)) /\
  neel_binary_str 0 true = ["1"%char] /\
  MPS_neel_state 0 true
  = Ok {| mps_arrays := [{| shape := [1; 2]; data := [0; 1]%float |}];
          mps_shape := Some lrp |}.
Proof.
  split; [|split; reflexivity].
  intros n down_first H.
  assert (E : neel_binary_str n down_first
              = map (neel_digit down_first) (seq 0 n)).
  { destruct down_first.
    - apply neel_down_first. destruct H as [H|H]; [exact H|discriminate].
    - apply neel_up_first. }
  split; [exact E|]. unfold MPS_neel_state. rewrite E.
  destruct (MPS_computational_state_Ok
              (s := map (neel_digit down_first) (seq 0 n))) as (sites & Hs & Hd).
  { apply Forall_forall. intros c Hc. apply in_map_iff in Hc as (i & <- & _).
    apply neel_digit_binary. }
  exists sites. split; [exact Hs|]. now rewrite Hd, map_map.
Qed.

Lemma MPS_neel_state_sites_witness :
  neel_binary_str 5 true = ["1"; "0"; "1"; "0"; "1"]%char.
Proof.
  apply (proj1 (proj1 MPS_neel_state_sites 5 true (or_introl (le_S _ _ (le_S _ _ (le_S _ _ (le_S _ _ (le_n 1)))))))).
Defined.

Lemma MPS_computational_state_sites_witness :
  MPS_computational_state ["0"; "1"; "2"; "1"]%char = KeyError "2"%char.
Proof.
  apply (proj2 (MPS_computational_state_sites ["0"; "1"; "2"; "1"]%char)
           ["0"; "1"]%char "2"%char ["1"%char]).
  - reflexivity.
  - apply Forall_cons; [left; reflexivity|].
    apply Forall_cons; [right; reflexivity|apply Forall_nil].
  - discriminate.
  - discriminate.
Defined.

Lemma length_flat_map_const {X Y : Type} (g : X -> list Y) (k : nat) (l : list X) :
  (forall x, length (g x) = k) -> length (flat_map g l) = length l * k.
Proof.
  intros H. induction l as [|x l IH]; simpl; [reflexivity|].
  now rewrite length_app, H, IH.
Qed.

Lemma identity_size (p : nat) : length (data (identity p)) = p * p.
Proof.
  unfold identity. cbn [data].
  rewrite (length_flat_map_const _ (k := p)), length_seq; [reflexivity|].
  intros i. now rewrite length_map, length_seq.
Qed.

Lemma collect_map_Ok {X : Type} (l : list X) :
  collect (fun x => x) (map (@Ok X) l) = Ok l.
Proof.
  induction l as [|x l IH]; simpl; [reflexivity|]. now rewrite IH.
Qed.

Lemma ends_and_middle_length {X : Type} (a b : X) (n : nat) :
  length ([a] ++ repeat b (n - 2) ++ [a]) = Nat.max n 2.
Proof. rewrite !length_app, repeat_length. simpl. lia. Qed.

(** [MPS_zero_state] and [MPO_identity] yield their two end arrays
    whatever [n] is, so they prepare [max(n, 2)] site arrays: for [n = 0]
    and [n = 1] the same two as for [n = 2]. [MPO_identity] never raises:
    its reshapes fit, and every site holds the entries of the identity. *)
Theorem at_least_two_sites (n bond_dim phys_dim : nat) :
  length (mps_arrays (MPS_zero_state n bond_dim phys_dim)) = Nat.max n 2 /\
  (n <= 2 -> MPS_zero_state n bond_dim phys_dim = MPS_zero_state 2 bond_dim phys_dim) /\
  exists sites,
    MPO_identity n phys_dim = Ok {| mpo_arrays := sites |} /\
    length sites = Nat.max n 2 /\
    Forall (fun a => data a = data (identity phys_dim)) sites /\
    (n <= 2 -> MPO_identity n phys_dim = MPO_identity 2 phys_dim).
Proof.
  split; [|split].
  - unfold MPS_zero_state. cbn [mps_arrays]. apply ends_and_middle_length.
  - intros H. unfold MPS_zero_state.
    replace (n - 2) with 0 by lia. reflexivity.
  - unfold MPO_identity.
    set (e := {| shape := [1; phys_dim; phys_dim]; data := data (identity phys_dim) |}).
    set (m := {| shape := [1; 1; phys_dim; phys_dim];
                 data := data (identity phys_dim) |}).
    assert (He : reshape_infer (identity phys_dim)
                               [Some 1; Some phys_dim; Some phys_dim] = Ok e).
    { unfold reshape_infer, unknowns, known_dims, fill, prod.
      cbn [filter flat_map app length fold_right map].
      rewrite identity_size.
      replace (1 * (phys_dim * (phys_dim * 1))) with (phys_dim * phys_dim) by lia.
      rewrite Nat.eqb_refl. reflexivity. }
    assert (Hm : reshape_infer (identity phys_dim)
                               [Some 1; Some 1; Some phys_dim; Some phys_dim] = Ok m).
    { unfold reshape_infer, unknowns, known_dims, fill, prod.
      cbn [filter flat_map app length fold_right map].
      rewrite identity_size.
      replace (1 * (1 * (phys_dim * (phys_dim * 1)))) with (phys_dim * phys_dim)
        by lia.
      rewrite Nat.eqb_refl. reflexivity. }
    rewrite He, Hm.
    exists ([e] ++ repeat m (n - 2) ++ [e]).
    split; [|split; [|split]].
    + unfold array.
      assert (E : [Ok e] ++ repeat (Ok m) (n - 2) ++ [Ok e]
                  = map (@Ok _) ([e] ++ repeat m (n - 2) ++ [e]))
        by (rewrite !map_app, map_repeat; reflexivity).
      rewrite E, collect_map_Ok. reflexivity.
    + apply ends_and_middle_length.
    + apply Forall_app. split; [repeat constructor|].
      apply Forall_app. split; [|repeat constructor].
      apply Forall_forall. intros a Ha. apply repeat_spec in Ha. now subst.
    + intros H. replace (n - 2) with 0 by lia. reflexivity.
Qed.

Lemma at_least_two_sites_witness :
  MPS_zero_state 1 1 2 = MPS_zero_state 2 1 2.
Proof.
  apply (proj1 (proj2 (at_least_two_sites 1 1 2))). lia.
Defined.

End ProductStatesFacts.

(** ** [quimb/tensor/tensor_gen.py]: the tensors of a spin Hamiltonian MPO

    [spin_ham_mpo_tensor], [MPOSpinHam.build] and the Hamiltonians built
    with them. The array [H] of shape [(B, B, D, D)] is kept as [B] rows of
    [B] blocks, a block being a [D x D] matrix; the blocks, with
    [spin_operator] and [eye] of [quimb.gen.operators], are parameters. *)

Module SpinHam.
Import TensorGen ProductStates.

(** [a == b] on strings. *)
Fixpoint str_eqb (a b : str) : bool :=
  match a, b with
  | [], [] => true
  | x :: a', y :: b' => Ascii.eqb x y && str_eqb a' b'
  | _, _ => false
  end.

Lemma set_nth_middle {X : Type} (l1 l2 : list X) (a x : X) (n : nat) :
  n = length l1 -> Lanczos.set_nth n x (l1 ++ a :: l2) = l1 ++ x :: l2.
Proof.
  intros ->. induction l1 as [|y l1 IH]; simpl; [reflexivity|]. now rewrite IH.
Qed.

Lemma nth_middle_at {X : Type} (l1 l2 : list X) (a d : X) (n : nat) :
  n = length l1 -> nth n (l1 ++ a :: l2) d = a.
Proof. intros ->. apply nth_middle. Qed.

(** A tuple is unpacked into as many names as it has entries, or
    [ValueError] is raised. *)
Inductive unpacked (X : Type) : Type :=
| Unpacked (x : X)
| UnpackError.

Arguments Unpacked {X} x.
Arguments UnpackError {X}.

Section Tensor.

Variables (scalar mat spin : Type).

(** [int(2 * S + 1)], [spin_operator(label, S=S)], [eye(D)], a block of
    [np.zeros], [factor * s] and the sum of two blocks. *)
Variable local_dim : spin -> nat.
Variable spin_operator : str -> spin -> mat.
Variable eye : nat -> mat.
Variable zero_block : nat -> mat.
Variable smul : scalar -> mat -> mat.
Variable madd : mat -> mat -> mat.

(** An operator argument: a string for [spin_operator], or an array. *)
Inductive operator : Type :=
| Label (s : str)
| Matrix (m : mat).

(** [if isinstance(s, str): s = spin_operator(s, S=S)]. *)
Definition as_array (S : spin) (s : operator) : mat :=
  match s with
  | Label l => spin_operator l S
  | Matrix m => m
  end.

Definition grid : Type := list (list mat).

Definition get_block (D r c : nat) (H : grid) : mat :=
  nth c (nth r H []) (zero_block D).

(** [H[r, c, :, :] = x], for [r] and [c] within the array. *)
Definition set_block (r c : nat) (x : mat) (H : grid) : grid :=
  Lanczos.set_nth r (Lanczos.set_nth c x (nth r H [])) H.

Definition two_body_step (S : spin) (B : nat) (acc : unpacked grid)
           (it : nat * term scalar operator) : unpacked grid :=
  match acc with
  | UnpackError => UnpackError
  | Unpacked H =>
      match it with
      | (i, (factor, [s1; s2])) =>
          let s1 := as_array S s1 in
          let s2 := as_array S s2 in
          let H := set_block (1 + i) 0 s1 H in
          Unpacked (set_block (B - 1) (1 + i) (smul factor s2) H)
      | _ => UnpackError
      end
  end.

Definition one_body_step (S : spin) (D B : nat) (acc : unpacked grid)
           (it : term scalar operator) : unpacked grid :=
  match acc with
  | UnpackError => UnpackError
  | Unpacked H =>
      match it with
      | (factor, [s]) =>
          let s := as_array S s in
          Unpacked (set_block (B - 1) 0
                              (madd (get_block D (B - 1) 0 H) (smul factor s)) H)
      | _ => UnpackError
      end
  end.

(** What [spin_ham_mpo_tensor] returns: [H], a slice of it, or all three. *)
Inductive tensors : Type :=
| Middle (H : grid)
| LeftEnd (row : list mat)
| RightEnd (column : list mat)
| AllThree (left_end : list mat) (H : grid) (right_end : list mat).

Definition last_row (B : nat) (H : grid) : list mat := nth (B - 1) H [].

Definition first_column (D : nat) (H : grid) : list mat :=
  map (fun row => nth 0 row (zero_block D)) H.

Definition spin_ham_mpo_tensor (one_site_terms two_site_terms : list (term scalar operator))
           (S : spin) (which : option str) : unpacked tensors :=
  let D := local_dim S in
  let B := length two_site_terms + 2 in
  let H : grid := repeat (repeat (zero_block D) B) B in
  match fold_left (two_body_step S B) (Contract.enumerate two_site_terms)
                  (Unpacked H) with
  | UnpackError => UnpackError
  | Unpacked H =>
      match fold_left (one_body_step S D B) one_site_terms (Unpacked H) with
      | UnpackError => UnpackError
      | Unpacked H =>
          let H := set_block 0 0 (eye D) H in
          let H := set_block (B - 1) (B - 1) (eye D) H in
          match which with
          | Some w =>
              if str_eqb w ["L"%char] then Unpacked (LeftEnd (last_row B H))
              else if str_eqb w ["R"%char] then Unpacked (RightEnd (first_column D H))
              else if str_eqb w ["A"%char]
                   then Unpacked (AllThree (last_row B H) H (first_column D H))
                   else Unpacked (Middle H)
          | None => Unpacked (Middle H)
          end
      end
  end.

(** A site array of the operator: an end tensor or the middle tensor. *)
Inductive site : Type :=
| EndSite (blocks : list mat)
| InnerSite (H : grid).

(** [MPOSpinHam.build]: the arrays given to [MatrixProductOperator]. *)
Definition build (self : MPOSpinHam scalar operator spin) (n : nat)
  : unpacked (list site) :=
  match spin_ham_mpo_tensor (one_site_terms self) (two_site_terms self)
                            (TensorGen.S self) (Some ["A"%char]) with
  | Unpacked (AllThree left_end middle right_end) =>
      Unpacked ([EndSite left_end] ++ repeat (InnerSite middle) (n - 2)
                ++ [EndSite right_end])
  | Unpacked _ => UnpackError
  | UnpackError => UnpackError
  end.

(** [S = 1 / 2] and the factor [-b]. *)
Variable half : spin.
Variable neg : scalar -> scalar.

Definition label_X : operator := Label ["X"%char].
Definition label_Y : operator := Label ["Y"%char].
Definition label_Z : operator := Label ["Z"%char].

(** A call of [add_term] in a function body: the builder is updated, and
    an exception ends the function. *)
Definition then_add_term (r : result (MPOSpinHam scalar operator spin))
           (factor : scalar) (operators : list operator)
  : result (MPOSpinHam scalar operator spin) :=
  bind r (fun H => let (H', r') := add_term H factor operators in
                   bind r' (fun _ => Returned H')).

Definition MPO_ham_ising (n : nat) (j bx : scalar) : result (unpacked (list site)) :=
  let H := Returned (init _ _ half) in
  let H := then_add_term H j [label_Z; label_Z] in
  let H := then_add_term H (neg bx) [label_X] in
  bind H (fun H => Returned (build H n)).

Definition MPO_ham_XY (n : nat) (j bz : scalar) : result (unpacked (list site)) :=
  let H := Returned (init _ _ half) in
  let H := then_add_term H j [label_X; label_X] in
  let H := then_add_term H j [label_Y; label_Y] in
  let H := then_add_term H (neg bz) [label_Z] in
  bind H (fun H => Returned (build H n)).

Definition MPO_ham_heis (n : nat) (j bz : scalar) : result (unpacked (list site)) :=
  let H := Returned (init _ _ half) in
  let H := then_add_term H j [label_X; label_X] in
  let H := then_add_term H j [label_Y; label_Y] in
  let H := then_add_term H j [label_Z; label_Z] in
  let H := then_add_term H (neg bz) [label_Z] in
  bind H (fun H => Returned (build H n)).

(** *** The blocks of the tensor *)

Lemma set_block_middle (rows1 rows2 : grid) (row1 row2 : list mat) (a x : mat)
      (r c : nat) :
  r = length rows1 -> c = length row1 ->
  set_block r c x (rows1 ++ (row1 ++ a :: row2) :: rows2)
  = rows1 ++ (row1 ++ x :: row2) :: rows2.
Proof.
  intros Hr Hc. unfold set_block.
  rewrite (nth_middle_at _ _ _ _ Hr), (set_nth_middle _ _ _ _ Hc).
  now apply set_nth_middle.
Qed.

Lemma get_block_middle (D : nat) (rows1 rows2 : grid) (row1 row2 : list mat)
      (a : mat) (r c : nat) :
  r = length rows1 -> c = length row1 ->
  get_block D r c (rows1 ++ (row1 ++ a :: row2) :: rows2) = a.
Proof.
  intros Hr Hc. unfold get_block.
  rewrite (nth_middle_at _ _ _ _ Hr). now apply nth_middle_at.
Qed.

(** The stored forms of a one-site and of a two-site term. *)
Definition single_term (t : scalar * operator) : term scalar operator :=
  (fst t, [snd t]).

Definition pair_term (t : scalar * operator * operator) : term scalar operator :=
  (fst (fst t), [snd (fst t); snd t]).

Section Blocks.

Variable S : spin.

Let D : nat := local_dim S.

(** The block a two-site term puts in the first column, and the one it
    puts in the last row. *)
Definition first_block (t : scalar * operator * operator) : mat :=
  as_array S (snd (fst t)).

Definition second_block (t : scalar * operator * operator) : mat :=
  smul (fst (fst t)) (as_array S (snd t)).

(** The sum [H[B - 1, 0]] accumulates, from the zero block on. *)
Definition one_body_from (acc : mat) (ones : list (scalar * operator)) : mat :=
  fold_left (fun acc t => madd acc (smul (fst t) (as_array S (snd t)))) ones acc.

(** [H] after the terms [done] of the first loop, [m] more to come; [w] is
    [B - 1]. *)
Definition partial_grid (w : nat) (done : list (scalar * operator * operator))
           (m : nat) : grid :=
  ((zero_block D :: repeat (zero_block D) w)
     :: map (fun t => first_block t :: repeat (zero_block D) w) done)
  ++ repeat (zero_block D :: repeat (zero_block D) w) m
  ++ [(zero_block D :: map second_block done)
      ++ repeat (zero_block D) m ++ [zero_block D]].

Lemma two_body_loop (w : nat) (rest done : list (scalar * operator * operator)) :
  w = length done + length rest + 1 ->
  fold_left (two_body_step S (w + 1))
            (combine (seq (length done) (length rest)) (map pair_term rest))
            (Unpacked (partial_grid w done (length rest)))
  = Unpacked (partial_grid w (done ++ rest) 0).
Proof.
  revert done. induction rest as [|t rest IH]; intros done Hw.
  - rewrite app_nil_r. reflexivity.
  - cbn [length seq map combine fold_left].
    replace (done ++ t :: rest) with ((done ++ [t]) ++ rest)
      by (now rewrite <- app_assoc).
    rewrite <- IH by (rewrite length_app; simpl in *; lia).
    rewrite length_app. cbn [length].
    replace (length done + 1) with (Datatypes.S (length done)) by lia.
    apply (f_equal (fold_left (two_body_step S (w + 1)) _)).
    unfold two_body_step at 1. unfold pair_term at 1. cbn [fst snd]. f_equal.
    unfold partial_grid. cbn [repeat].
    set (zs := repeat (zero_block D) w).
    set (F := fun t0 : scalar * operator * operator => first_block t0 :: zs).
    set (bottom := zero_block D :: map second_block done).
    set (m := length rest).
    etransitivity.
    { apply (f_equal (set_block _ _ _)).
      apply (set_block_middle
               ((zero_block D :: zs) :: map F done)
               (repeat (zero_block D :: zs) m
                ++ [bottom ++ (zero_block D :: repeat (zero_block D) m)
                    ++ [zero_block D]])
               [] zs (zero_block D) (as_array S (snd (fst t)))).
      - cbn [length]. rewrite length_map. lia.
      - reflexivity. }
    replace (((zero_block D :: zs) :: map F done)
             ++ ([] ++ as_array S (snd (fst t)) :: zs)
                :: repeat (zero_block D :: zs) m
                ++ [bottom ++ (zero_block D :: repeat (zero_block D) m)
                    ++ [zero_block D]])
      with ((((zero_block D :: zs) :: map F done)
             ++ (as_array S (snd (fst t)) :: zs) :: repeat (zero_block D :: zs) m)
            ++ (bottom ++ zero_block D :: repeat (zero_block D) m ++ [zero_block D])
               :: [])
      by (rewrite <- app_assoc; reflexivity).
    rewrite set_block_middle.
    + unfold bottom, F. rewrite !map_app. cbn [map app].
      rewrite <- !app_assoc. reflexivity.
    + cbn [length]. rewrite length_app. cbn [length].
      rewrite length_map, repeat_length. simpl in Hw. unfold m. lia.
    + unfold bottom. cbn [length]. rewrite length_map. lia.
Qed.

Lemma one_body_loop (B : nat) (ones : list (scalar * operator)) (acc : mat)
      (rows : grid) (tail : list mat) :
  B - 1 = length rows ->
  fold_left (one_body_step S D B) (map single_term ones)
            (Unpacked (rows ++ [acc :: tail]))
  = Unpacked (rows ++ [one_body_from acc ones :: tail]).
Proof.
  intros HB. revert acc. induction ones as [|t ones IH]; intros acc; [reflexivity|].
  cbn [map fold_left].
  change (one_body_from acc (t :: ones))
    with (one_body_from (madd acc (smul (fst t) (as_array S (snd t)))) ones).
  rewrite <- IH.
  apply (f_equal (fold_left (one_body_step S D B) _)).
  unfold one_body_step, single_term. cbn [fst snd]. f_equal.
  pose proof (get_block_middle D rows [] [] tail acc HB eq_refl) as G.
  cbn [app length] in G. rewrite G.
  apply (set_block_middle rows [] [] tail acc _ HB eq_refl).
Qed.

(** [H] as [spin_ham_mpo_tensor] leaves it. *)
Definition tensor_rows (ones : list (scalar * operator))
           (twos : list (scalar * operator * operator)) : grid :=
  (eye D :: repeat (zero_block D) (length twos + 1))
    :: map (fun t => first_block t :: repeat (zero_block D) (length twos + 1)) twos
    ++ [one_body_from (zero_block D) ones :: map second_block twos ++ [eye D]].

Lemma zero_grid (k : nat) :
  repeat (repeat (zero_block D) (k + 2)) (k + 2) = partial_grid (k + 1) [] k.
Proof.
  unfold partial_grid. cbn [map app].
  replace (k + 2) with (Datatypes.S (k + 1)) by lia. cbn [repeat]. f_equal.
  rewrite Nat.add_1_r at 1. rewrite <- repeat_cons. cbn [repeat]. do 3 f_equal.
  rewrite Nat.add_1_r. apply repeat_cons.
Qed.

Lemma spin_ham_mpo_tensor_grid (ones : list (scalar * operator))
      (twos : list (scalar * operator * operator)) (which : option str) :
  spin_ham_mpo_tensor (map single_term ones) (map pair_term twos) S which
  = let B := length twos + 2 in
    let H := tensor_rows ones twos in
    match which with
    | Some w =>
        if str_eqb w ["L"%char] then Unpacked (LeftEnd (last_row B H))
        else if str_eqb w ["R"%char] then Unpacked (RightEnd (first_column D H))
        else if str_eqb w ["A"%char]
             then Unpacked (AllThree (last_row B H) H (first_column D H))
             else Unpacked (Middle H)
    | None => Unpacked (Middle H)
    end.
Proof.
  unfold spin_ham_mpo_tensor, Contract.enumerate. rewrite !length_map. fold D.
  rewrite zero_grid.
  pose proof (@two_body_loop (length twos + 1) twos [] ltac:(simpl; lia)) as E2.
  cbn [length app] in E2.
  replace (length twos + 1 + 1) with (length twos + 2) in E2 by lia.
  rewrite E2. clear E2.
  set (zs := repeat (zero_block D) (length twos + 1)).
  set (top := (zero_block D :: zs)
                :: map (fun t => first_block t :: zs) twos).
  assert (Ltop : length top = length twos + 2 - 1)
    by (unfold top; cbn [length]; rewrite length_map; lia).
  assert (E1 : fold_left (one_body_step S D (length twos + 2))
                         (map single_term ones)
                         (Unpacked (partial_grid (length twos + 1) twos 0))
               = Unpacked (top ++ [one_body_from (zero_block D) ones
                                     :: map second_block twos ++ [zero_block D]])).
  { apply (@one_body_loop (length twos + 2) ones (zero_block D) top
             (map second_block twos ++ [zero_block D])).
    now rewrite Ltop. }
  rewrite E1. clear E1.
  assert (EG : set_block (length twos + 2 - 1) (length twos + 2 - 1) (eye D)
                 (set_block 0 0 (eye D)
                    (top ++ [one_body_from (zero_block D) ones
                               :: map second_block twos ++ [zero_block D]]))
               = tensor_rows ones twos).
  { etransitivity.
    { apply (f_equal (set_block _ _ _)).
      apply (set_block_middle []
               (map (fun t => first_block t :: zs) twos
                ++ [one_body_from (zero_block D) ones
                      :: map second_block twos ++ [zero_block D]])
               [] zs (zero_block D) (eye D) eq_refl eq_refl). }
    apply (@set_block_middle
             ((eye D :: zs) :: map (fun t => first_block t :: zs) twos)
             []
             (one_body_from (zero_block D) ones :: map second_block twos)
             [] (zero_block D) (eye D)
             (length twos + 2 - 1) (length twos + 2 - 1)).
    - cbn [length]. rewrite length_map. lia.
    - cbn [length]. rewrite length_map. lia. }
  cbv zeta. rewrite EG. reflexivity.
Qed.

Lemma str_eqb_eq (a b : str) : str_eqb a b = true -> a = b.
Proof.
  revert b. induction a as [|x a IH]; intros [|y b] H; simpl in H;
    try discriminate; [reflexivity|].
  apply andb_prop in H as [H1 H2]. apply Ascii.eqb_eq in H1.
  f_equal; [exact H1|now apply IH].
Qed.

Lemma str_eqb_neq (a b : str) : a <> b -> str_eqb a b = false.
Proof.
  intros H. destruct (str_eqb a b) eqn:E; [|reflexivity].
  apply str_eqb_eq in E. contradiction.
Qed.

Lemma tensor_rows_last (ones : list (scalar * operator))
      (twos : list (scalar * operator * operator)) :
  last_row (length twos + 2) (tensor_rows ones twos)
  = one_body_from (zero_block D) ones :: map second_block twos ++ [eye D].
Proof.
  unfold last_row, tensor_rows.
  rewrite app_comm_cons. apply nth_middle_at.
  cbn [length]. rewrite length_map. lia.
Qed.

Lemma tensor_rows_column (ones : list (scalar * operator))
      (twos : list (scalar * operator * operator)) :
  first_column D (tensor_rows ones twos)
  = eye D :: map first_block twos ++ [one_body_from (zero_block D) ones].
Proof.
  unfold first_column, tensor_rows. cbn [map nth]. f_equal.
  rewrite map_app, map_map. reflexivity.
Qed.

(** The whole of [spin_ham_mpo_tensor] on terms of the right arities, with
    [k] two-site terms: [H] has [k + 2] rows of [k + 2] blocks; its first
    row is [eye] and zeros; row [1 + i] holds the first operator of the
    [i]-th two-site term and zeros; its last row holds the sum of the
    one-site terms, added to zero in their order, then [factor * s2] of
    each two-site term in order, then [eye]. ['L'] selects the last row,
    ['R'] the first column, ['A'] both with [H], and any other [which]
    gives [H]. *)
Theorem spin_ham_mpo_tensor_blocks (ones : list (scalar * operator))
        (twos : list (scalar * operator * operator)) :
  let k := length twos in
  let zs := repeat (zero_block (local_dim S)) (k + 1) in
  let one_body := one_body_from (zero_block (local_dim S)) ones in
  let bottom := one_body :: map second_block twos ++ [eye (local_dim S)] in
  let H := (eye (local_dim S) :: zs)
             :: map (fun t => first_block t :: zs) twos ++ [bottom] in
  let column := eye (local_dim S) :: map first_block twos ++ [one_body] in
  let tensor := spin_ham_mpo_tensor (map single_term ones) (map pair_term twos) S in
  tensor None = Unpacked (Middle H) /\
  tensor (Some ["L"%char]) = Unpacked (LeftEnd bottom) /\
  tensor (Some ["R"%char]) = Unpacked (RightEnd column) /\
  tensor (Some ["A"%char]) = Unpacked (AllThree bottom H column) /\
  (forall w, w <> ["L"%char] -> w <> ["R"%char] -> w <> ["A"%char] ->
             tensor (Some w) = Unpacked (Middle H)) /\
  length H = k + 2 /\
  Forall (fun row => length row = k + 2) H.
Proof.
  intros k zs one_body bottom H column tensor. unfold tensor.
  assert (EL : last_row (length twos + 2) (tensor_rows ones twos) = bottom)
    by apply tensor_rows_last.
  assert (EC : first_column D (tensor_rows ones twos) = column)
    by apply tensor_rows_column.
  assert (EH : tensor_rows ones twos = H) by reflexivity.
  repeat split.
  - rewrite spin_ham_mpo_tensor_grid. reflexivity.
  - rewrite spin_ham_mpo_tensor_grid. cbv zeta.
    cbn [str_eqb Ascii.eqb Bool.eqb andb]. now rewrite EL.
  - rewrite spin_ham_mpo_tensor_grid. cbv zeta.
    cbn [str_eqb Ascii.eqb Bool.eqb andb]. now rewrite EC.
  - rewrite spin_ham_mpo_tensor_grid. cbv zeta.
    cbn [str_eqb Ascii.eqb Bool.eqb andb]. now rewrite EL, EC, EH.
  - intros w HL HR HA. rewrite spin_ham_mpo_tensor_grid. cbv zeta.
    now rewrite !str_eqb_neq by assumption.
  - unfold H. cbn [length]. rewrite length_app, length_map. simpl. lia.
  - unfold H. constructor.
    + unfold zs. cbn [length]. rewrite repeat_length. lia.
    + apply Forall_app. split.
      * apply Forall_forall. intros row Hrow.
        apply in_map_iff in Hrow as (t & <- & _).
        unfold zs. cbn [length]. rewrite repeat_length. lia.
      * constructor; [|constructor]. unfold bottom. cbn [length].
        rewrite length_app, length_map. simpl. lia.
Qed.

End Blocks.

(** *** Arities: when unpacking a term fails *)

Lemma two_body_sticky (S : spin) (B : nat) (l : list (nat * term scalar operator)) :
  fold_left (two_body_step S B) l UnpackError = UnpackError.
Proof. induction l as [|it l IH]; [reflexivity|exact IH]. Qed.

Lemma one_body_sticky (S : spin) (D B : nat) (l : list (term scalar operator)) :
  fold_left (one_body_step S D B) l UnpackError = UnpackError.
Proof. induction l as [|it l IH]; [reflexivity|exact IH]. Qed.

Lemma two_body_bad (S : spin) (B : nat) (l : list (nat * term scalar operator))
      (acc : unpacked grid) (i : nat) (t : term scalar operator) :
  In (i, t) l -> length (snd t) <> 2 ->
  fold_left (two_body_step S B) l acc = UnpackError.
Proof.
  intros Hin Hbad. revert acc. induction l as [|it l IH]; intros acc; [destruct Hin|].
  destruct Hin as [->|Hin]; [|now apply IH].
  cbn [fold_left]. destruct acc as [H|]; [|apply two_body_sticky].
  destruct t as [f [|a [|b [|c ops]]]]; cbn [two_body_step];
    try apply two_body_sticky.
  simpl in Hbad. lia.
Qed.

Lemma one_body_bad (S : spin) (D B : nat) (l : list (term scalar operator))
      (acc : unpacked grid) (t : term scalar operator) :
  In t l -> length (snd t) <> 1 ->
  fold_left (one_body_step S D B) l acc = UnpackError.
Proof.
  intros Hin Hbad. revert acc. induction l as [|it l IH]; intros acc; [destruct Hin|].
  destruct Hin as [->|Hin]; [|now apply IH].
  cbn [fold_left]. destruct acc as [H|]; [|apply one_body_sticky].
  destruct t as [f [|a [|b ops]]]; cbn [one_body_step];
    try apply one_body_sticky.
  simpl in Hbad. lia.
Qed.

Lemma In_combine_seq {X : Type} (x : X) (l : list X) (a : nat) :
  In x l -> exists i, In (i, x) (combine (seq a (length l)) l).
Proof.
  revert a. induction l as [|y l IH]; intros a H; [destruct H|].
  destruct H as [->|H].
  - exists a. now left.
  - destruct (IH (Datatypes.S a) H) as [i Hi]. exists i. now right.
Qed.

Lemma terms_as_singles (l : list (term scalar operator)) :
  Forall (fun t => length (snd t) = 1) l -> exists ones, l = map single_term ones.
Proof.
  induction 1 as [|t l Ht _ [ones ->]]; [now exists []|].
  destruct t as [f [|a [|b ops]]]; try discriminate.
  now exists ((f, a) :: ones).
Qed.

Lemma terms_as_pairs (l : list (term scalar operator)) :
  Forall (fun t => length (snd t) = 2) l -> exists twos, l = map pair_term twos.
Proof.
  induction 1 as [|t l Ht _ [twos ->]]; [now exists []|].
  destruct t as [f [|a [|b [|c ops]]]]; try discriminate.
  now exists ((f, a, b) :: twos).
Qed.

(** [spin_ham_mpo_tensor] fails exactly on a term of the wrong arity: a
    one-site term that is not a factor with one operator, or a two-site
    term that is not a factor with two, cannot be unpacked; when every
    term fits, a tensor is returned. *)
Theorem spin_ham_mpo_tensor_arity (one two : list (term scalar operator))
        (S : spin) (which : option str) :
  ((exists t, In t two /\ length (snd t) <> 2) \/
   (exists t, In t one /\ length (snd t) <> 1) ->
   spin_ham_mpo_tensor one two S which = UnpackError) /\
  (Forall (fun t => length (snd t) = 1) one ->
   Forall (fun t => length (snd t) = 2) two ->
   exists T, spin_ham_mpo_tensor one two S which = Unpacked T).
Proof.
  split.
  - intros [(t & Hin & Hbad)|(t & Hin & Hbad)]; unfold spin_ham_mpo_tensor.
    + destruct (In_combine_seq t two 0 Hin) as [i Hi].
      unfold Contract.enumerate.
      now rewrite (@two_body_bad S _ _ _ i t Hi Hbad).
    + destruct (fold_left _ (Contract.enumerate two) _) as [H|]; [|reflexivity].
      now rewrite (@one_body_bad S _ _ _ _ t Hin Hbad).
  - intros H1 H2.
    destruct (terms_as_singles H1) as [ones ->].
    destruct (terms_as_pairs H2) as [twos ->].
    rewrite spin_ham_mpo_tensor_grid. cbv zeta.
    destruct which as [w|]; [|eauto].
    destruct (str_eqb w ["L"%char]); [eauto|].
    destruct (str_eqb w ["R"%char]); [eauto|].
    destruct (str_eqb w ["A"%char]); eauto.
Qed.

(** *** Building after calls of [add_term] *)

(** The builder after a sequence of calls [add_term(factor, *operators)],
    a call that raised leaving it as it was. *)
Definition after_calls (b : MPOSpinHam scalar operator spin)
           (calls : list (scalar * list operator)) : MPOSpinHam scalar operator spin :=
  fold_left (fun b c => fst (add_term b (fst c) (snd c))) calls b.

Lemma after_calls_terms (calls : list (scalar * list operator))
      (b : MPOSpinHam scalar operator spin) :
  TensorGen.S (after_calls b calls) = TensorGen.S b /\
  one_site_terms (after_calls b calls)
  = one_site_terms b ++ filter (fun c => length (snd c) =? 1) calls /\
  two_site_terms (after_calls b calls)
  = two_site_terms b ++ filter (fun c => length (snd c) =? 2) calls.
Proof.
  revert b. induction calls as [|[f ops] calls IH]; intros b.
  - cbn [after_calls fold_left filter]. now rewrite !app_nil_r.
  - unfold after_calls. cbn [fold_left fst snd filter].
    fold (after_calls (fst (add_term b f ops)) calls).
    destruct (IH (fst (add_term b f ops))) as (E0 & E1 & E2).
    rewrite E0, E1, E2. unfold add_term.
    destruct (length ops =? 1) eqn:L1.
    + apply Nat.eqb_eq in L1. rewrite L1. cbn [fst TensorGen.S one_site_terms
                                               two_site_terms Nat.eqb].
      rewrite <- app_assoc. auto.
    + destruct (length ops =? 2) eqn:L2;
        cbn [fst TensorGen.S one_site_terms two_site_terms].
      * rewrite <- app_assoc. auto.
      * auto.
Qed.

(** Whatever calls of [add_term] were made on a new builder, [build]
    succeeds: the terms are kept in the order of the calls, those with one
    operator apart from those with two, calls with any other number having
    left nothing; the operator gets its two end tensors and [n - 2] copies
    of the middle tensor, whose bond dimension is the number of two-site
    terms plus two. *)
Theorem build_after_add_term (calls : list (scalar * list operator))
        (s : spin) (n : nat) :
  let b := after_calls (init _ _ s) calls in
  one_site_terms b = filter (fun c => length (snd c) =? 1) calls /\
  two_site_terms b = filter (fun c => length (snd c) =? 2) calls /\
  exists l m r,
    build b n
    = Unpacked ([EndSite l] ++ repeat (InnerSite m) (n - 2) ++ [EndSite r]) /\
    length m = length (two_site_terms b) + 2 /\
    length l = length m /\ length r = length m.
Proof.
  intros b. destruct (after_calls_terms calls (init _ _ s)) as (E0 & E1 & E2).
  fold b in E0, E1, E2. cbn [init TensorGen.S one_site_terms two_site_terms app]
    in E0, E1, E2.
  split; [exact E1|]. split; [exact E2|].
  assert (W1 : Forall (fun t : term scalar operator => length (snd t) = 1)
                      (one_site_terms b)).
  { rewrite E1. apply Forall_forall. intros t Ht.
    apply filter_In in Ht as [_ Ht]. now apply Nat.eqb_eq in Ht. }
  assert (W2 : Forall (fun t : term scalar operator => length (snd t) = 2)
                      (two_site_terms b)).
  { rewrite E2. apply Forall_forall. intros t Ht.
    apply filter_In in Ht as [_ Ht]. now apply Nat.eqb_eq in Ht. }
  destruct (terms_as_singles W1) as [ones H1].
  destruct (terms_as_pairs W2) as [twos H2].
  unfold build. rewrite H1, H2, spin_ham_mpo_tensor_grid. cbv zeta.
  cbn [str_eqb Ascii.eqb Bool.eqb andb].
  do 3 eexists. split; [reflexivity|].
  rewrite tensor_rows_last, tensor_rows_column.
  unfold tensor_rows. cbn [length].
  rewrite !length_app, !length_map. cbn [length]. repeat split; lia.
Qed.

(** The three Hamiltonians never raise. Their middle tensors have bond
    dimension 3 (Ising), 4 (XY) and 5 (Heisenberg); the left end tensor
    is the last row of the middle one: the field term, added to the zero
    block, then [j] times each coupling operator in the order of the
    [add_term] calls, then [eye]; the right end tensor is its first
    column. *)
Theorem MPO_ham_tensors (n : nat) (j b : scalar) :
  let D := local_dim half in
  let op := fun c => spin_operator [c] half in
  let field := fun c => madd (zero_block D) (smul (neg b) (op c)) in
  let O := zero_block D in
  let I := eye D in
  let sites := fun (l : list mat) (m : grid) (r : list mat) =>
                 [EndSite l] ++ repeat (InnerSite m) (n - 2) ++ [EndSite r] in
  MPO_ham_ising n j b
  = Returned (Unpacked
      (sites [field "X"%char; smul j (op "Z"%char); I]
             [[I; O; O];
              [op "Z"%char; O; O];
              [field "X"%char; smul j (op "Z"%char); I]]
             [I; op "Z"%char; field "X"%char])) /\
  MPO_ham_XY n j b
  = Returned (Unpacked
      (sites [field "Z"%char; smul j (op "X"%char); smul j (op "Y"%char); I]
             [[I; O; O; O];
              [op "X"%char; O; O; O];
              [op "Y"%char; O; O; O];
              [field "Z"%char; smul j (op "X"%char); smul j (op "Y"%char); I]]
             [I; op "X"%char; op "Y"%char; field "Z"%char])) /\
  MPO_ham_heis n j b
  = Returned (Unpacked
      (sites [field "Z"%char; smul j (op "X"%char); smul j (op "Y"%char);
              smul j (op "Z"%char); I]
             [[I; O; O; O; O];
              [op "X"%char; O; O; O; O];
              [op "Y"%char; O; O; O; O];
              [op "Z"%char; O; O; O; O];
              [field "Z"%char; smul j (op "X"%char); smul j (op "Y"%char);
               smul j (op "Z"%char); I]]
             [I; op "X"%char; op "Y"%char; op "Z"%char; field "Z"%char])).
Proof.
  intros D op field O I sites. repeat split.
Qed.

End Tensor.

(** *** An instance to compute with: one-by-one blocks of integers *)

Definition label_code (l : str) (_ : unit) : Z :=
  match l with
  | [c] => Z.of_nat (nat_of_ascii c)
  | _ => 0%Z
  end.

Definition int_tensor :=
  @spin_ham_mpo_tensor Z Z unit (fun _ => 1) label_code (fun _ => 1%Z)
                       (fun _ => 0%Z) Z.mul Z.add.

(** A two-site term stored with one operator only cannot be unpacked. *)
Lemma spin_ham_mpo_tensor_arity_witness :
  int_tensor [(1%Z, [Label Z ["Z"%char]])] [(2%Z, [Label Z ["X"%char]])] tt None
  = UnpackError.
Proof.
  apply (proj1 (@spin_ham_mpo_tensor_arity Z Z unit (fun _ => 1) label_code
                  (fun _ => 1%Z) (fun _ => 0%Z) Z.mul Z.add
                  [(1%Z, [Label Z ["Z"%char]])] [(2%Z, [Label Z ["X"%char]])]
                  tt None)).
  left. exists (2%Z, [Label Z ["X"%char]]). split; [now left|].
  simpl. lia.
Defined.


End SpinHam.
